(** * lcm-gen, Dart back end ([lcmgen/emit_dart.c])

    The emitter turns the parsed schema ([lcm_struct_t]) into Dart source
    text, one class per struct with an [encode] and a [decode] method.

    Definitions:
    - [Text], [Schema], [Int64], [Emit]: the emitter itself, function by
      function, with the bytes it prints to the output [FILE] as a
      [string], and the files a run of [emit_dart] leaves behind;
    - [Dart]: the statements and expressions the emitter prints, as syntax
      trees with their printer;
    - [Run]: what those statements do when they run against an [LcmBuffer],
      which gives the bytes on the wire;
    - [Spec], [Examples]: what the specification compares the emitter with,
      and worked schemas.

    Theorems:
    - [PrintFacts]: the emitter's text is the printed syntax tree;
    - [EmitFacts]: fingerprint constant, type names, class names, paths and
      the batch;
    - [RunFacts]: the bytes [encode] writes and the values [decode] reads. *)

From Stdlib Require Import ZArith List Bool Lia.
From Stdlib.Strings Require Import String Ascii Byte.
From Stdlib Require Import DecimalString.
From Stdlib Require DecimalNat DecimalFacts.
Import ListNotations.

#[local] Set Warnings "-register-all".
Local Open Scope string_scope.
Local Open Scope list_scope.
Local Open Scope Z_scope.

(* ================================================================== *)
(** ** Characters and strings of the C side *)

Module Text.

(** The line feed printed by [emit] and [emit_end]. *)
Definition nl : string := String (ascii_of_nat 10) EmptyString.

(** [fprintf(f, "%*s", w, "")]: [w] blanks. *)
Fixpoint spaces (w : nat) : string :=
  match w with
  | O => EmptyString
  | S w' => String " "%char (spaces w')
  end.

(** [#define INDENT(n) (2 * (n))] *)
Definition INDENT (n : nat) : nat := (2 * n)%nat.

(** The four printing macros; [f] is the text printed so far, so each one
    is the text it adds. *)
Definition emit_start (n : nat) (s : string) : string := (spaces (INDENT n) ++ s)%string.
Definition emit_continue (s : string) : string := s.
Definition emit_end (s : string) : string := (s ++ nl)%string.
Definition emit (n : nat) (s : string) : string := (spaces (INDENT n) ++ s ++ nl)%string.

(** What a loop of [fprintf]s prints: the pieces one after the other. *)
Fixpoint cat (pieces : list string) : string :=
  match pieces with
  | [] => EmptyString
  | piece :: pieces' => (piece ++ cat pieces')%string
  end.

(** [printf("%d")] of a loop counter. *)
Definition dec (n : nat) : string := NilZero.string_of_uint (Nat.to_uint n).

(** [strlen(s) > 0] *)
Definition nonempty (s : string) : bool :=
  match s with EmptyString => false | String _ _ => true end.

(** [toupper] in the C locale: only a..z change. *)
Definition is_lower (c : ascii) : bool :=
  let n := nat_of_ascii c in (97 <=? n)%nat && (n <=? 122)%nat.

Definition toupper (c : ascii) : ascii :=
  if is_lower c then ascii_of_nat (nat_of_ascii c - 32) else c.

(** [dots_to_slashes]; [G_DIR_SEPARATOR] is the slash that
    [make_dirs_for_file] looks for outside Windows. *)
Definition G_DIR_SEPARATOR : ascii := "/"%char.

Fixpoint dots_to_slashes (s : string) : string :=
  match s with
  | EmptyString => EmptyString
  | String t p =>
      String (if (t =? ".")%char then G_DIR_SEPARATOR else t) (dots_to_slashes p)
  end.

(** [to_pascal_case]: the loop over [p], with [capitalize_next] as the
    loop's state; [result] is built front to back. *)
Fixpoint to_pascal_case_loop (capitalize_next : bool) (p : string) : string :=
  match p with
  | EmptyString => EmptyString
  | String c p' =>
      if (c =? "_")%char then to_pascal_case_loop true p'
      else if capitalize_next
           then String (toupper c) (to_pascal_case_loop false p')
           else String c (to_pascal_case_loop false p')
  end.

Definition to_pascal_case (s : string) : string := to_pascal_case_loop true s.

(** [make_dirs_for_file] (the branch that is not WIN32): the [mkdir] calls
    it makes, in order.  [pre] is [path] up to the index [i]; after a slash
    the loop's own [i++] comes on top of the body's, so the next character
    is passed over unseen ([skip]). *)
Fixpoint make_dirs_scan (pre : string) (rest : string) (skip : bool) : list string :=
  match rest with
  | EmptyString => []
  | String c rest' =>
      let pre' := (pre ++ String c EmptyString)%string in
      if skip then make_dirs_scan pre' rest' false
      else if (c =? "/")%char then pre :: make_dirs_scan pre' rest' true
      else make_dirs_scan pre' rest' false
  end.

Definition make_dirs_for_file (path : string) : list string :=
  make_dirs_scan EmptyString path false.

(** [map_type_dart] *)
Definition map_type_dart (type_name : string) : string :=
  if ("int8_t" =? type_name)%string then "int"
  else if ("int16_t" =? type_name)%string then "int"
  else if ("int32_t" =? type_name)%string then "int"
  else if ("int64_t" =? type_name)%string then "int"
  else if ("byte" =? type_name)%string then "int"
  else if ("float" =? type_name)%string then "double"
  else if ("double" =? type_name)%string then "double"
  else if ("string" =? type_name)%string then "String"
  else if ("boolean" =? type_name)%string then "bool"
  else type_name.

(** [g_strsplit(comment, "\n", 0)]: the pieces between line feeds; the empty
    string has no piece at all. *)
Fixpoint split_on (sep : ascii) (s : string) : list string :=
  match s with
  | EmptyString => [EmptyString]
  | String c s' =>
      if (c =? sep)%char then EmptyString :: split_on sep s'
      else match split_on sep s' with
           | piece :: pieces => String c piece :: pieces
           | [] => [String c EmptyString]
           end
  end.

Definition g_strsplit_lines (s : string) : list string :=
  match s with
  | EmptyString => []
  | _ => split_on (ascii_of_nat 10) s
  end.

(** [emit_comment]; a NULL [comment] is [None]. *)
Definition emit_comment (indent : nat) (comment : option string) : string :=
  match comment with
  | None => EmptyString
  | Some c =>
      cat
        (map (fun line =>
                if nonempty line then emit indent ("/// " ++ line)
                else emit indent "///")
             (g_strsplit_lines c))
  end.

(** [emit_encode_one] *)
Definition emit_encode_one (type_name accessor : string) (indent : nat) : string :=
  if (type_name =? "byte")%string then emit indent ("buf.putUint8(" ++ accessor ++ ");")
  else if (type_name =? "int8_t")%string then emit indent ("buf.putInt8(" ++ accessor ++ ");")
  else if (type_name =? "int16_t")%string then emit indent ("buf.putInt16(" ++ accessor ++ ");")
  else if (type_name =? "int32_t")%string then emit indent ("buf.putInt32(" ++ accessor ++ ");")
  else if (type_name =? "int64_t")%string then emit indent ("buf.putInt64(" ++ accessor ++ ");")
  else if (type_name =? "float")%string then emit indent ("buf.putFloat32(" ++ accessor ++ ");")
  else if (type_name =? "double")%string then emit indent ("buf.putFloat64(" ++ accessor ++ ");")
  else if (type_name =? "string")%string then
    (emit indent "{"
     ++ emit (indent + 1) ("final bytes = utf8.encode(" ++ accessor ++ ");")
     ++ emit (indent + 1) "buf.putUint32(bytes.length + 1);"
     ++ emit (indent + 1) "buf.putUint8List(bytes);"
     ++ emit (indent + 1) "buf.putUint8(0);"
     ++ emit indent "}")%string
  else if (type_name =? "boolean")%string then
    emit indent ("buf.putUint8(" ++ accessor ++ " ? 1 : 0);")
  else emit indent (accessor ++ ".encode(buf);").

(** [emit_decode_one] *)
Definition emit_decode_one (type_name accessor : string) (indent : nat) : string :=
  if (type_name =? "byte")%string then emit indent (accessor ++ "buf.getUint8();")
  else if (type_name =? "int8_t")%string then emit indent (accessor ++ "buf.getInt8();")
  else if (type_name =? "int16_t")%string then emit indent (accessor ++ "buf.getInt16();")
  else if (type_name =? "int32_t")%string then emit indent (accessor ++ "buf.getInt32();")
  else if (type_name =? "int64_t")%string then emit indent (accessor ++ "buf.getInt64();")
  else if (type_name =? "float")%string then emit indent (accessor ++ "buf.getFloat32();")
  else if (type_name =? "double")%string then emit indent (accessor ++ "buf.getFloat64();")
  else if (type_name =? "string")%string then
    (emit indent "{"
     ++ emit (indent + 1) "final len = buf.getUint32();"
     ++ emit (indent + 1) "final bytes = buf.getUint8List(len - 1);"
     ++ emit (indent + 1) "buf.getUint8(); // null terminator"
     ++ emit (indent + 1) (accessor ++ "utf8.decode(bytes);")
     ++ emit indent "}")%string
  else if (type_name =? "boolean")%string then
    emit indent (accessor ++ "buf.getUint8() != 0;")
  else emit indent (accessor ++ map_type_dart type_name ++ ".decode(buf);").

End Text.

(* ================================================================== *)
(** ** The schema model the emitter reads *)

Module Schema.

(** Modelled from the spec: the declarations of [lcmgen.h], which is not
    among the sources ([lcm_typename_t], [lcm_dimension_t], [lcm_member_t],
    [lcm_constant_t], [lcm_struct_t], [lcmgen_t] and the two options of
    [getopt_t]).  The fields are the ones [emit_dart.c] reads, under the
    names it reads them by; a [GPtrArray] is a list, a [char*] that may be
    NULL an [option]. *)
Record lcm_typename := {
  lctypename : string;   (* fully qualified name *)
  package : string;
  shortname : string
}.

Inductive lcm_dimension_mode := LCM_CONST | LCM_VAR.

Record lcm_dimension := {
  mode : lcm_dimension_mode;
  size : string          (* a literal, or the name of an earlier member *)
}.

Record lcm_member := {
  lm_type : lcm_typename;
  lm_membername : string;
  lm_dimensions : list lcm_dimension;
  lm_comment : option string
}.

Record lcm_constant := {
  lc_lctypename : string;
  lc_membername : string;
  lc_val_str : string;
  lc_comment : option string
}.

Record lcm_struct := {
  ls_structname : lcm_typename;
  ls_members : list lcm_member;
  ls_constants : list lcm_constant;
  ls_lcmfile : string;
  ls_hash : Z;           (* int64_t *)
  ls_comment : option string
}.

Record getopt := {
  dart_path : string;    (* --dart-path *)
  dart_mkdir : bool      (* --dart-mkdir *)
}.

Record lcmgen := {
  gopt : getopt;
  structs : list lcm_struct
}.

End Schema.

(* ================================================================== *)
(** ** 64-bit integers of the C side *)

Module Int64.

(** The value an [int64_t] holds after an operation whose exact result is
    [z]: [z] reduced to the range from [-2^63] to [2^63 - 1]. *)
Definition wrap (z : Z) : Z := (z + 2 ^ 63) mod 2 ^ 64 - 2 ^ 63.

(** The same 64 bits read as a [uint64_t], which is what [PRIx64] prints. *)
Definition unsigned (z : Z) : Z := z mod 2 ^ 64.

Definition in_range (z : Z) : Prop := - 2 ^ 63 <= z < 2 ^ 63.

Definition hex_digit (d : Z) : ascii :=
  nth (Z.to_nat d)
      ["0"; "1"; "2"; "3"; "4"; "5"; "6"; "7";
       "8"; "9"; "a"; "b"; "c"; "d"; "e"; "f"]%char "0"%char.

(** The last [k] hexadecimal digits of [z], most significant first. *)
Fixpoint hex_digits (k : nat) (z : Z) : string :=
  match k with
  | O => EmptyString
  | S k' => (hex_digits k' (z / 16) ++ String (hex_digit (z mod 16)) EmptyString)%string
  end.

(** [printf("%016" PRIx64, z)]: a 64-bit value never needs more than the
    sixteen digits of the minimum width. *)
Definition PRIx64_016 (z : Z) : string := hex_digits 16 (unsigned z).

(** [(hash << 1) + ((hash >> 63) & 1)] in [int64_t]: the shift left keeps
    the low 64 bits, the shift right of a signed value is arithmetic. *)
Definition fingerprint (hash : Z) : Z :=
  wrap (wrap (Z.shiftl hash 1) + Z.land (Z.shiftr hash 63) 1).

End Int64.

(* ================================================================== *)
(** ** [emit_struct] and [emit_dart] *)

Module Emit.
Import Text Schema.

(** A [for (unsigned int j = 0; j < a->len; j++)] over an array, with the
    counter at hand. *)
Definition indexed {A : Type} (l : list A) : list (nat * A) :=
  combine (seq 0 (List.length l)) l.

(** *** The class body before the codec *)

Definition emit_prologue : string :=
  ("// LCM type definitions" ++ nl
   ++ "// This file automatically generated by lcm-gen." ++ nl
   ++ "// DO NOT MODIFY BY HAND!!!!" ++ nl
   ++ nl
   ++ emit 0 "import 'dart:convert';"
   ++ emit 0 "import 'dart:typed_data';"
   ++ emit 0 "import 'package:lcm_dart/lcm_dart.dart';"
   ++ nl)%string.

Definition emit_class_open (ls : lcm_struct) (class_name : string) : string :=
  (emit_comment 0 (ls_comment ls)
   ++ emit 0 ("class " ++ class_name ++ " implements LcmMessage {"))%string.

Definition emit_fingerprint_constant (ls : lcm_struct) : string :=
  let fingerprint := Int64.fingerprint (ls_hash ls) in
  (emit 1 ("static const int LCM_FINGERPRINT = 0x" ++ Int64.PRIx64_016 fingerprint ++ ";")
   ++ nl)%string.

Definition emit_constants (ls : lcm_struct) : string :=
  (cat (map (fun lc =>
               emit_comment 1 (lc_comment lc)
               ++ emit 1 ("static const " ++ map_type_dart (lc_lctypename lc) ++ " "
                          ++ lc_membername lc ++ " = " ++ lc_val_str lc ++ ";"))
            (ls_constants ls))
   ++ (if (0 <? List.length (ls_constants ls))%nat then nl else EmptyString))%string.

Definition emit_field (lm : lcm_member) : string :=
  (emit_comment 1 (lm_comment lm)
   ++ match lm_dimensions lm with
      | [] => emit 1 (map_type_dart (lctypename (lm_type lm)) ++ " " ++ lm_membername lm ++ ";")
      | dims =>
          emit_start 1 "List"
          ++ cat (map (fun _ => emit_continue "<") dims)
          ++ emit_continue (map_type_dart (lctypename (lm_type lm)))
          ++ cat (map (fun _ => emit_continue ">") dims)
          ++ emit_end (" " ++ lm_membername lm ++ ";")
      end)%string.

Definition emit_fields (ls : lcm_struct) : string :=
  (cat (map emit_field (ls_members ls)) ++ nl)%string.

Definition emit_constructor (ls : lcm_struct) (class_name : string) : string :=
  (emit 1 (class_name ++ "({")
   ++ cat (map (fun lm => emit 2 ("required this." ++ lm_membername lm ++ ",")) (ls_members ls))
   ++ emit 1 "});"
   ++ nl)%string.

Definition emit_fingerprint_getter : string :=
  (emit 1 "@override"
   ++ emit 1 "int get lcmFingerprint => LCM_FINGERPRINT;"
   ++ nl)%string.

(** *** The encode method *)

(** The [GString] accessor of an array element: the member's name and one
    [[i<dim>]] per dimension. *)
Definition array_accessor (lm : lcm_member) : string :=
  (lm_membername lm
   ++ cat (map (fun dim => "[i" ++ dec dim ++ "]") (seq 0 (List.length (lm_dimensions lm)))))%string.

Definition emit_for_open (dim : nat) (ld : lcm_dimension) : string :=
  emit (2 + dim)
       ("for (var i" ++ dec dim ++ " = 0; i" ++ dec dim ++ " < " ++ size ld
        ++ "; i" ++ dec dim ++ "++) {").

Definition emit_encode_member (lm : lcm_member) : string :=
  match lm_dimensions lm with
  | [] => emit_encode_one (lctypename (lm_type lm)) (lm_membername lm) 2
  | dims =>
      (cat (map (fun '(dim, ld) => emit_for_open dim ld) (indexed dims))
       ++ emit_encode_one (lctypename (lm_type lm)) (array_accessor lm) (2 + List.length dims)
       ++ cat (map (fun dim => emit (2 + List.length dims - 1 - dim) "}") (seq 0 (List.length dims))))%string
  end.

Definition emit_encode_method (ls : lcm_struct) : string :=
  (emit 1 "@override"
   ++ emit 1 "void encode(LcmBuffer buf) {"
   ++ emit 2 "buf.putInt64(LCM_FINGERPRINT);"
   ++ cat (map emit_encode_member (ls_members ls))
   ++ emit 1 "}"
   ++ nl)%string.

(** *** The decode method *)

(** The right-hand side of [final <member> = ] for a scalar member. *)
Definition emit_decode_scalar (type_name : string) : string :=
  if (type_name =? "byte")%string then emit_end "buf.getUint8();"
  else if (type_name =? "int8_t")%string then emit_end "buf.getInt8();"
  else if (type_name =? "int16_t")%string then emit_end "buf.getInt16();"
  else if (type_name =? "int32_t")%string then emit_end "buf.getInt32();"
  else if (type_name =? "int64_t")%string then emit_end "buf.getInt64();"
  else if (type_name =? "float")%string then emit_end "buf.getFloat32();"
  else if (type_name =? "double")%string then emit_end "buf.getFloat64();"
  else if (type_name =? "string")%string then
    (emit_end "() {"
     ++ emit 3 "final len = buf.getUint32();"
     ++ emit 3 "final bytes = buf.getUint8List(len - 1);"
     ++ emit 3 "buf.getUint8(); // null terminator"
     ++ emit 3 "return utf8.decode(bytes);"
     ++ emit 2 "}();")%string
  else if (type_name =? "boolean")%string then emit_end "buf.getUint8() != 0;"
  else emit_end (map_type_dart type_name ++ ".decode(buf);").

(** The innermost expression of an array member's [List.generate] nest. *)
Definition emit_decode_element (type_name : string) : string :=
  if (type_name =? "byte")%string then emit_continue "buf.getUint8()"
  else if (type_name =? "int8_t")%string then emit_continue "buf.getInt8()"
  else if (type_name =? "int16_t")%string then emit_continue "buf.getInt16()"
  else if (type_name =? "int32_t")%string then emit_continue "buf.getInt32()"
  else if (type_name =? "int64_t")%string then emit_continue "buf.getInt64()"
  else if (type_name =? "float")%string then emit_continue "buf.getFloat32()"
  else if (type_name =? "double")%string then emit_continue "buf.getFloat64()"
  else if (type_name =? "string")%string then
    (emit_continue "() {"
     ++ emit 3 "final len = buf.getUint32();"
     ++ emit 3 "final bytes = buf.getUint8List(len - 1);"
     ++ emit 3 "buf.getUint8();"
     ++ emit 3 "return utf8.decode(bytes);"
     ++ emit_start 2 "}()")%string
  else if (type_name =? "boolean")%string then emit_continue "buf.getUint8() != 0"
  else emit_continue (map_type_dart type_name ++ ".decode(buf)").

Definition emit_decode_member (lm : lcm_member) : string :=
  match lm_dimensions lm with
  | [] =>
      (emit_start 2 ("final " ++ lm_membername lm ++ " = ")
       ++ emit_decode_scalar (lctypename (lm_type lm)))%string
  | first_dim :: more =>
      (emit_start 2 ("final " ++ lm_membername lm ++ " = ")
       ++ emit_continue "List.generate("
       ++ emit_continue (size first_dim ++ ", (_) => ")
       ++ cat (map (fun ld => emit_continue ("List.generate(" ++ size ld ++ ", (_) => ")) more)
       ++ emit_decode_element (lctypename (lm_type lm))
       ++ cat (map (fun _ => emit_continue ")") (first_dim :: more))
       ++ emit_end ";")%string
  end.

Definition emit_decode_method (ls : lcm_struct) (class_name : string) : string :=
  (emit 1 ("static " ++ class_name ++ " decode(LcmBuffer buf) {")
   ++ emit 2 "final fingerprint = buf.getInt64();"
   ++ emit 2 "if (fingerprint != LCM_FINGERPRINT) {"
   ++ emit 3 "throw Exception('Invalid fingerprint');"
   ++ emit 2 "}"
   ++ nl
   ++ cat (map emit_decode_member (ls_members ls))
   ++ nl
   ++ emit 2 ("return " ++ class_name ++ "(")
   ++ cat (map (fun lm => emit 3 (lm_membername lm ++ ": " ++ lm_membername lm ++ ","))
               (ls_members ls))
   ++ emit 2 ");"
   ++ emit 1 "}")%string.

(** Everything [emit_struct] prints once the file is open. *)
Definition emit_struct_text (ls : lcm_struct) : string :=
  let class_name := to_pascal_case (shortname (ls_structname ls)) in
  (emit_prologue
   ++ emit_class_open ls class_name
   ++ emit_fingerprint_constant ls
   ++ emit_constants ls
   ++ emit_fields ls
   ++ emit_constructor ls class_name
   ++ emit_fingerprint_getter
   ++ emit_encode_method ls
   ++ emit_decode_method ls class_name
   ++ emit 0 "}")%string.

(** *** Files *)

(** What the run cannot decide by itself: whether [fopen(path, "w")]
    succeeds, whether the [fprintf]s to an open file succeed, and
    [lcm_needs_generation] (in [lcmgen.c], from the time stamps of the
    schema and of the output). *)
Record host := {
  fopen_ok : string -> bool;
  fprintf_ok : string -> bool;
  lcm_needs_generation : string -> string -> bool
}.

(** What the run did: the [fopen(path, "w")] calls that succeeded, each
    with the text printed before its [fclose], latest first; the [mkdir]
    calls; the [perror] lines.  [fopen] with ["w"] truncates, so of two
    entries with one path the later one is the file afterwards
    ([Notions.file_at]). *)
Record disk := {
  written : list (string * string);
  made_dirs : list string;
  stderr : list string
}.

Definition no_disk : disk := {| written := []; made_dirs := []; stderr := [] |}.

(** [emit_struct]: -1 when the file does not open.  No [fprintf] has its
    result looked at, nor has [fclose]: where printing fails the file stays
    empty and the status is 0 all the same. *)
Definition emit_struct (h : host) (ls : lcm_struct) (path : string) (d : disk) : Z * disk :=
  if fopen_ok h path then
    let text := if fprintf_ok h path then emit_struct_text ls else EmptyString in
    (0, {| written := (path, text) :: written d;
           made_dirs := made_dirs d;
           stderr := stderr d |})
  else
    (-1, {| written := written d;
            made_dirs := made_dirs d;
            stderr := stderr d ++ [path] |}).

(** [snprintf(path, sizeof(path), ...)] into [char path[1024]]: at most
    1023 characters are kept. *)
Definition snprintf_path (s : string) : string := substring 0 1023 s.

(** The text the format ["%s%s%s%s%s.g.dart"] asks for. *)
Definition path_format (dart_path : string) (ls : lcm_struct) : string :=
  let package_dir := dots_to_slashes (package (ls_structname ls)) in
  (dart_path ++ (if nonempty dart_path then "/" else EmptyString)
   ++ package_dir ++ (if nonempty package_dir then "/" else EmptyString)
   ++ shortname (ls_structname ls) ++ ".g.dart")%string.

Definition output_path (dart_path : string) (ls : lcm_struct) : string :=
  snprintf_path (path_format dart_path ls).

(** The loop of [emit_dart] over [lcm->structs]. *)
Fixpoint emit_dart_loop (h : host) (dart_path : string) (make_dirs : bool)
         (todo : list lcm_struct) (d : disk) : Z * disk :=
  match todo with
  | [] => (0, d)
  | ls :: todo' =>
      let path := output_path dart_path ls in
      let d1 :=
        if make_dirs
        then {| written := written d;
                made_dirs := made_dirs d ++ make_dirs_for_file path;
                stderr := stderr d |}
        else d in
      if negb (lcm_needs_generation h (ls_lcmfile ls) path)
      then emit_dart_loop h dart_path make_dirs todo' d1
      else
        let '(status, d2) := emit_struct h ls path d1 in
        if negb (status =? 0) then (status, d2)
        else emit_dart_loop h dart_path make_dirs todo' d2
  end.

(** [setup_dart_options]: the two options the back end registers, at their
    defaults. *)
Definition setup_dart_options : getopt :=
  {| dart_path := EmptyString; dart_mkdir := true |}.

(** The local [dart_path] of [emit_dart]: the option, or [.] when the
    option is empty. *)
Definition destination (options : getopt) : string :=
  if nonempty (dart_path options) then dart_path options else ".".

(** [emit_dart] *)
Definition emit_dart (h : host) (lcm : lcmgen) (d : disk) : Z * disk :=
  let dart_path := destination (gopt lcm) in
  let make_dirs := dart_mkdir (gopt lcm) in
  emit_dart_loop h dart_path make_dirs (structs lcm) d.

End Emit.

(* ================================================================== *)
(** ** The Dart that [emit_struct] prints, as syntax *)

Module Dart.
Import Text Schema.

(** The fixed-width accessors of [LcmBuffer]: [put<w>] and [get<w>]. *)
Inductive wire := Uint8 | Int8 | Int16 | Int32 | Int64 | Float32 | Float64.

Definition wire_name (w : wire) : string :=
  match w with
  | Uint8 => "Uint8" | Int8 => "Int8" | Int16 => "Int16" | Int32 => "Int32"
  | Int64 => "Int64" | Float32 => "Float32" | Float64 => "Float64"
  end.

(** [member[i<k1>][i<k2>]...] *)
Record accessor := {
  base : string;
  indices : list nat
}.

Definition print_accessor (a : accessor) : string :=
  (base a ++ cat (map (fun k => "[i" ++ dec k ++ "]") (indices a)))%string.

(** Statements of an [encode] method. *)
Inductive stmt :=
| PutFingerprint                                  (* buf.putInt64(LCM_FINGERPRINT); *)
| Put (w : wire) (a : accessor)                   (* buf.put<w>(a); *)
| PutBool (a : accessor)                          (* buf.putUint8(a ? 1 : 0); *)
| PutString (a : accessor)                        (* { final bytes = utf8.encode(a); ... } *)
| CallEncode (a : accessor)                       (* a.encode(buf); *)
| For (k : nat) (bound : string) (body : stmt).   (* for (var i<k> = 0; i<k> < bound; i<k>++) { body } *)

Fixpoint print_stmt (indent : nat) (s : stmt) : string :=
  match s with
  | PutFingerprint => emit indent "buf.putInt64(LCM_FINGERPRINT);"
  | Put w a => emit indent ("buf.put" ++ wire_name w ++ "(" ++ print_accessor a ++ ");")
  | PutBool a => emit indent ("buf.putUint8(" ++ print_accessor a ++ " ? 1 : 0);")
  | PutString a =>
      (emit indent "{"
       ++ emit (indent + 1) ("final bytes = utf8.encode(" ++ print_accessor a ++ ");")
       ++ emit (indent + 1) "buf.putUint32(bytes.length + 1);"
       ++ emit (indent + 1) "buf.putUint8List(bytes);"
       ++ emit (indent + 1) "buf.putUint8(0);"
       ++ emit indent "}")%string
  | CallEncode a => emit indent (print_accessor a ++ ".encode(buf);")
  | For k bound body =>
      (emit indent ("for (var i" ++ dec k ++ " = 0; i" ++ dec k ++ " < " ++ bound
                    ++ "; i" ++ dec k ++ "++) {")
       ++ print_stmt (S indent) body
       ++ emit indent "}")%string
  end.

Definition print_encode_method (body : list stmt) : string :=
  (emit 1 "@override"
   ++ emit 1 "void encode(LcmBuffer buf) {"
   ++ cat (map (print_stmt 2) body)
   ++ emit 1 "}"
   ++ nl)%string.

(** Expressions of a [decode] method that read from [buf]. *)
Inductive rexpr :=
| Get (w : wire)                          (* buf.get<w>() *)
| GetBool                                 (* buf.getUint8() != 0 *)
| GetString                               (* () { final len = buf.getUint32(); ... }() *)
| CallDecode (cls : string)               (* cls.decode(buf) *)
| Generate (bound : string) (body : rexpr). (* List.generate(bound, (_) => body) *)

(** The string closure is laid out in two ways: as the whole right-hand
    side of a [final], and inside [List.generate] ([nested]), where the
    line is not broken after the brace and the comment is left out. *)
Fixpoint print_rexpr (nested : bool) (e : rexpr) : string :=
  match e with
  | Get w => ("buf.get" ++ wire_name w ++ "()")%string
  | GetBool => "buf.getUint8() != 0"
  | GetString =>
      ("() {" ++ (if nested then EmptyString else nl)
       ++ emit 3 "final len = buf.getUint32();"
       ++ emit 3 "final bytes = buf.getUint8List(len - 1);"
       ++ emit 3 (if nested then "buf.getUint8();" else "buf.getUint8(); // null terminator")
       ++ emit 3 "return utf8.decode(bytes);"
       ++ emit_start 2 "}()")%string
  | CallDecode cls => (cls ++ ".decode(buf)")%string
  | Generate bound body =>
      ("List.generate(" ++ bound ++ ", (_) => " ++ print_rexpr true body ++ ")")%string
  end.

(** Statements of a [decode] method. *)
Inductive dstmt :=
| ReadFingerprint                         (* final fingerprint = buf.getInt64(); *)
| CheckFingerprint                        (* if (fingerprint != LCM_FINGERPRINT) { throw ...; } *)
| Blank                                   (* an empty line *)
| Final (name : string) (e : rexpr)       (* final name = e; *)
| Return (cls : string) (args : list (string * string)). (* return cls(field: local, ...); *)

Definition print_dstmt (s : dstmt) : string :=
  match s with
  | ReadFingerprint => emit 2 "final fingerprint = buf.getInt64();"
  | CheckFingerprint =>
      (emit 2 "if (fingerprint != LCM_FINGERPRINT) {"
       ++ emit 3 "throw Exception('Invalid fingerprint');"
       ++ emit 2 "}")%string
  | Blank => nl
  | Final name e =>
      (emit_start 2 ("final " ++ name ++ " = ") ++ print_rexpr false e ++ emit_end ";")%string
  | Return cls args =>
      (emit 2 ("return " ++ cls ++ "(")
       ++ cat (map (fun '(field, local) => emit 3 (field ++ ": " ++ local ++ ",")) args)
       ++ emit 2 ");")%string
  end.

Definition print_decode_method (class_name : string) (body : list dstmt) : string :=
  (emit 1 ("static " ++ class_name ++ " decode(LcmBuffer buf) {")
   ++ cat (map print_dstmt body)
   ++ emit 1 "}")%string.

(** *** From the schema to the syntax

    The same decisions as [emit_encode_one], [emit_struct]'s decode chains
    and its loops over the dimensions, with a tree where the emitter has
    text. *)

Definition encode_one (type_name : string) (a : accessor) : stmt :=
  if (type_name =? "byte")%string then Put Uint8 a
  else if (type_name =? "int8_t")%string then Put Int8 a
  else if (type_name =? "int16_t")%string then Put Int16 a
  else if (type_name =? "int32_t")%string then Put Int32 a
  else if (type_name =? "int64_t")%string then Put Int64 a
  else if (type_name =? "float")%string then Put Float32 a
  else if (type_name =? "double")%string then Put Float64 a
  else if (type_name =? "string")%string then PutString a
  else if (type_name =? "boolean")%string then PutBool a
  else CallEncode a.

(** One [for] per dimension around [inner], the dimension [dim] outermost. *)
Fixpoint for_nest (dim : nat) (dims : list lcm_dimension) (inner : stmt) : stmt :=
  match dims with
  | [] => inner
  | ld :: dims' => For dim (size ld) (for_nest (S dim) dims' inner)
  end.

Definition encode_member (lm : lcm_member) : stmt :=
  let dims := lm_dimensions lm in
  for_nest 0 dims
    (encode_one (lctypename (lm_type lm))
       {| base := lm_membername lm; indices := seq 0 (List.length dims) |}).

Definition encode_body (ls : lcm_struct) : list stmt :=
  PutFingerprint :: map encode_member (ls_members ls).

Definition decode_one (type_name : string) : rexpr :=
  if (type_name =? "byte")%string then Get Uint8
  else if (type_name =? "int8_t")%string then Get Int8
  else if (type_name =? "int16_t")%string then Get Int16
  else if (type_name =? "int32_t")%string then Get Int32
  else if (type_name =? "int64_t")%string then Get Int64
  else if (type_name =? "float")%string then Get Float32
  else if (type_name =? "double")%string then Get Float64
  else if (type_name =? "string")%string then GetString
  else if (type_name =? "boolean")%string then GetBool
  else CallDecode (map_type_dart type_name).

(** One [List.generate] per dimension around [inner], the first outermost. *)
Fixpoint generate_nest (dims : list lcm_dimension) (inner : rexpr) : rexpr :=
  match dims with
  | [] => inner
  | ld :: dims' => Generate (size ld) (generate_nest dims' inner)
  end.

Definition decode_member (lm : lcm_member) : dstmt :=
  Final (lm_membername lm)
        (generate_nest (lm_dimensions lm) (decode_one (lctypename (lm_type lm)))).

Definition decode_body (ls : lcm_struct) (class_name : string) : list dstmt :=
  [ReadFingerprint; CheckFingerprint; Blank]
  ++ map decode_member (ls_members ls)
  ++ [Blank;
      Return class_name (map (fun lm => (lm_membername lm, lm_membername lm)) (ls_members ls))].

(** The class [emit_struct] declares for [ls]. *)
Definition class_name_of (ls : lcm_struct) : string :=
  to_pascal_case (shortname (ls_structname ls)).

End Dart.

(* ================================================================== *)
(** ** Running the emitted methods *)

Module Run.
Import Text Schema Dart.

(** Dart values: an [int] (64 bits, signed), a [double] by its IEEE-754
    binary64 image, a [bool], a [String], a [List], an instance of an
    emitted class with its fields in the order they were set. *)
Inductive value :=
| VInt (n : Z)
| VDouble (bits : Z)
| VBool (b : bool)
| VString (s : string)
| VList (l : list value)
| VObject (cls : string) (fields : list (string * value)).

(** What a run can throw.  [TypeMismatch] is the
    [Exception('Invalid fingerprint')] of [decode]; [NoSuchMember] stands
    for code the Dart compiler would have refused (a name that resolves to
    nothing, a value of the wrong type); [OutOfFuel] is the model's own. *)
Inductive failure :=
| RangeError
| TypeMismatch
| FormatException
| NoSuchMember
| OutOfFuel.

(** A run over an [LcmBuffer]: for [encode] the state is the bytes written
    so far, for [decode] the bytes not read yet.  A throw keeps the state it
    happened in. *)
Inductive outcome (A : Type) :=
| Done (a : A) (s : list byte)
| Thrown (e : failure) (s : list byte).
Arguments Done {A} a s.
Arguments Thrown {A} e s.

Definition M (A : Type) : Type := list byte -> outcome A.

Definition ret {A : Type} (a : A) : M A := fun s => Done a s.
Definition throw {A : Type} (e : failure) : M A := fun s => Thrown e s.
Definition bind {A B : Type} (m : M A) (k : A -> M B) : M B :=
  fun s => match m s with
           | Done a s' => k a s'
           | Thrown e s' => Thrown e s'
           end.

Notation "x <- m ;; k" := (bind m (fun x => k))
  (at level 61, m at next level, right associativity).
Notation "m ;;; k" := (bind m (fun _ => k))
  (at level 61, right associativity).

Definition fmap {A B : Type} (f : A -> B) (m : M A) : M B := x <- m ;; ret (f x).

(** *** Fixed-width integers on the wire *)

Definition byte_of_Z (z : Z) : byte :=
  match Byte.of_N (Z.to_N (z mod 256)) with
  | Some b => b
  | None => x00
  end.

Definition Z_of_byte (b : byte) : Z := Z.of_N (Byte.to_N b).

(** The low [8 * width] bits of [z], most significant byte first. *)
Fixpoint big_endian (width : nat) (z : Z) : list byte :=
  match width with
  | O => []
  | S width' => big_endian width' (z / 256) ++ [byte_of_Z z]
  end.

Definition from_big_endian (bs : list byte) : Z :=
  fold_left (fun acc b => acc * 256 + Z_of_byte b) bs 0.

(** An unsigned [8 * width]-bit value read as two's complement. *)
Definition signed (width : nat) (u : Z) : Z :=
  if u <? 2 ^ (8 * Z.of_nat width - 1) then u else u - 2 ^ (8 * Z.of_nat width).

Definition width (w : wire) : nat :=
  match w with
  | Uint8 | Int8 => 1
  | Int16 => 2
  | Int32 | Float32 => 4
  | Int64 | Float64 => 8
  end%nat.

Fixpoint assoc {A : Type} (name : string) (l : list (string * A)) : option A :=
  match l with
  | [] => None
  | (n, a) :: l' => if (n =? name)%string then Some a else assoc name l'
  end.

(** A dimension's size as Dart reads it: a decimal literal, or a name. *)
Definition digit (c : ascii) : option Z :=
  let n := Z.of_nat (nat_of_ascii c) in
  if (48 <=? n) && (n <=? 57) then Some (n - 48) else None.

Fixpoint digits (acc : Z) (s : string) : option Z :=
  match s with
  | EmptyString => Some acc
  | String c s' =>
      match digit c with
      | Some d => digits (acc * 10 + d) s'
      | None => None
      end
  end.

Definition literal (s : string) : option Z :=
  match s with
  | EmptyString => None
  | _ => digits 0 s
  end.

Section Runtime.

(** Outside the repository and taken as they come: the two conversions
    between a [double] and the binary32 image that [putFloat32] writes and
    [getFloat32] reads, and [utf8.encode] and [utf8.decode] of
    [dart:convert] ([None]: the bytes are not UTF-8). *)
Variables float32_of_double double_of_float32 : Z -> Z.
Variable utf8_encode : string -> list byte.
Variable utf8_decode : list byte -> option string.

(** Modelled from the spec: [LcmBuffer] of [package:lcm_dart], which is not
    among the sources.  [put<w>] appends the value's fixed-width image in
    big-endian byte order (section 4.2, and the 00 00 00 2A of section 8);
    [get<w>] takes the next [width w] bytes and fails when fewer are left;
    [putUint8List] appends the bytes as they are and [getUint8List] takes
    that many. *)
Definition write (bs : list byte) : M unit := fun s => Done tt (s ++ bs).

Definition take (n : nat) : M (list byte) :=
  fun s => if (n <=? List.length s)%nat
           then Done (firstn n s) (skipn n s)
           else Thrown RangeError s.

Definition image (w : wire) (v : value) : option (list byte) :=
  match w, v with
  | (Uint8 | Int8 | Int16 | Int32 | Int64), VInt n => Some (big_endian (width w) n)
  | Float32, VDouble bits => Some (big_endian 4 (float32_of_double bits))
  | Float64, VDouble bits => Some (big_endian 8 bits)
  | _, _ => None
  end.

Definition put (w : wire) (v : value) : M unit :=
  match image w v with
  | Some bs => write bs
  | None => throw NoSuchMember
  end.

Definition value_of (w : wire) (bs : list byte) : value :=
  let u := from_big_endian bs in
  match w with
  | Uint8 => VInt u
  | Int8 | Int16 | Int32 | Int64 => VInt (signed (width w) u)
  | Float32 => VDouble (double_of_float32 u)
  | Float64 => VDouble u
  end.

Definition get (w : wire) : M value :=
  bs <- take (width w) ;; ret (value_of w bs).

Definition putUint32 (n : Z) : M unit := write (big_endian 4 n).
Definition getUint32 : M Z := bs <- take 4 ;; ret (from_big_endian bs).
Definition putUint8List (bs : list byte) : M unit := write bs.
Definition getUint8List (n : Z) : M (list byte) :=
  if n <? 0 then throw RangeError else take (Z.to_nat n).

(** The block [emit_encode_one] prints for a string, statement by
    statement. *)
Definition put_string (s : string) : M unit :=
  let bytes := utf8_encode s in
  putUint32 (Z.of_nat (List.length bytes) + 1) ;;;
  putUint8List bytes ;;;
  put Uint8 (VInt 0).

(** The closure the decode chains print for a string. *)
Definition get_string : M value :=
  len <- getUint32 ;;
  bytes <- getUint8List (len - 1) ;;
  get Uint8 ;;;
  match utf8_decode bytes with
  | Some s => ret (VString s)
  | None => throw FormatException
  end.

(** *** Names

    In [decode] a name of the emitted code is the [final] of that name.
    In [encode] it is resolved as Dart does in the body of the method:
    the parameter [buf] and the variables [i<k>] of the loops around the
    place hide a field of [this] of the same name; any other name is the
    field.  [NoSuchMember] is thrown where the name is no value the
    statement can use, which is where the Dart compiler refuses the
    class. *)
Definition member (this : value) (name : string) : option value :=
  match this with
  | VObject _ fields => assoc name fields
  | _ => None
  end.

Fixpoint loop_var (env : list (nat * Z)) (k : nat) : option Z :=
  match env with
  | [] => None
  | (k', i) :: env' => if (k' =? k)%nat then Some i else loop_var env' k
  end.

(** The [k] of a name spelled [i<k>] as the emitter prints a loop
    variable: an [i] and the decimal digits of [printf("%d")]. *)
Definition loop_index (name : string) : option nat :=
  match name with
  | EmptyString => None
  | String c digits =>
      if (c =? "i")%char then
        match NilZero.uint_of_string digits with
        | Some u =>
            let k := Nat.of_uint u in
            if (dec k =? digits)%string then Some k else None
        | None => None
        end
      else None
  end.

(** What a name stands for in the body of [encode], inside the loops whose
    variables are in [env]. *)
Definition scope (this : value) (env : list (nat * Z)) (name : string) : option value :=
  if (name =? "buf")%string then None
  else
    match loop_index name with
    | Some k =>
        match loop_var env k with
        | Some i => Some (VInt i)
        | None => member this name
        end
    | None => member this name
    end.

(** [v[i<k1>][i<k2>]...]: an index outside the list is a [RangeError]. *)
Fixpoint subscript (env : list (nat * Z)) (v : value) (idx : list nat) : M value :=
  match idx with
  | [] => ret v
  | k :: idx' =>
      match v, loop_var env k with
      | VList l, Some i =>
          match (if 0 <=? i then nth_error l (Z.to_nat i) else None) with
          | Some v' => subscript env v' idx'
          | None => throw RangeError
          end
      | _, _ => throw NoSuchMember
      end
  end.

Definition read_accessor (this : value) (env : list (nat * Z)) (a : accessor) : M value :=
  match scope this env (base a) with
  | Some v => subscript env v (indices a)
  | None => throw NoSuchMember
  end.

Definition bound_value (names : string -> option value) (bound : string) : M Z :=
  match literal bound with
  | Some n => ret n
  | None =>
      match names bound with
      | Some (VInt n) => ret n
      | _ => throw NoSuchMember
      end
  end.

(** *** [encode] *)

(** [for (var i = 0; i < n; i++)]: the values [i] takes. *)
Definition upto (n : Z) : list Z := map Z.of_nat (seq 0 (Z.to_nat n)).

Fixpoint for_each {I : Type} (items : list I) (body : I -> M unit) : M unit :=
  match items with
  | [] => ret tt
  | i :: items' => body i ;;; for_each items' body
  end.

Section Exec.

(** The method [encode] of a value one level of nesting down, the class's
    [LCM_FINGERPRINT] and the instance. *)
Variable call_encode : value -> M unit.
Variable LCM_FINGERPRINT : Z.
Variable this : value.

(** The block of a string declares [bytes] before it reads the accessor,
    so an accessor on a member of that name finds the block's own local,
    not yet set.  The test [i<k> < bound] of a loop is made where [i<k>]
    is in scope: a bound that is a literal, a field or the variable of a
    loop further out has the same value at every test, and a bound
    spelled [i<k>] is the loop's own variable, whose first test is
    [0 < 0]; in each case the body runs as often as the bound is worth at
    [i<k> = 0]. *)
Fixpoint exec (env : list (nat * Z)) (s : stmt) : M unit :=
  match s with
  | PutFingerprint => put Int64 (VInt LCM_FINGERPRINT)
  | Put w a => v <- read_accessor this env a ;; put w v
  | PutBool a =>
      v <- read_accessor this env a ;;
      match v with
      | VBool b => put Uint8 (VInt (if b then 1 else 0))
      | _ => throw NoSuchMember
      end
  | PutString a =>
      if (base a =? "bytes")%string then throw NoSuchMember
      else
        v <- read_accessor this env a ;;
        match v with
        | VString s => put_string s
        | _ => throw NoSuchMember
        end
  | CallEncode a => v <- read_accessor this env a ;; call_encode v
  | For k bound body =>
      n <- bound_value (scope this ((k, 0) :: env)) bound ;;
      for_each (upto n) (fun i => exec ((k, i) :: env) body)
  end.

Definition exec_all (body : list stmt) : M unit :=
  for_each body (exec []).

End Exec.

(** The class of the program that Dart finds under the name [cls]. *)
Definition find_class (prog : list lcm_struct) (cls : string) : option lcm_struct :=
  find (fun ls => (class_name_of ls =? cls)%string) prog.

(** The value of [static const int LCM_FINGERPRINT = 0x...]: the sixteen
    digits read back into Dart's 64-bit [int]. *)
Definition LCM_FINGERPRINT_of (ls : lcm_struct) : Z :=
  Int64.wrap (Int64.unsigned (Int64.fingerprint (ls_hash ls))).

(** [obj.encode(buf)], with [fuel] levels of nested instances at most. *)
Fixpoint encode_object (prog : list lcm_struct) (fuel : nat) (obj : value) : M unit :=
  match fuel with
  | O => throw OutOfFuel
  | S fuel' =>
      match obj with
      | VObject cls _ =>
          match find_class prog cls with
          | Some ls =>
              exec_all (encode_object prog fuel') (LCM_FINGERPRINT_of ls) obj (encode_body ls)
          | None => throw NoSuchMember
          end
      | _ => throw NoSuchMember
      end
  end.

(** *** [decode] *)

Fixpoint repeat_read {A : Type} (n : nat) (m : M A) : M (list A) :=
  match n with
  | O => ret []
  | S n' => v <- m ;; vs <- repeat_read n' m ;; ret (v :: vs)
  end.

(** What a statement leaves: the locals for the next one, or the value
    returned. *)
Inductive flow :=
| Next (env : list (string * value))
| Returned (v : value).

Fixpoint collect (env : list (string * value)) (args : list (string * string))
  : option (list (string * value)) :=
  match args with
  | [] => Some []
  | (field, local) :: args' =>
      match assoc local env, collect env args' with
      | Some v, Some fields => Some ((field, v) :: fields)
      | _, _ => None
      end
  end.

Section Eval.

(** The static method [decode] of the class of that name, one level of
    nesting down, and the class's [LCM_FINGERPRINT]. *)
Variable call_decode : string -> M value.
Variable LCM_FINGERPRINT : Z.

(** [List.generate(n, f)] throws on a negative [n] and calls [f] for the
    indices 0, 1, ... in this order. *)
Fixpoint eval (env : list (string * value)) (e : rexpr) : M value :=
  match e with
  | Get w => get w
  | GetBool =>
      v <- get Uint8 ;;
      match v with
      | VInt n => ret (VBool (negb (n =? 0)))
      | _ => throw NoSuchMember
      end
  | GetString => get_string
  | CallDecode cls => call_decode cls
  | Generate bound body =>
      n <- bound_value (fun name => assoc name env) bound ;;
      if n <? 0 then throw RangeError
      else vs <- repeat_read (Z.to_nat n) (eval env body) ;; ret (VList vs)
  end.

Definition step (env : list (string * value)) (s : dstmt) : M flow :=
  match s with
  | ReadFingerprint =>
      v <- get Int64 ;; ret (Next (("fingerprint", v) :: env))
  | CheckFingerprint =>
      match assoc "fingerprint" env with
      | Some (VInt fingerprint) =>
          if fingerprint =? LCM_FINGERPRINT then ret (Next env) else throw TypeMismatch
      | _ => throw NoSuchMember
      end
  | Blank => ret (Next env)
  | Final name e => v <- eval env e ;; ret (Next ((name, v) :: env))
  | Return cls args =>
      match collect env args with
      | Some fields => ret (Returned (VObject cls fields))
      | None => throw NoSuchMember
      end
  end.

Fixpoint run (env : list (string * value)) (body : list dstmt) : M value :=
  match body with
  | [] => throw NoSuchMember
  | s :: body' =>
      f <- step env s ;;
      match f with
      | Next env' => run env' body'
      | Returned v => ret v
      end
  end.

End Eval.

(** [cls.decode(buf)], with [fuel] levels of nested classes at most. *)
Fixpoint decode_class (prog : list lcm_struct) (fuel : nat) (cls : string) : M value :=
  match fuel with
  | O => throw OutOfFuel
  | S fuel' =>
      match find_class prog cls with
      | Some ls =>
          run (decode_class prog fuel') (LCM_FINGERPRINT_of ls) []
              (decode_body ls (class_name_of ls))
      | None => throw NoSuchMember
      end
  end.

End Runtime.

End Run.

(* ================================================================== *)
(** ** What the specification compares the emitter with *)

Module Spec.
Import Text Schema Emit Dart Run.

(** The type names of the nine primitive kinds, as the schema spells
    them. *)
Definition primitive_names : list string :=
  ["int8_t"; "int16_t"; "int32_t"; "int64_t"; "byte"; "float"; "double";
   "boolean"; "string"].

Definition is_primitive (type_name : string) : bool :=
  existsb (String.eqb type_name) primitive_names.

(** PascalCase in the specification's words: the name is cut at its
    underscores, each piece gets a capital first character, and the pieces
    are put together again. *)
Definition capitalize (s : string) : string :=
  match s with
  | EmptyString => EmptyString
  | String c s' => String (toupper c) s'
  end.

Definition pascal_case (s : string) : string :=
  cat (map capitalize (split_on "_"%char s)).

Fixpoint contains (c : ascii) (s : string) : bool :=
  match s with
  | EmptyString => false
  | String c' s' => (c' =? c)%char || contains c s'
  end.

Definition starts_lower (s : string) : bool :=
  match s with
  | EmptyString => false
  | String c _ => is_lower c
  end.

(** [s] ends in [suffix]. *)
Definition ends_with (suffix s : string) : Prop :=
  exists front : string, s = (front ++ suffix)%string.

(** The rotation of a 64-bit word by one bit to the left, as section 4.2
    writes it. *)
Definition rotl1 (h : Z) : Z :=
  Z.lor (Z.shiftl h 1) (Z.land (Z.shiftr h 63) 1) mod 2 ^ 64.

(** Row-major order of the index tuples of an array with the sizes [ns]:
    the first index varies slowest. *)
Fixpoint row_major (ns : list Z) : list (list Z) :=
  match ns with
  | [] => [[]]
  | n :: ns' => flat_map (fun i => map (cons i) (row_major ns')) (upto n)
  end.

(** The loop variables [i<dim>], [i<dim+1>], ... set to the tuple [idx]. *)
Fixpoint index_env (dim : nat) (idx : list Z) (env : list (nat * Z)) : list (nat * Z) :=
  match idx with
  | [] => env
  | i :: idx' => index_env (S dim) idx' ((dim, i) :: env)
  end.

(** The element [v[idx_0][idx_1]...]. *)
Fixpoint index_path (v : value) (idx : list Z) : M value :=
  match idx with
  | [] => ret v
  | i :: idx' =>
      match v with
      | VList l =>
          match (if 0 <=? i then nth_error l (Z.to_nat i) else None) with
          | Some v' => index_path v' idx'
          | None => throw RangeError
          end
      | _ => throw NoSuchMember
      end
  end.

(** The elements of a list nested [depth] deep, in row-major order. *)
Fixpoint flatten (depth : nat) (v : value) : list value :=
  match depth with
  | O => [v]
  | S depth' =>
      match v with
      | VList l => flat_map (flatten depth') l
      | _ => []
      end
  end.

Definition product (ns : list Z) : nat :=
  fold_right (fun n acc => (Z.to_nat n * acc)%nat) 1%nat ns.

(** The outcome [o] of a run that started on the empty buffer, had it
    started after [s]. *)
Definition after {A : Type} (s : list byte) (o : outcome A) : outcome A :=
  match o with
  | Done a out => Done a (s ++ out)
  | Thrown e out => Thrown e (s ++ out)
  end.

(** A run that only adds to the buffer: started after [s], it does what
    it does on the empty buffer, behind [s]. *)
Definition appends {A : Type} (m : M A) : Prop :=
  forall s, m s = after s (m []).

Section Runtime.
Variable double_of_float32 : Z -> Z.
Variable utf8_decode : list byte -> option string.
Variable call_decode : string -> M value.

(** Section 4.4 on [decode], after the fingerprint: each member in declared
    order, a variable dimension consulting the members decoded before it;
    the fields come out in declared order, and only if every member did. *)
Fixpoint read_members (env : list (string * value)) (members : list lcm_member)
  : M (list (string * value)) :=
  match members with
  | [] => ret []
  | lm :: members' =>
      v <- eval double_of_float32 utf8_decode call_decode env
             (generate_nest (lm_dimensions lm) (decode_one (lctypename (lm_type lm)))) ;;
      fields <- read_members ((lm_membername lm, v) :: env) members' ;;
      ret ((lm_membername lm, v) :: fields)
  end.

End Runtime.

End Spec.

(* ================================================================== *)
(** ** Worked schemas *)

Module Examples.
Import Text Schema Emit Dart Run.

(** The worked schemas hold no [float], and their strings are 7-bit text,
    of which UTF-8 is the bytes themselves. *)
Definition no_float (bits : Z) : Z := bits.
Definition ascii_encode (s : string) : list byte := list_byte_of_string s.
Definition ascii_decode (bs : list byte) : option string := Some (string_of_list_byte bs).

Definition plain (name : string) : lcm_typename :=
  {| lctypename := name; package := EmptyString; shortname := name |}.

Definition scalar (type_name name : string) : lcm_member :=
  {| lm_type := plain type_name; lm_membername := name;
     lm_dimensions := []; lm_comment := None |}.

Definition array (type_name name : string) (dims : list lcm_dimension) : lcm_member :=
  {| lm_type := plain type_name; lm_membername := name;
     lm_dimensions := dims; lm_comment := None |}.

Definition const_dim (n : string) : lcm_dimension := {| mode := LCM_CONST; size := n |}.
Definition var_dim (n : string) : lcm_dimension := {| mode := LCM_VAR; size := n |}.

Definition struct (name : string) (hash : Z) (members : list lcm_member) : lcm_struct :=
  {| ls_structname := plain name; ls_members := members; ls_constants := [];
     ls_lcmfile := (name ++ ".lcm")%string; ls_hash := hash; ls_comment := None |}.

(** [struct Inner { int8_t v; }] and [struct Outer { Inner inner; }] *)
Definition Inner : lcm_struct := struct "Inner" 0x1234 [scalar "int8_t" "v"].
Definition Outer : lcm_struct := struct "Outer" (-2) [scalar "Inner" "inner"].
Definition outer_5 : value :=
  VObject "Outer" [("inner", VObject "Inner" [("v", VInt 5)])].

(** [struct Grid { int8_t a[2][3]; }] *)
Definition grid_a : lcm_member := array "int8_t" "a" [const_dim "2"; const_dim "3"].
Definition Grid : lcm_struct := struct "Grid" 1 [grid_a].
Definition grid_1_6 : value :=
  VObject "Grid"
    [("a", VList [VList [VInt 1; VInt 2; VInt 3]; VList [VInt 4; VInt 5; VInt 6]])].

(** [struct Samples { int32_t n; int32_t data[n]; }] *)
Definition samples_n : lcm_member := scalar "int32_t" "n".
Definition samples_data : lcm_member := array "int32_t" "data" [var_dim "n"].
Definition Samples : lcm_struct := struct "Samples" 2 [samples_n; samples_data].
Definition samples_3 : value :=
  VObject "Samples" [("n", VInt 3); ("data", VList [VInt 10; VInt 20; VInt 30])].

(** [struct Note { string text; }] *)
Definition Note : lcm_struct := struct "Note" 3 [scalar "string" "text"].
Definition note_hi : value := VObject "Note" [("text", VString "hi")].

(** [struct Answer { int32_t x; }] *)
Definition Answer : lcm_struct := struct "Answer" 4 [scalar "int32_t" "x"].

(** [struct Triple { int8_t a[3]; }] *)
Definition triple_a : lcm_member := array "int8_t" "a" [const_dim "3"].
Definition Triple : lcm_struct := struct "Triple" 6 [triple_a].
Definition triple_1_3 : value :=
  VObject "Triple" [("a", VList [VInt 1; VInt 2; VInt 3])].

(** [struct Hidden { int32_t i0; int32_t data[i0]; }]: the counter has the
    name of the variable of the first loop. *)
Definition hidden_i0 : lcm_member := scalar "int32_t" "i0".
Definition hidden_data : lcm_member := array "int32_t" "data" [var_dim "i0"].
Definition Hidden : lcm_struct := struct "Hidden" 7 [hidden_i0; hidden_data].
Definition hidden_3 : value :=
  VObject "Hidden" [("i0", VInt 3); ("data", VList [VInt 10; VInt 20; VInt 30])].

(** [struct vector3f_t { double x; }] in a package. *)
Definition vector3f_t : lcm_struct :=
  {| ls_structname := {| lctypename := "geom.vector3f_t"; package := "geom";
                         shortname := "vector3f_t" |};
     ls_members := [scalar "double" "x"]; ls_constants := [];
     ls_lcmfile := "geom.lcm"; ls_hash := 5; ls_comment := None |}.

(** A destination directory of 1100 characters. *)
Fixpoint copies (n : nat) (c : ascii) : string :=
  match n with
  | O => EmptyString
  | S n' => String c (copies n' c)
  end.
Definition long_dir : string := copies 1100 "d"%char.

(** A host on which every file opens and prints, one on which no printing
    succeeds, and one on which [Outer.g.dart] does not open. *)
Definition good_host : host :=
  {| fopen_ok := fun _ => true; fprintf_ok := fun _ => true;
     lcm_needs_generation := fun _ _ => true |}.
Definition full_disk_host : host :=
  {| fopen_ok := fun _ => true; fprintf_ok := fun _ => false;
     lcm_needs_generation := fun _ _ => true |}.
Definition read_only_host : host :=
  {| fopen_ok := fun path => negb (path =? "./Outer.g.dart")%string;
     fprintf_ok := fun _ => true;
     lcm_needs_generation := fun _ _ => true |}.

Definition run_of (todo : list lcm_struct) : lcmgen :=
  {| gopt := setup_dart_options; structs := todo |}.

End Examples.
(* ================================================================== *)
(** ** Notions the further properties are stated with *)

From Stdlib Require Import Sorted.

Module Notions.
Import Text Schema Emit Dart Run Spec.

(** How often [c] stands in [s]. *)
Fixpoint count_char (c : ascii) (s : string) : nat :=
  match s with
  | EmptyString => O
  | String c' s' => ((if (c' =? c)%char then 1 else 0) + count_char c s')%nat
  end.

(** The pieces with [sep] between them. *)
Fixpoint join (sep : ascii) (pieces : list string) : string :=
  match pieces with
  | [] => EmptyString
  | [piece] => piece
  | piece :: pieces' => (piece ++ String sep (join sep pieces'))%string
  end.

(** Every directory of a path: what stands before each of its slashes,
    [pre] being what was read already. *)
Fixpoint slash_prefixes (pre rest : string) : list string :=
  match rest with
  | EmptyString => []
  | String c rest' =>
      let pre' := (pre ++ String c EmptyString)%string in
      if (c =? "/")%char then pre :: slash_prefixes pre' rest'
      else slash_prefixes pre' rest'
  end.

(** No slash is followed by a slash. *)
Fixpoint no_double_slash (s : string) : bool :=
  match s with
  | EmptyString => true
  | String c s' =>
      match s' with
      | EmptyString => true
      | String c' _ => negb ((c =? "/")%char && (c' =? "/")%char) && no_double_slash s'
      end
  end.

(** The number a string of hexadecimal digits writes, as Dart reads the
    digits of [0x...]. *)
Definition hex_digit_value (c : ascii) : option Z :=
  let n := Z.of_nat (nat_of_ascii c) in
  if (48 <=? n) && (n <=? 57) then Some (n - 48)
  else if (97 <=? n) && (n <=? 102) then Some (n - 87)
  else if (65 <=? n) && (n <=? 70) then Some (n - 55)
  else None.

Fixpoint hex_value_from (acc : Z) (s : string) : option Z :=
  match s with
  | EmptyString => Some acc
  | String c s' =>
      match hex_digit_value c with
      | Some d => hex_value_from (acc * 16 + d) s'
      | None => None
      end
  end.

Definition hex_value (s : string) : option Z := hex_value_from 0 s.

(** A name in a Dart type: not empty, and free of angle brackets (every
    Dart identifier is one). *)
Definition type_name_like (s : string) : Prop :=
  s <> EmptyString /\ contains "<"%char s = false /\ contains ">"%char s = false.

(** A Dart type as a field declaration may write it: a name, or a name
    with one type argument in angle brackets. *)
Inductive dart_type : string -> Prop :=
| dart_type_name (name : string) :
    type_name_like name -> dart_type name
| dart_type_generic (name arg : string) :
    type_name_like name -> dart_type arg ->
    dart_type (name ++ "<" ++ arg ++ ">").

(** [n] times [piece]. *)
Fixpoint times (n : nat) (piece : string) : string :=
  match n with
  | O => EmptyString
  | S n' => (piece ++ times n' piece)%string
  end.

(** The type [emit_struct] declares a member's field with. *)
Definition declared_type (lm : lcm_member) : string :=
  match lm_dimensions lm with
  | [] => map_type_dart (lctypename (lm_type lm))
  | dims =>
      ("List" ++ times (List.length dims) "<"
       ++ map_type_dart (lctypename (lm_type lm))
       ++ times (List.length dims) ">")%string
  end.

(** [depth] times [List<...>] around [element]: the type of the value the
    decode method builds for an array of that many dimensions. *)
Fixpoint list_of (depth : nat) (element : string) : string :=
  match depth with
  | O => element
  | S depth' => ("List<" ++ list_of depth' element ++ ">")%string
  end.

(** The file [emit_dart] leaves for a struct, and whether the struct is
    due. *)
Definition file_of (h : host) (dart_path : string) (ls : lcm_struct) : string * string :=
  let path := output_path dart_path ls in
  (path, if fprintf_ok h path then emit_struct_text ls else EmptyString).

Definition due (h : host) (dart_path : string) (ls : lcm_struct) : bool :=
  lcm_needs_generation h (ls_lcmfile ls) (output_path dart_path ls).

Definition opens (h : host) (dart_path : string) (ls : lcm_struct) : Prop :=
  due h dart_path ls = true -> fopen_ok h (output_path dart_path ls) = true.

(** The file at [path] after the run, as far as the run has written it:
    the text of the latest [fopen] of that path. *)
Definition file_at (path : string) (d : disk) : option string :=
  assoc path (written d).

(** The last struct of [todo] whose file is at [path]. *)
Definition last_at (dart_path : string) (path : string) (todo : list lcm_struct)
  : option lcm_struct :=
  find (fun ls => (output_path dart_path ls =? path)%string) (rev todo).

(** *** Values an emitted class carries

    What a field has to hold for [encode] to write it whole: read off the
    accessors [emit_encode_one] picks for the type. *)

(** The size of a dimension on an instance whose fields [earlier] stand
    before the array: the literal, or the [int] under that name. *)
Definition size_of (earlier : list (string * value)) (ld : lcm_dimension) : option Z :=
  match literal (size ld) with
  | Some n => Some n
  | None =>
      match assoc (size ld) earlier with
      | Some (VInt n) => Some n
      | _ => None
      end
  end.

(** A member's name that no local of the emitted methods hides or
    collides with: not [buf], [bytes] or [fingerprint], and no [i<k>]. *)
Definition free_name (name : string) : bool :=
  negb (name =? "buf")%string && negb (name =? "bytes")%string
  && negb (name =? "fingerprint")%string
  && match loop_index name with
     | Some _ => false
     | None => true
     end.

(** Lists nested as deep as [ns] is long, of the lengths [ns], with
    [leaf] at the elements. *)
Fixpoint shaped (leaf : value -> Prop) (ns : list Z) (v : value) : Prop :=
  match ns with
  | [] => leaf v
  | n :: ns' =>
      exists l, v = VList l /\ Z.of_nat (List.length l) = n /\ Forall (shaped leaf ns') l
  end.

(** The same, with the bytes of the elements one after the other. *)
Fixpoint laid_out (leaf : value -> list byte -> Prop) (ns : list Z)
         (v : value) (bytes : list byte) : Prop :=
  match ns with
  | [] => leaf v bytes
  | n :: ns' =>
      exists l chunks,
        v = VList l /\ Z.of_nat (List.length l) = n
        /\ Forall2 (laid_out leaf ns') l chunks
        /\ bytes = List.concat chunks
  end.

Section Runtime.
Variables float32_of_double double_of_float32 : Z -> Z.
Variable utf8_encode : string -> list byte.
Variable utf8_decode : list byte -> option string.

(** A value of a primitive type that its accessor carries whole: an [int]
    within the accessor's range, a [double] (for [float], one that is a
    binary32 number), a [bool], a [String] that UTF-8 carries and whose
    length with the terminator fits 32 bits. *)
Definition fits (type_name : string) (v : value) : Prop :=
  if (type_name =? "byte")%string then exists n, v = VInt n /\ 0 <= n < 2 ^ 8
  else if (type_name =? "int8_t")%string then exists n, v = VInt n /\ - 2 ^ 7 <= n < 2 ^ 7
  else if (type_name =? "int16_t")%string then exists n, v = VInt n /\ - 2 ^ 15 <= n < 2 ^ 15
  else if (type_name =? "int32_t")%string then exists n, v = VInt n /\ - 2 ^ 31 <= n < 2 ^ 31
  else if (type_name =? "int64_t")%string then exists n, v = VInt n /\ - 2 ^ 63 <= n < 2 ^ 63
  else if (type_name =? "float")%string then
    exists bits, v = VDouble bits
                 /\ double_of_float32 (float32_of_double bits mod 2 ^ 32) = bits
  else if (type_name =? "double")%string then exists bits, v = VDouble bits /\ 0 <= bits < 2 ^ 64
  else if (type_name =? "string")%string then
    exists s, v = VString s
              /\ utf8_decode (utf8_encode s) = Some s
              /\ Z.of_nat (List.length (utf8_encode s)) + 1 < 2 ^ 32
  else if (type_name =? "boolean")%string then exists b, v = VBool b
  else False.

Definition leaf_ok (struct_ok : string -> value -> Prop) (type_name : string) (v : value)
  : Prop :=
  if is_primitive type_name then fits type_name v else struct_ok type_name v.

(** The fields of an instance, member by member in declared order: each
    under its member's name, which is free, an array of the sizes its
    dimensions have on the fields before it. *)
Fixpoint members_ok (struct_ok : string -> value -> Prop)
         (earlier : list (string * value)) (members : list lcm_member)
         (fields : list (string * value)) : Prop :=
  match members, fields with
  | [], [] => True
  | lm :: members', (name, v) :: fields' =>
      name = lm_membername lm
      /\ free_name name = true
      /\ (exists ns,
             Forall2 (fun ld n => size_of earlier ld = Some n /\ 0 <= n)
                     (lm_dimensions lm) ns
             /\ shaped (leaf_ok struct_ok (lctypename (lm_type lm))) ns v)
      /\ members_ok struct_ok ((name, v) :: earlier) members' fields'
  | _, _ => False
  end.

(** An instance of the class [cls] of the program, with instances nested
    less than [depth] deep. *)
Fixpoint conforms (prog : list lcm_struct) (depth : nat) (cls : string) (v : value) : Prop :=
  match depth with
  | O => False
  | S depth' =>
      exists ls fields,
        find_class prog cls = Some ls
        /\ v = VObject cls fields
        /\ NoDup (map lm_membername (ls_members ls))
        /\ members_ok (conforms prog depth') [] (ls_members ls) fields
  end.

(** [bytes] are what the element statement of [type_name] writes for [v],
    wherever the accessor finds [v], and what the element expression reads
    [v] from. *)
Definition carried (call_encode : value -> M unit) (call_decode : string -> M value)
           (type_name : string) (v : value) (bytes : list byte) : Prop :=
  (forall fp this env a s,
      (base a =? "bytes")%string = false ->
      (forall s', read_accessor this env a s' = Done v s') ->
      exec float32_of_double utf8_encode call_encode fp this env (encode_one type_name a) s
      = Done tt (s ++ bytes))
  /\ (forall locals rest,
         eval double_of_float32 utf8_decode call_decode locals (decode_one type_name)
              (bytes ++ rest)
         = Done v rest).

End Runtime.

(** *** Sizes on the wire *)

(** The bytes of one element, for the types whose accessor writes a fixed
    number. *)
Definition fixed_width (type_name : string) : option nat :=
  if (type_name =? "byte")%string then Some 1%nat
  else if (type_name =? "int8_t")%string then Some 1%nat
  else if (type_name =? "int16_t")%string then Some 2%nat
  else if (type_name =? "int32_t")%string then Some 4%nat
  else if (type_name =? "int64_t")%string then Some 8%nat
  else if (type_name =? "float")%string then Some 4%nat
  else if (type_name =? "double")%string then Some 8%nat
  else if (type_name =? "string")%string then None
  else if (type_name =? "boolean")%string then Some 1%nat
  else None.

(** The sizes of dimensions that are all literals. *)
Fixpoint literal_sizes (dims : list lcm_dimension) : option (list Z) :=
  match dims with
  | [] => Some []
  | ld :: dims' =>
      match literal (size ld), literal_sizes dims' with
      | Some n, Some ns => Some (n :: ns)
      | _, _ => None
      end
  end.

Definition member_size (lm : lcm_member) : option nat :=
  match fixed_width (lctypename (lm_type lm)), literal_sizes (lm_dimensions lm) with
  | Some w, Some ns => Some (w * product ns)%nat
  | _, _ => None
  end.

Fixpoint members_size (members : list lcm_member) : option nat :=
  match members with
  | [] => Some 0%nat
  | lm :: members' =>
      match member_size lm, members_size members' with
      | Some a, Some b => Some (a + b)%nat
      | _, _ => None
      end
  end.

(** The length of every message of a struct whose members are of
    fixed-width types with literal dimensions: the fingerprint and the
    members. *)
Definition message_size (ls : lcm_struct) : option nat :=
  match members_size (ls_members ls) with
  | Some n => Some (8 + n)%nat
  | None => None
  end.

(** *** Brackets *)

(** How deep the text [s] ends in pairs of [opener] and [closer] when read
    from the depth [d]; [None] when a closer comes with nothing open. *)
Fixpoint nesting (opener closer : ascii) (d : nat) (s : string) : option nat :=
  match s with
  | EmptyString => Some d
  | String c s' =>
      if (c =? opener)%char then nesting opener closer (S d) s'
      else if (c =? closer)%char then
        match d with
        | O => None
        | S d' => nesting opener closer d' s'
        end
      else nesting opener closer d s'
  end.

Definition brackets : list ascii := ["{"; "}"; "("; ")"]%char.

(** A text of the schema with no brace and no parenthesis in it. *)
Definition plain (s : string) : bool :=
  forallb (fun c => negb (contains c s)) brackets.

Definition plain_comment (comment : option string) : bool :=
  match comment with
  | None => true
  | Some c => plain c
  end.

Definition plain_member (lm : lcm_member) : bool :=
  plain (lctypename (lm_type lm)) && plain (lm_membername lm)
  && forallb (fun ld => plain (size ld)) (lm_dimensions lm)
  && plain_comment (lm_comment lm).

Definition plain_constant (lc : lcm_constant) : bool :=
  plain (lc_lctypename lc) && plain (lc_membername lc) && plain (lc_val_str lc)
  && plain_comment (lc_comment lc).

Definition plain_struct (ls : lcm_struct) : bool :=
  plain (shortname (ls_structname ls))
  && forallb plain_member (ls_members ls)
  && forallb plain_constant (ls_constants ls)
  && plain_comment (ls_comment ls).

(** The two pairs the emitter prints. *)
Definition pairs : list (ascii * ascii) := [("{", "}"); ("(", ")")]%char.

(** A text that leaves the depth as it found it, whatever the depth. *)
Definition level (opener closer : ascii) (s : string) : Prop :=
  forall d, nesting opener closer d s = Some d.

End Notions.
(* ================================================================== *)
(** ** The emitter's text is the printed syntax *)

Module PrintFacts.
Import Text Schema Emit Dart.

Lemma append_assoc (a b c : string) : ((a ++ b) ++ c = a ++ (b ++ c))%string.
Proof. induction a as [|x a IH]; simpl; [reflexivity | now rewrite IH]. Qed.

Lemma append_nil_r (a : string) : (a ++ EmptyString = a)%string.
Proof. induction a as [|x a IH]; simpl; [reflexivity | now rewrite IH]. Qed.

Lemma cat_app (l1 l2 : list string) : cat (l1 ++ l2) = (cat l1 ++ cat l2)%string.
Proof.
  induction l1 as [|x l1 IH]; simpl; [reflexivity|].
  now rewrite IH, append_assoc.
Qed.

Lemma print_encode_one (type_name : string) (a : accessor) (indent : nat) :
  print_stmt indent (encode_one type_name a)
  = emit_encode_one type_name (print_accessor a) indent.
Proof.
  unfold encode_one, emit_encode_one.
  repeat match goal with
         | |- context [if ?b then _ else _] => destruct b
         end; reflexivity.
Qed.

Lemma print_for_nest (dims : list lcm_dimension) (dim : nat) (inner : stmt) :
  print_stmt (2 + dim) (for_nest dim dims inner)
  = (cat (map (fun '(k, ld) => emit_for_open k ld) (combine (seq dim (List.length dims)) dims))
     ++ print_stmt (2 + dim + List.length dims) inner
     ++ cat (map (fun k => emit (2 + dim + List.length dims - 1 - k) "}")
                 (seq 0 (List.length dims))))%string.
Proof.
  revert dim; induction dims as [|ld dims IH]; intros dim.
  - simpl. rewrite append_nil_r. f_equal. 
    replace (dim + 0)%nat with dim by lia. reflexivity.
  - cbn [for_nest print_stmt List.length].
    replace (S (2 + dim)) with (2 + S dim)%nat by lia.
    rewrite (IH (S dim)).
    change (seq dim (S (List.length dims))) with (dim :: seq (S dim) (List.length dims)).
    cbn [combine map cat].
    unfold emit_for_open at 2.
    rewrite !append_assoc. f_equal. f_equal.
    replace (2 + S dim + List.length dims)%nat with (2 + dim + S (List.length dims))%nat by lia.
    f_equal.
    rewrite (seq_S (List.length dims) 0), map_app, cat_app. cbn [map cat].
    rewrite append_nil_r.
    replace (2 + dim + S (List.length dims) - 1 - (0 + List.length dims))%nat with (2 + dim)%nat by lia.
    reflexivity.
Qed.

Lemma print_accessor_array (lm : lcm_member) :
  print_accessor {| base := lm_membername lm;
                    indices := seq 0 (List.length (lm_dimensions lm)) |}
  = array_accessor lm.
Proof. reflexivity. Qed.

Lemma print_encode_member (lm : lcm_member) :
  print_stmt 2 (encode_member lm) = emit_encode_member lm.
Proof.
  unfold encode_member, emit_encode_member.
  destruct (lm_dimensions lm) as [|ld dims] eqn:E.
  - cbn [for_nest List.length seq]. rewrite print_encode_one.
    unfold print_accessor. cbn [base indices map cat]. now rewrite append_nil_r.
  - change 2%nat with (2 + 0)%nat at 1.
    rewrite print_for_nest, print_encode_one.
    unfold indexed. rewrite <- E. reflexivity.
Qed.

Lemma print_encode_body (ls : lcm_struct) :
  print_encode_method (encode_body ls) = emit_encode_method ls.
Proof.
  unfold print_encode_method, encode_body, emit_encode_method.
  cbn [map cat print_stmt]. rewrite map_map.
  rewrite (map_ext _ _ print_encode_member).
  now rewrite !append_assoc.
Qed.

Lemma print_decode_one_scalar (type_name : string) :
  (print_rexpr false (decode_one type_name) ++ emit_end ";")%string
  = emit_decode_scalar type_name.
Proof.
  unfold decode_one, emit_decode_scalar.
  repeat match goal with
         | |- context [if ?b then _ else _] => destruct b
         end; try reflexivity.
  unfold emit_end. cbn [print_rexpr]. now rewrite !append_assoc.
Qed.

Lemma print_decode_one_element (type_name : string) :
  print_rexpr true (decode_one type_name) = emit_decode_element type_name.
Proof.
  unfold decode_one, emit_decode_element.
  repeat match goal with
         | |- context [if ?b then _ else _] => destruct b
         end; reflexivity.
Qed.

Lemma cat_repeat_comm {A : Type} (piece : string) (l : list A) :
  (cat (map (fun _ => piece) l) ++ piece = piece ++ cat (map (fun _ => piece) l))%string.
Proof.
  induction l as [|x l IH]; cbn [map cat].
  - now rewrite append_nil_r.
  - now rewrite append_assoc, IH.
Qed.

Lemma print_generate_nest (dims : list lcm_dimension) (inner : rexpr) :
  print_rexpr true (generate_nest dims inner)
  = (cat (map (fun ld => emit_continue ("List.generate(" ++ size ld ++ ", (_) => ")) dims)
     ++ print_rexpr true inner
     ++ cat (map (fun _ => emit_continue ")") dims))%string.
Proof.
  induction dims as [|ld dims IH]; cbn [generate_nest map cat print_rexpr].
  - now rewrite append_nil_r.
  - rewrite IH. unfold emit_continue. rewrite !append_assoc.
    now rewrite cat_repeat_comm.
Qed.

Lemma print_decode_member (lm : lcm_member) :
  print_dstmt (decode_member lm) = emit_decode_member lm.
Proof.
  unfold decode_member, emit_decode_member, print_dstmt.
  destruct (lm_dimensions lm) as [|first_dim more].
  - cbn [generate_nest]. now rewrite print_decode_one_scalar.
  - cbn [generate_nest print_rexpr].
    rewrite print_generate_nest, print_decode_one_element.
    unfold emit_continue. cbn [map cat]. rewrite !append_assoc.
    rewrite <- (append_assoc (cat (map (fun _ => ")") more)) ")" (emit_end ";")).
    now rewrite cat_repeat_comm, append_assoc.
Qed.

Lemma print_decode_body (ls : lcm_struct) (class_name : string) :
  print_decode_method class_name (decode_body ls class_name)
  = emit_decode_method ls class_name.
Proof.
  unfold print_decode_method, decode_body, emit_decode_method.
  rewrite !map_app, !cat_app, !map_map.
  rewrite (map_ext _ _ print_decode_member).
  cbn [map cat print_dstmt]. rewrite map_map.
  now rewrite !append_assoc, ?append_nil_r.
Qed.
End PrintFacts.

(* ================================================================== *)
(** ** The emitter's text *)

Module EmitFacts.
Import Text Schema Emit Dart Spec Examples PrintFacts.

(** *** Strings *)

Lemma contains_append (c : ascii) (a b : string) :
  contains c (a ++ b) = contains c a || contains c b.
Proof.
  induction a as [|x a IH]; simpl; [reflexivity|].
  now rewrite IH, orb_assoc.
Qed.

Lemma substring_all (n : nat) (s : string) :
  (String.length s <= n)%nat -> substring 0 n s = s.
Proof.
  revert n; induction s as [|c s IH]; intros [|n] H; simpl in *; try reflexivity; try lia.
  f_equal. apply IH. lia.
Qed.

(** *** The type names *)

Lemma not_primitive (type_name : string) :
  is_primitive type_name = false ->
  (type_name =? "int8_t")%string = false /\ (type_name =? "int16_t")%string = false /\
  (type_name =? "int32_t")%string = false /\ (type_name =? "int64_t")%string = false /\
  (type_name =? "byte")%string = false /\ (type_name =? "float")%string = false /\
  (type_name =? "double")%string = false /\ (type_name =? "boolean")%string = false /\
  (type_name =? "string")%string = false.
Proof.
  unfold is_primitive, primitive_names. cbn [existsb].
  rewrite !orb_false_iff. tauto.
Qed.

Ltac struct_reference type_name H :=
  apply not_primitive in H;
  destruct H as (H1 & H2 & H3 & H4 & H5 & H6 & H7 & H8 & H9);
  repeat split; intros;
  unfold emit_encode_one, emit_decode_one, emit_decode_scalar,
         emit_decode_element, encode_one, decode_one;
  unfold map_type_dart;
  rewrite ?(String.eqb_sym _ type_name), ?H1, ?H2, ?H3, ?H4, ?H5, ?H6, ?H7, ?H8, ?H9;
  try reflexivity.

Lemma map_type_dart_other (type_name : string) :
  is_primitive type_name = false -> map_type_dart type_name = type_name.
Proof. intros H. struct_reference type_name H. Qed.

(** *** 64-bit arithmetic *)

Lemma unsigned_wrap (z : Z) : Int64.unsigned (Int64.wrap z) = z mod 2 ^ 64.
Proof.
  unfold Int64.unsigned, Int64.wrap.
  rewrite Zminus_mod_idemp_l. f_equal. lia.
Qed.

Lemma wrap_unsigned_wrap (z : Z) : Int64.wrap (Int64.unsigned (Int64.wrap z)) = Int64.wrap z.
Proof.
  rewrite unsigned_wrap. unfold Int64.wrap.
  rewrite Zplus_mod_idemp_l. reflexivity.
Qed.

Lemma wrap_in_range (z : Z) : Int64.in_range (Int64.wrap z).
Proof.
  unfold Int64.in_range, Int64.wrap.
  pose proof (Z.mod_pos_bound (z + 2 ^ 63) (2 ^ 64) ltac:(lia)). lia.
Qed.

Lemma sign_bit_apart (h : Z) :
  Z.land (Z.shiftl h 1) (Z.land (Z.shiftr h 63) 1) = 0.
Proof.
  rewrite (Z.land_comm (Z.shiftr h 63) 1), Z.land_assoc.
  change 1 with (Z.ones 1) at 2.
  rewrite Z.land_ones by lia.
  rewrite Z.shiftl_mul_pow2 by lia.
  rewrite Z.mod_mul by lia. apply Z.land_0_l.
Qed.

Lemma lor_sign_bit (h : Z) :
  Z.lor (Z.shiftl h 1) (Z.land (Z.shiftr h 63) 1)
  = Z.shiftl h 1 + Z.land (Z.shiftr h 63) 1.
Proof. rewrite <- Z.add_lor_land, sign_bit_apart. lia. Qed.

Lemma fingerprint_unsigned (h : Z) :
  Int64.unsigned (Int64.fingerprint h) = rotl1 h.
Proof.
  unfold Int64.fingerprint, rotl1.
  rewrite unsigned_wrap.
  rewrite <- Zplus_mod_idemp_l.
  fold (Int64.unsigned (Int64.wrap (Z.shiftl h 1))).
  rewrite unsigned_wrap, Zplus_mod_idemp_l.
  now rewrite lor_sign_bit.
Qed.

Lemma sign_bit (h : Z) :
  Int64.in_range h ->
  Z.land (Z.shiftr h 63) 1 = Int64.unsigned h / 2 ^ 63.
Proof.
  unfold Int64.in_range, Int64.unsigned. intros Hr.
  rewrite Z.shiftr_div_pow2 by lia.
  destruct (Z.ltb_spec h 0).
  - replace (h / 2 ^ 63) with (-1) by (apply Z.div_unique_pos with (r := h + 2 ^ 63); lia).
    replace (h mod 2 ^ 64) with (h + 2 ^ 64)
      by (apply Z.mod_unique_pos with (q := -1); lia).
    change (Z.land (-1) 1) with 1.
    apply Z.div_unique_pos with (r := h + 2 ^ 63); lia.
  - rewrite (Z.div_small h) by lia.
    rewrite Z.mod_small by lia. rewrite Z.div_small by lia. reflexivity.
Qed.

(** C7.  The constant [emit_struct] prints is the hash rotated left by one
    bit, [((h << 1) | ((h >> 63) & 1))] modulo 2^64: twice the 64-bit word
    without its top bit, plus that top bit in the low place.  The text
    depends on nothing but the hash. *)
Theorem fingerprint_is_rotation (h : Z) (Hrange : Int64.in_range h) :
  Int64.unsigned (Int64.fingerprint h) = rotl1 h
  /\ rotl1 h = (2 * Int64.unsigned h) mod 2 ^ 64 + Int64.unsigned h / 2 ^ 63
  /\ (forall ls : lcm_struct,
        ls_hash ls = h ->
        emit_fingerprint_constant ls
        = (emit 1 ("static const int LCM_FINGERPRINT = 0x"
                   ++ Int64.hex_digits 16 (rotl1 h) ++ ";") ++ nl)%string)
  /\ (forall ls1 ls2 : lcm_struct,
        ls_hash ls1 = ls_hash ls2 ->
        emit_fingerprint_constant ls1 = emit_fingerprint_constant ls2).
Proof.
  split; [apply fingerprint_unsigned|].
  split.
  - unfold rotl1.
    rewrite lor_sign_bit.
    rewrite sign_bit by assumption.
    rewrite Z.shiftl_mul_pow2 by lia.
    unfold Int64.in_range, Int64.unsigned in *.
    change (2 ^ 1) with 2.
    destruct (Z.ltb_spec h 0).
    + replace (h mod 2 ^ 64) with (h + 2 ^ 64)
        by (apply Z.mod_unique_pos with (q := -1); lia).
      replace ((h + 2 ^ 64) / 2 ^ 63) with 1
        by (apply Z.div_unique_pos with (r := h + 2 ^ 63); lia).
      replace ((2 * (h + 2 ^ 64)) mod 2 ^ 64) with (2 * h + 2 ^ 64)
        by (apply Z.mod_unique_pos with (q := 1); lia).
      symmetry. apply Z.mod_unique_pos with (q := -1); lia.
    + rewrite (Z.mod_small h) by lia.
      rewrite (Z.div_small h) by lia.
      rewrite !Z.add_0_r. f_equal. lia.
  - split.
    + intros ls <-. unfold emit_fingerprint_constant, Int64.PRIx64_016.
      now rewrite fingerprint_unsigned.
    + intros ls1 ls2 E. unfold emit_fingerprint_constant. now rewrite E.
Qed.

Lemma fingerprint_is_rotation_witness :
  Int64.in_range (-2)
  /\ Int64.unsigned (Int64.fingerprint (-2)) = rotl1 (-2)
  /\ rotl1 (-2) = 2 ^ 64 - 3.
Proof.
  assert (Hr : Int64.in_range (-2)) by (unfold Int64.in_range; lia).
  split; [exact Hr|].
  split; [exact (proj1 (fingerprint_is_rotation (-2) Hr)) | reflexivity].
Defined.



(** *** The batch *)

Lemma emit_dart_loop_app (h : host) (dart_path : string) (make_dirs : bool)
      (pre rest : list lcm_struct) (d : disk) :
  emit_dart_loop h dart_path make_dirs (pre ++ rest) d
  = let '(status, d1) := emit_dart_loop h dart_path make_dirs pre d in
    if status =? 0 then emit_dart_loop h dart_path make_dirs rest d1 else (status, d1).
Proof.
  revert d; induction pre as [|ls pre IH]; intros d.
  - cbn. now destruct (emit_dart_loop h dart_path make_dirs rest d).
  - cbn [app emit_dart_loop].
    destruct (negb (lcm_needs_generation h (ls_lcmfile ls) (output_path dart_path ls))).
    + apply IH.
    + destruct (emit_struct h ls (output_path dart_path ls) _) as [status d2] eqn:E.
      destruct (Z.eqb_spec status 0) as [->|Hne]; cbn [negb].
      * apply IH.
      * destruct (Z.eqb_spec status 0); [contradiction | reflexivity].
Qed.

(** C9 as the code has it.  When the file of a struct that needs
    generation does not open, [emit_struct] prints nothing and returns -1,
    and [emit_dart] returns that status at once: the structs after it are
    not looked at, so the outcome is the one of the batch cut off after the
    failing struct, and no file is written beyond those of the structs
    before it.  (A failure to print to an open file is never looked for.) *)
Theorem open_failure_stops_the_batch
        (h : host) (options : getopt) (pre post : list lcm_struct) (ls : lcm_struct)
        (d d1 : disk)
        (Hpre : emit_dart h {| gopt := options; structs := pre |} d = (0, d1))
        (Hneeds : lcm_needs_generation h (ls_lcmfile ls)
                    (output_path (destination options) ls) = true)
        (Hopen : fopen_ok h (output_path (destination options) ls) = false) :
  (forall d0, emit_struct h ls (output_path (destination options) ls) d0
              = (-1, {| written := written d0; made_dirs := made_dirs d0;
                        stderr := stderr d0 ++ [output_path (destination options) ls] |}))
  /\ fst (emit_dart h {| gopt := options; structs := pre ++ ls :: post |} d) = -1
  /\ emit_dart h {| gopt := options; structs := pre ++ ls :: post |} d
     = emit_dart h {| gopt := options; structs := pre ++ [ls] |} d
  /\ written (snd (emit_dart h {| gopt := options; structs := pre ++ ls :: post |} d))
     = written d1.
Proof.
  assert (Hstruct : forall d0,
             emit_struct h ls (output_path (destination options) ls) d0
             = (-1, {| written := written d0; made_dirs := made_dirs d0;
                       stderr := stderr d0 ++ [output_path (destination options) ls] |})).
  { intros d0. unfold emit_struct. now rewrite Hopen. }
  split; [exact Hstruct|].
  unfold emit_dart in *. cbn [gopt structs] in *.
  rewrite !emit_dart_loop_app, Hpre. cbn [Z.eqb emit_dart_loop].
  rewrite Hneeds, Hstruct. cbn [negb Z.eqb fst snd].
  repeat split.
  now destruct (dart_mkdir options).
Qed.

Lemma open_failure_stops_the_batch_witness :
  fst (emit_dart read_only_host (run_of [Inner; Outer; Answer]) no_disk) = -1
  /\ map fst (written (snd (emit_dart read_only_host (run_of [Inner; Outer; Answer]) no_disk)))
     = ["./Inner.g.dart"].
Proof.
  pose proof (open_failure_stops_the_batch
                read_only_host setup_dart_options
                [Inner] [Answer] Outer no_disk
                (snd (emit_dart read_only_host (run_of [Inner]) no_disk))
                eq_refl eq_refl eq_refl) as (_ & Hstatus & _ & Hwritten).
  split; [exact Hstatus|].
  change (run_of [Inner; Outer; Answer])
    with {| gopt := setup_dart_options; structs := [Inner] ++ Outer :: [Answer] |}.
  rewrite Hwritten. reflexivity.
Defined.

(** C9 as the specification has it fails for printing: on a host where
    every file opens and no [fprintf] succeeds, the batch of [Outer] and
    [Inner] runs to its end with status 0 and opens both files. *)
Lemma write_failure_goes_unnoticed :
  fprintf_ok full_disk_host "./Outer.g.dart" = false
  /\ emit_dart full_disk_host (run_of [Outer; Inner]) no_disk
     = (0, {| written := [("./Inner.g.dart", EmptyString); ("./Outer.g.dart", EmptyString)];
              made_dirs := ["."; "."];
              stderr := [] |}).
Proof. split; reflexivity. Qed.

(** *** Class names and paths *)

Lemma split_on_cons (sep : ascii) (s : string) :
  exists piece pieces, split_on sep s = piece :: pieces.
Proof.
  induction s as [|c s (piece & pieces & IH)]; cbn [split_on]; [eauto|].
  destruct (c =? sep)%char; [eauto|]. rewrite IH. eauto.
Qed.

Lemma to_pascal_case_loop_pieces (s : string) :
  to_pascal_case_loop true s = cat (map capitalize (split_on "_"%char s))
  /\ to_pascal_case_loop false s
     = match split_on "_"%char s with
       | piece :: pieces => (piece ++ cat (map capitalize pieces))%string
       | [] => EmptyString
       end.
Proof.
  induction s as [|c s [IHt IHf]]; [split; reflexivity|].
  cbn [to_pascal_case_loop split_on].
  destruct (c =? "_")%char.
  - cbn [map cat capitalize append]. auto.
  - destruct (split_on_cons "_"%char s) as (piece & pieces & E).
    rewrite E in *. cbn [map cat capitalize append]. rewrite IHf. auto.
Qed.

Lemma to_pascal_case_no_underscore (b : bool) (s : string) :
  contains "_"%char (to_pascal_case_loop b s) = false.
Proof.
  revert b; induction s as [|c s IH]; intros b; [reflexivity|].
  cbn [to_pascal_case_loop].
  destruct (Ascii.eqb_spec c "_"%char) as [->|Hc]; [apply IH|].
  assert (Hu : (toupper c =? "_")%char = false).
  { unfold toupper. destruct (is_lower c) eqn:El.
    - destruct c as [[] [] [] [] [] [] [] []]; try discriminate El; reflexivity.
    - now apply Ascii.eqb_neq. }
  destruct b; cbn [contains]; rewrite IH, ?Hu, orb_false_r; auto.
  now apply Ascii.eqb_neq.
Qed.

Lemma toupper_lower (c : ascii) : is_lower c = true -> toupper c <> c.
Proof.
  unfold toupper. intros El. rewrite El.
  destruct c as [[] [] [] [] [] [] [] []]; try discriminate El; discriminate.
Qed.

Lemma to_pascal_case_differs (s : string) :
  contains "_"%char s = true \/ starts_lower s = true -> to_pascal_case s <> s.
Proof.
  intros [Hu | Hl] E.
  - pose proof (to_pascal_case_no_underscore true s) as Hn.
    fold (to_pascal_case s) in Hn. rewrite E in Hn. congruence.
  - destruct s as [|c s]; [discriminate|]. cbn [starts_lower] in Hl.
    unfold to_pascal_case in E. cbn [to_pascal_case_loop] in E.
    destruct (Ascii.eqb_spec c "_"%char) as [->|_]; [discriminate Hl|].
    injection E as E _. now apply toupper_lower in E.
Qed.

Lemma not_ends_with (c : ascii) (suffix s : string) :
  contains c suffix = true -> contains c s = false -> ~ ends_with suffix s.
Proof.
  intros Hs Hn [front ->]. rewrite contains_append, Hs, orb_true_r in Hn. discriminate.
Qed.

(** C10 as the code has it.  The class is declared, constructed and
    returned under the PascalCase of the short name (the name cut at its
    underscores, each piece capitalized); the file path is the text
    [dart_path/package_dir/shortname.g.dart] with the short name as it is,
    cut to the 1023 characters the path buffer holds, so it ends in the
    short name and [.g.dart] whenever that text is shorter than 1024; and a
    short name with an underscore, or with a lower-case first letter, is
    not the class name, so the raw name finds no emitted class. *)
Theorem class_name_and_path (ls : lcm_struct) :
  class_name_of ls = pascal_case (shortname (ls_structname ls))
  /\ emit_struct_text ls
     = (emit_prologue
        ++ emit_comment 0 (ls_comment ls)
        ++ emit 0 ("class " ++ pascal_case (shortname (ls_structname ls))
                   ++ " implements LcmMessage {")
        ++ emit_fingerprint_constant ls
        ++ emit_constants ls
        ++ emit_fields ls
        ++ emit_constructor ls (pascal_case (shortname (ls_structname ls)))
        ++ emit_fingerprint_getter
        ++ emit_encode_method ls
        ++ emit_decode_method ls (pascal_case (shortname (ls_structname ls)))
        ++ emit 0 "}")%string
  /\ (forall dart_path,
        output_path dart_path ls = substring 0 1023 (path_format dart_path ls)
        /\ ends_with (shortname (ls_structname ls) ++ ".g.dart") (path_format dart_path ls))
  /\ (forall dart_path,
        (String.length (path_format dart_path ls) < 1024)%nat ->
        output_path dart_path ls = path_format dart_path ls)
  /\ (contains "_"%char (shortname (ls_structname ls)) = true
      \/ starts_lower (shortname (ls_structname ls)) = true ->
      class_name_of ls <> shortname (ls_structname ls)
      /\ Run.find_class [ls] (shortname (ls_structname ls)) = None).
Proof.
  assert (Hc : class_name_of ls = pascal_case (shortname (ls_structname ls))).
  { unfold class_name_of, to_pascal_case, pascal_case.
    apply to_pascal_case_loop_pieces. }
  split; [exact Hc|].
  split.
  { unfold emit_struct_text, emit_class_open. fold (class_name_of ls).
    rewrite Hc. now rewrite !append_assoc. }
  split.
  { intros dart_path. split; [reflexivity|].
    unfold path_format, ends_with.
    exists (dart_path ++ (if nonempty dart_path then "/" else EmptyString)
            ++ dots_to_slashes (package (ls_structname ls))
            ++ (if nonempty (dots_to_slashes (package (ls_structname ls)))
                then "/" else EmptyString))%string.
    now rewrite !append_assoc. }
  split.
  { intros dart_path Hlen. unfold output_path, snprintf_path.
    apply substring_all. lia. }
  intros Hname. apply to_pascal_case_differs in Hname.
  split; [exact Hname|].
  unfold Run.find_class. cbn [find].
  fold (class_name_of ls) in Hname.
  now apply String.eqb_neq in Hname as ->.
Qed.

Lemma class_name_and_path_witness :
  class_name_of vector3f_t = "Vector3fT"
  /\ output_path "out" vector3f_t = "out/geom/vector3f_t.g.dart"
  /\ Run.find_class [vector3f_t] "vector3f_t" = None.
Proof.
  pose proof (class_name_and_path vector3f_t) as (Hc & _ & _ & Hp & Hd).
  split; [rewrite Hc; reflexivity|].
  split; [rewrite (Hp "out") by (cbn; lia); reflexivity|].
  exact (proj2 (Hd (or_introl eq_refl))).
Defined.

(** C10 as the specification has it fails for a long destination: with a
    [--dart-path] of 1100 characters the path of [vector3f_t] is the first
    1023 of them, and holds neither the short name nor [.g.dart]. *)
Lemma long_path_loses_the_name :
  output_path long_dir vector3f_t = copies 1023 "d"%char
  /\ ~ ends_with (shortname (ls_structname vector3f_t) ++ ".g.dart")
                 (output_path long_dir vector3f_t).
Proof.
  split; [vm_compute; reflexivity|].
  apply (not_ends_with "."%char); vm_compute; reflexivity.
Qed.

End EmitFacts.

(* ================================================================== *)
(** ** The emitted methods at run time *)

Module RunFacts.
Import Text Schema Emit Dart Run Spec Examples.

(** *** Bytes *)

Lemma Z_of_byte_range (b : byte) : 0 <= Z_of_byte b < 256.
Proof.
  unfold Z_of_byte. pose proof (Byte.to_N_bounded b). lia.
Qed.

Lemma Z_of_byte_of_Z (z : Z) : Z_of_byte (byte_of_Z z) = z mod 256.
Proof.
  unfold Z_of_byte, byte_of_Z.
  pose proof (Z.mod_pos_bound z 256 ltac:(lia)) as Hm.
  pose proof (Byte.to_of_N_option_map (Z.to_N (z mod 256))) as Ho.
  destruct (Byte.of_N (Z.to_N (z mod 256))) as [b|] eqn:E.
  - apply Byte.to_of_N in E. rewrite E. lia.
  - cbn in Ho. destruct (N.leb_spec (Z.to_N (z mod 256)) 255); [discriminate | lia].
Qed.

Lemma byte_of_Z_of_byte (b : byte) : byte_of_Z (Z_of_byte b) = b.
Proof.
  unfold byte_of_Z. rewrite Z.mod_small by apply Z_of_byte_range.
  unfold Z_of_byte. rewrite N2Z.id, Byte.of_to_N. reflexivity.
Qed.

Lemma byte_of_Z_mod (z k : Z) : byte_of_Z (z + k * 256) = byte_of_Z z.
Proof. unfold byte_of_Z. now rewrite Z.mod_add by lia. Qed.

Lemma length_big_endian (n : nat) (z : Z) : List.length (big_endian n z) = n.
Proof.
  revert z; induction n as [|n IH]; intros z; cbn [big_endian]; [reflexivity|].
  rewrite length_app, IH. cbn. lia.
Qed.

Lemma from_big_endian_snoc (bs : list byte) (b : byte) :
  from_big_endian (bs ++ [b]) = from_big_endian bs * 256 + Z_of_byte b.
Proof. unfold from_big_endian. now rewrite fold_left_app. Qed.

Lemma big_endian_from (bs : list byte) :
  big_endian (List.length bs) (from_big_endian bs) = bs.
Proof.
  induction bs as [|b bs IH] using rev_ind; [reflexivity|].
  rewrite length_app, Nat.add_comm. cbn [List.length Nat.add big_endian].
  rewrite from_big_endian_snoc.
  pose proof (Z_of_byte_range b).
  replace ((from_big_endian bs * 256 + Z_of_byte b) / 256) with (from_big_endian bs)
    by (apply Z.div_unique_pos with (r := Z_of_byte b); lia).
  rewrite IH. f_equal. f_equal.
  rewrite Z.add_comm, byte_of_Z_mod. apply byte_of_Z_of_byte.
Qed.

Lemma from_big_endian_of (n : nat) (z : Z) :
  from_big_endian (big_endian n z) = z mod 2 ^ (8 * Z.of_nat n).
Proof.
  revert z; induction n as [|n IH]; intros z.
  - cbn. now rewrite Z.mod_1_r.
  - cbn [big_endian]. rewrite from_big_endian_snoc, IH, Z_of_byte_of_Z.
    replace (8 * Z.of_nat (S n)) with (8 + 8 * Z.of_nat n) by lia.
    rewrite Z.pow_add_r by lia. change (2 ^ 8) with 256.
    rewrite Z.rem_mul_r by lia. lia.
Qed.

Lemma big_endian_wraps (n : nat) (z k : Z) :
  big_endian n (z + k * 2 ^ (8 * Z.of_nat n)) = big_endian n z.
Proof.
  revert z k; induction n as [|n IH]; intros z k; [reflexivity|].
  cbn [big_endian].
  replace (8 * Z.of_nat (S n)) with (8 + 8 * Z.of_nat n) by lia.
  rewrite Z.pow_add_r by lia. change (2 ^ 8) with 256.
  replace (z + k * (256 * 2 ^ (8 * Z.of_nat n)))
    with (z + (k * 2 ^ (8 * Z.of_nat n)) * 256) by lia.
  rewrite byte_of_Z_mod, Z.div_add by lia.
  now rewrite IH.
Qed.

Lemma big_endian_signed (n : nat) (u : Z) :
  big_endian n (signed n u) = big_endian n u.
Proof.
  unfold signed. destruct (u <? 2 ^ (8 * Z.of_nat n - 1)); [reflexivity|].
  replace (u - 2 ^ (8 * Z.of_nat n)) with (u + (-1) * 2 ^ (8 * Z.of_nat n)) by lia.
  apply big_endian_wraps.
Qed.

Lemma signed_unsigned_64 (z : Z) :
  Int64.in_range z -> signed 8 (z mod 2 ^ 64) = z.
Proof.
  unfold Int64.in_range, signed. intros Hr.
  change (8 * Z.of_nat 8 - 1) with 63. change (8 * Z.of_nat 8) with 64.
  destruct (Z.ltb_spec z 0).
  - replace (z mod 2 ^ 64) with (z + 2 ^ 64)
      by (apply Z.mod_unique_pos with (q := -1); lia).
    destruct (Z.ltb_spec (z + 2 ^ 64) (2 ^ 63)); lia.
  - rewrite Z.mod_small by lia.
    destruct (Z.ltb_spec z (2 ^ 63)); lia.
Qed.

Lemma LCM_FINGERPRINT_of_hash (ls : lcm_struct) :
  LCM_FINGERPRINT_of ls = Int64.fingerprint (ls_hash ls).
Proof. apply EmitFacts.wrap_unsigned_wrap. Qed.

(** *** Runs that only add to the buffer *)

Lemma after_after {A : Type} (s1 s2 : list byte) (o : outcome A) :
  after s1 (after s2 o) = after (s1 ++ s2) o.
Proof. destruct o; cbn; now rewrite app_assoc. Qed.

Lemma appends_ret {A : Type} (a : A) : appends (ret a).
Proof. intros s. cbn. now rewrite app_nil_r. Qed.

Lemma appends_throw {A : Type} (e : failure) : appends (@throw A e).
Proof. intros s. cbn. now rewrite app_nil_r. Qed.

Lemma appends_write (bs : list byte) : appends (write bs).
Proof. intros s. reflexivity. Qed.

Lemma appends_bind {A B : Type} (m : M A) (k : A -> M B) :
  appends m -> (forall a, appends (k a)) -> appends (bind m k).
Proof.
  intros Hm Hk s. unfold bind. rewrite (Hm s).
  destruct (m []) as [a out|e out]; cbn; [|reflexivity].
  rewrite (Hk a (s ++ out)), (Hk a out). now rewrite after_after.
Qed.

Create HintDb appends.
#[local] Hint Resolve appends_ret appends_throw appends_write appends_bind : appends.

Lemma appends_subscript (env : list (nat * Z)) (idx : list nat) (v : value) :
  appends (subscript env v idx).
Proof.
  revert v; induction idx as [|k idx IH]; intros v; cbn [subscript]; auto with appends.
  destruct v; auto with appends.
  destruct (loop_var env k) as [i|]; auto with appends.
  destruct (if 0 <=? i then nth_error l (Z.to_nat i) else None); auto with appends.
Qed.

Lemma appends_read_accessor (this : value) (env : list (nat * Z)) (a : accessor) :
  appends (read_accessor this env a).
Proof.
  unfold read_accessor. destruct (scope this env (base a)); auto with appends.
  apply appends_subscript.
Qed.

Lemma appends_bound_value (names : string -> option value) (bound : string) :
  appends (bound_value names bound).
Proof.
  unfold bound_value. destruct (literal bound); auto with appends.
  destruct (names bound) as [[]|]; auto with appends.
Qed.

Lemma appends_for_each {I : Type} (items : list I) (body : I -> M unit) :
  (forall i, appends (body i)) -> appends (for_each items body).
Proof.
  intros Hb. induction items as [|i items IH]; cbn [for_each]; auto with appends.
Qed.

#[local] Hint Resolve appends_read_accessor appends_bound_value appends_for_each : appends.

(** *** Reading *)

Lemma take_app (bs rest : list byte) : take (List.length bs) (bs ++ rest) = Done bs rest.
Proof.
  unfold take. rewrite length_app.
  destruct (Nat.leb_spec (List.length bs) (List.length bs + List.length rest)); [|lia].
  rewrite firstn_app, Nat.sub_diag, firstn_all, firstn_O, app_nil_r.
  rewrite skipn_app, Nat.sub_diag, skipn_all, skipn_O. reflexivity.
Qed.

Lemma take_exactly (n : nat) (bs rest : list byte) :
  List.length bs = n -> take n (bs ++ rest) = Done bs rest.
Proof. intros <-. apply take_app. Qed.

Lemma take_short (n : nat) (s : list byte) :
  (List.length s < n)%nat -> take n s = Thrown RangeError s.
Proof.
  intros H. unfold take. destruct (Nat.leb_spec n (List.length s)); [lia | reflexivity].
Qed.

Lemma split_at (n : nat) (s : list byte) :
  (n <= List.length s)%nat ->
  exists front rest, s = front ++ rest /\ List.length front = n.
Proof.
  intros H. exists (firstn n s), (skipn n s). split.
  - symmetry. apply firstn_skipn.
  - rewrite length_firstn. lia.
Qed.

(** *** Locals *)

Lemma assoc_app {A : Type} (name : string) (l1 l2 : list (string * A)) :
  assoc name (l1 ++ l2)
  = match assoc name l1 with Some a => Some a | None => assoc name l2 end.
Proof.
  induction l1 as [|[n a] l1 IH]; cbn [app assoc]; [reflexivity|].
  destruct (n =? name)%string; [reflexivity | exact IH].
Qed.

Lemma assoc_in {A : Type} (name : string) (a : A) (l : list (string * A)) :
  NoDup (map fst l) -> In (name, a) l -> assoc name l = Some a.
Proof.
  induction l as [|[n b] l IH]; cbn [map fst assoc]; intros Hnd Hin; [contradiction|].
  inversion Hnd as [|? ? Hn Hnd']; subst.
  destruct (String.eqb_spec n name) as [->|Hne].
  - destruct Hin as [E | Hin]; [now injection E as -> |].
    exfalso. apply Hn. apply (in_map fst) in Hin. exact Hin.
  - destruct Hin as [E | Hin]; [injection E as E _; contradiction |].
    now apply IH.
Qed.

Lemma collect_all {A : Type} (env : list (string * value)) (fields : list (string * value)) :
  (forall name v, In (name, v) fields -> assoc name env = Some v) ->
  collect env (map (fun p => (fst p, fst p)) fields) = Some fields.
Proof.
  induction fields as [|[n v] fields IH]; intros H; cbn [map collect fst]; [reflexivity|].
  rewrite (H n v) by (left; reflexivity).
  rewrite IH by (intros name v' Hin; apply H; right; exact Hin).
  reflexivity.
Qed.

Lemma collect_decoded (env : list (string * value)) (fields : list (string * value))
      (members : list lcm_member) :
  map fst fields = map lm_membername members ->
  NoDup (map lm_membername members) ->
  collect (rev fields ++ env)
          (map (fun lm => (lm_membername lm, lm_membername lm)) members)
  = Some fields.
Proof.
  intros Hn Hnd.
  replace (map (fun lm => (lm_membername lm, lm_membername lm)) members)
    with (map (fun p : string * value => (fst p, fst p)) fields).
  2:{ rewrite <- (map_map fst (fun n => (n, n))), Hn, map_map. reflexivity. }
  apply (@collect_all unit). intros name v Hin.
  rewrite assoc_app, (assoc_in name v (rev fields)); [reflexivity | | now apply in_rev in Hin].
  rewrite map_rev. apply NoDup_rev. now rewrite Hn.
Qed.

(** *** Loops *)

Lemma bind_ext_l {A B : Type} (m m' : M A) (k : A -> M B) :
  (forall s, m s = m' s) -> forall s, bind m k s = bind m' k s.
Proof. intros H s. unfold bind. now rewrite H. Qed.

Lemma for_each_ext {I : Type} (items : list I) (f g : I -> M unit) :
  (forall i s, f i s = g i s) ->
  forall s, for_each items f s = for_each items g s.
Proof.
  intros H. induction items as [|i items IH]; intros s; cbn [for_each]; [reflexivity|].
  unfold bind. rewrite H. destruct (g i s); [apply IH | reflexivity].
Qed.

Lemma for_each_app {I : Type} (l1 l2 : list I) (f : I -> M unit) (s : list byte) :
  for_each (l1 ++ l2) f s = (for_each l1 f ;;; for_each l2 f) s.
Proof.
  revert s; induction l1 as [|i l1 IH]; intros s; cbn [app for_each]; [reflexivity|].
  unfold bind. destruct (f i s) as [[] s'|]; [|reflexivity].
  rewrite IH. reflexivity.
Qed.

Lemma for_each_map {I J : Type} (h : I -> J) (l : list I) (f : J -> M unit) (s : list byte) :
  for_each (map h l) f s = for_each l (fun i => f (h i)) s.
Proof.
  revert s; induction l as [|i l IH]; intros s; cbn [map for_each]; [reflexivity|].
  unfold bind. destruct (f (h i) s); [apply IH | reflexivity].
Qed.

Lemma for_each_flat_map {I J : Type} (h : I -> list J) (l : list I) (f : J -> M unit)
      (s : list byte) :
  for_each (flat_map h l) f s = for_each l (fun i => for_each (h i) f) s.
Proof.
  revert s; induction l as [|i l IH]; intros s; cbn [flat_map for_each]; [reflexivity|].
  rewrite for_each_app. unfold bind.
  destruct (for_each (h i) f s); [apply IH | reflexivity].
Qed.

Lemma row_major_one (n : Z) : row_major [n] = map (fun i => [i]) (upto n).
Proof.
  cbn [row_major map]. generalize (upto n) as l.
  induction l as [|i l IH]; [reflexivity|].
  cbn [flat_map map app]. now rewrite IH.
Qed.

Lemma length_upto (n : Z) : List.length (upto n) = Z.to_nat n.
Proof. unfold upto. now rewrite length_map, length_seq. Qed.

(** *** Index variables *)

Lemma loop_var_index_env (idx : list Z) :
  forall (dim : nat) (env : list (nat * Z)) (k : nat),
    loop_var (index_env dim idx env) k
    = if ((dim <=? k) && (k <? dim + List.length idx))%nat
      then nth_error idx (k - dim)
      else loop_var env k.
Proof.
  induction idx as [|i idx IH]; intros dim env k; cbn [index_env List.length].
  - destruct (Nat.leb_spec dim k), (Nat.ltb_spec k (dim + 0)); cbn [andb]; try reflexivity; lia.
  - rewrite IH. cbn [loop_var].
    destruct (Nat.leb_spec (S dim) k), (Nat.ltb_spec k (S dim + List.length idx)),
             (Nat.leb_spec dim k), (Nat.ltb_spec k (dim + S (List.length idx))),
             (Nat.eqb_spec dim k); cbn [andb]; try lia; try reflexivity.
    + replace (k - dim)%nat with (S (k - S dim)) by lia. reflexivity.
    + subst. now rewrite Nat.sub_diag.
Qed.

Lemma subscript_by_index (env : list (nat * Z)) (idx : list Z) :
  forall (dim : nat) (v : value),
    (forall j, (j < List.length idx)%nat -> loop_var env (dim + j) = nth_error idx j) ->
    subscript env v (seq dim (List.length idx)) = index_path v idx.
Proof.
  induction idx as [|i idx IH]; intros dim v H; cbn [List.length seq subscript index_path];
    [reflexivity|].
  pose proof (H 0%nat ltac:(cbn; lia)) as H0. rewrite Nat.add_0_r in H0.
  rewrite H0. cbn [nth_error].
  destruct v; try reflexivity.
  destruct (if 0 <=? i then nth_error l (Z.to_nat i) else None); [|reflexivity].
  apply IH. intros j Hj.
  replace (S dim + j)%nat with (dim + S j)%nat by lia.
  rewrite H by (cbn; lia). reflexivity.
Qed.

Lemma scope_member (this : value) (env : list (nat * Z)) (name : string) :
  (name =? "buf")%string = false -> loop_index name = None ->
  scope this env name = member this name.
Proof. intros Hb Hl. unfold scope. now rewrite Hb, Hl. Qed.

Lemma loop_index_dec (k : nat) : loop_index ("i" ++ dec k) = Some k.
Proof.
  cbn [append loop_index Ascii.eqb Bool.eqb andb]. unfold dec.
  assert (Hnil : Nat.to_uint k <> Decimal.Nil).
  { rewrite <- (DecimalNat.Unsigned.of_to k) at 1.
    rewrite DecimalNat.Unsigned.to_of. apply DecimalFacts.unorm_nonnil. }
  rewrite (NilZero.usu _ Hnil), DecimalNat.Unsigned.of_to.
  now rewrite String.eqb_refl.
Qed.

Lemma loop_index_name (name : string) (k : nat) :
  loop_index name = Some k -> name = ("i" ++ dec k)%string.
Proof.
  destruct name as [|c digits]; [discriminate|]. cbn [loop_index].
  destruct (Ascii.eqb_spec c "i"%char) as [->|]; [|discriminate].
  destruct (NilZero.uint_of_string digits) as [u|]; [|discriminate].
  destruct (String.eqb_spec (dec (Nat.of_uint u)) digits) as [E|]; [|discriminate].
  intros H. injection H as <-. cbn [append]. now rewrite E.
Qed.

Lemma read_accessor_by_index (this : value) (name : string) (idx : list Z) :
  read_accessor this (index_env 0 idx []) {| base := name; indices := seq 0 (List.length idx) |}
  = match scope this (index_env 0 idx []) name with
    | Some v => index_path v idx
    | None => throw NoSuchMember
    end.
Proof.
  unfold read_accessor. cbn [base indices].
  destruct (scope this (index_env 0 idx []) name); [|reflexivity].
  apply subscript_by_index. intros j Hj.
  rewrite loop_var_index_env. cbn [Nat.add].
  destruct (Nat.leb_spec 0 j), (Nat.ltb_spec j (List.length idx)); cbn [andb]; try lia.
  now rewrite Nat.sub_0_r.
Qed.

(** *** Repeated reads *)

Lemma repeat_read_ext {A : Type} (n : nat) (m m' : M A) :
  (forall s, m s = m' s) -> forall s, repeat_read n m s = repeat_read n m' s.
Proof.
  intros H. induction n as [|n IH]; intros s; cbn [repeat_read]; [reflexivity|].
  unfold bind. rewrite H. destruct (m' s) as [a s'|]; [|reflexivity].
  now rewrite IH.
Qed.

Lemma repeat_read_fmap {A B : Type} (f : A -> B) (n : nat) (m : M A) (s : list byte) :
  repeat_read n (fmap f m) s = fmap (map f) (repeat_read n m) s.
Proof.
  revert s; induction n as [|n IH]; intros s; cbn [repeat_read]; [reflexivity|].
  unfold fmap, bind in *. destruct (m s) as [a s'|]; [|reflexivity].
  cbn [ret]. rewrite IH. destruct (repeat_read n m s'); reflexivity.
Qed.

Lemma repeat_read_app {A : Type} (a b : nat) (m : M A) (s : list byte) :
  repeat_read (a + b) m s
  = (xs <- repeat_read a m ;; ys <- repeat_read b m ;; ret (xs ++ ys)) s.
Proof.
  revert s; induction a as [|a IH]; intros s; cbn [Nat.add repeat_read].
  - unfold bind. cbn [ret]. destruct (repeat_read b m s); reflexivity.
  - unfold bind in *. destruct (m s) as [x s1|]; [|reflexivity].
    rewrite IH. destruct (repeat_read a m s1) as [xs s2|]; [|reflexivity].
    cbn [ret]. destruct (repeat_read b m s2); reflexivity.
Qed.

Lemma repeat_read_mul {A : Type} (a b : nat) (m : M A) (s : list byte) :
  repeat_read (a * b) m s
  = (xss <- repeat_read a (repeat_read b m) ;; ret (List.concat xss)) s.
Proof.
  revert s; induction a as [|a IH]; intros s; cbn [Nat.mul repeat_read]; [reflexivity|].
  rewrite repeat_read_app. unfold bind in *.
  destruct (repeat_read b m s) as [xs s1|]; [|reflexivity].
  rewrite IH. destruct (repeat_read a (repeat_read b m) s1); reflexivity.
Qed.

Section Runtime.
Variables float32_of_double double_of_float32 : Z -> Z.
Variable utf8_encode : string -> list byte.
Variable utf8_decode : list byte -> option string.

#[local] Abbreviation put := (Run.put float32_of_double).
#[local] Abbreviation put_string := (Run.put_string float32_of_double utf8_encode).
#[local] Abbreviation exec := (Run.exec float32_of_double utf8_encode).
#[local] Abbreviation exec_all := (Run.exec_all float32_of_double utf8_encode).
#[local] Abbreviation encode_object := (Run.encode_object float32_of_double utf8_encode).
#[local] Abbreviation get := (Run.get double_of_float32).
#[local] Abbreviation get_string := (Run.get_string double_of_float32 utf8_decode).
#[local] Abbreviation eval := (Run.eval double_of_float32 utf8_decode).
#[local] Abbreviation step := (Run.step double_of_float32 utf8_decode).
#[local] Abbreviation run := (Run.run double_of_float32 utf8_decode).
#[local] Abbreviation decode_class := (Run.decode_class double_of_float32 utf8_decode).
#[local] Abbreviation read_members := (Spec.read_members double_of_float32 utf8_decode).

Lemma appends_put (w : wire) (v : value) : appends (put w v).
Proof. unfold Run.put. destruct (image _ w v); auto with appends. Qed.

Lemma appends_put_string (s : string) : appends (put_string s).
Proof.
  unfold Run.put_string, putUint32, putUint8List.
  auto using appends_put with appends.
Qed.

Lemma appends_exec (call : value -> M unit) (fp : Z) (this : value) :
  (forall v, appends (call v)) ->
  forall (s : stmt) (env : list (nat * Z)), appends (exec call fp this env s).
Proof.
  intros Hcall. induction s as [| w a | a | a | a | k bound body IH]; intros env;
    cbn [Run.exec]; auto using appends_put with appends.
  - apply appends_bind; auto with appends.
    intros []; auto using appends_put with appends.
  - destruct (base a =? "bytes")%string; auto with appends.
    apply appends_bind; auto with appends.
    intros []; auto using appends_put_string with appends.
Qed.

Lemma appends_encode_object (prog : list lcm_struct) (fuel : nat) (obj : value) :
  appends (encode_object prog fuel obj).
Proof.
  revert obj; induction fuel as [|fuel IH]; intros obj; cbn [Run.encode_object];
    auto with appends.
  destruct obj; auto with appends.
  destruct (find_class prog cls); auto with appends.
  unfold Run.exec_all. apply appends_for_each. intros s. now apply appends_exec.
Qed.

(** What a sequence of appending steps writes is the pieces the steps
    write, one after the other. *)
Lemma for_each_chunks {I : Type} (items : list I) (body : I -> M unit) (out : list byte) :
  (forall i, appends (body i)) ->
  for_each items body [] = Done tt out
  <-> exists chunks,
        Forall2 (fun i chunk => body i [] = Done tt chunk) items chunks
        /\ out = List.concat chunks.
Proof.
  intros Hb. revert out; induction items as [|i items IH]; intros out; cbn [for_each].
  - split.
    + intros E. injection E as <-. exists []. split; [constructor | reflexivity].
    + intros (chunks & HF & ->). inversion HF. reflexivity.
  - unfold bind at 1. split.
    + destruct (body i []) as [[] c|] eqn:Ei; [|discriminate].
      rewrite (appends_for_each items body Hb c).
      destruct (for_each items body []) as [[] out'|] eqn:Er; [|discriminate].
      cbn. intros E. injection E as <-.
      destruct (proj1 (IH out') eq_refl) as (chunks & HF & ->).
      exists (c :: chunks). split; [constructor; assumption | reflexivity].
    + intros (chunks & HF & ->). inversion HF as [|? c ? chunks' Hi HF']; subst.
      rewrite Hi. rewrite (appends_for_each items body Hb c).
      assert (Er : for_each items body [] = Done tt (List.concat chunks')).
      { apply IH. eauto. }
      rewrite Er. reflexivity.
Qed.

Lemma Forall2_map_l {A B C : Type} (f : A -> B) (R : B -> C -> Prop)
      (l : list A) (l' : list C) :
  Forall2 R (map f l) l' <-> Forall2 (fun a c => R (f a) c) l l'.
Proof.
  revert l'; induction l as [|a l IH]; intros l'; cbn [map].
  - split; intros H; inversion H; constructor.
  - split; intros H; inversion H; subst; constructor; auto; now apply IH.
Qed.

(** The bytes of [encode] on an instance of [ls]: the fingerprint, then
    what each member's statement writes, in declared order. *)
Lemma encode_object_chunks (prog : list lcm_struct) (fuel : nat)
      (cls : string) (fields : list (string * value)) (ls : lcm_struct) (out : list byte) :
  find_class prog cls = Some ls ->
  encode_object prog (S fuel) (VObject cls fields) [] = Done tt out
  <-> exists chunks,
        Forall2 (fun lm chunk =>
                   exec (encode_object prog fuel) (LCM_FINGERPRINT_of ls)
                        (VObject cls fields) [] (encode_member lm) [] = Done tt chunk)
                (ls_members ls) chunks
        /\ out = big_endian 8 (Int64.fingerprint (ls_hash ls)) ++ List.concat chunks.
Proof.
  intros Hcls. cbn [Run.encode_object]. rewrite Hcls.
  unfold Run.exec_all, encode_body.
  rewrite for_each_chunks
    by (intros s; apply appends_exec; intros v; apply appends_encode_object).
  split.
  - intros (chunks & HF & ->).
    inversion HF as [|? c0 ? chunks' H0 HF']; subst.
    apply Forall2_map_l in HF'.
    exists chunks'. split; [exact HF'|].
    cbn in H0. injection H0 as <-.
    now rewrite LCM_FINGERPRINT_of_hash.
  - intros (chunks & HF & ->).
    exists (big_endian 8 (Int64.fingerprint (ls_hash ls)) :: chunks).
    split; [|reflexivity].
    constructor; [|now apply Forall2_map_l].
    cbn. now rewrite LCM_FINGERPRINT_of_hash.
Qed.


(** C6.  The encode method is the fingerprint statement followed by one
    statement per member in declared order, and its bytes are the eight
    bytes of the fingerprint followed by what each member's statement
    writes by itself, in that order, with nothing in between. *)
Theorem encode_is_fingerprint_then_members
        (prog : list lcm_struct) (fuel : nat) (cls : string)
        (fields : list (string * value)) (ls : lcm_struct)
        (Hcls : find_class prog cls = Some ls) :
  emit_encode_method ls
  = print_encode_method (PutFingerprint :: map encode_member (ls_members ls))
  /\ forall out : list byte,
       encode_object prog (S fuel) (VObject cls fields) [] = Done tt out
       <-> exists chunks : list (list byte),
             Forall2 (fun lm chunk =>
                        exec (encode_object prog fuel) (LCM_FINGERPRINT_of ls)
                             (VObject cls fields) [] (encode_member lm) [] = Done tt chunk)
                     (ls_members ls) chunks
             /\ out = big_endian 8 (Int64.fingerprint (ls_hash ls)) ++ List.concat chunks.
Proof.
  split.
  - symmetry. apply (PrintFacts.print_encode_body ls).
  - intros out. now apply encode_object_chunks.
Qed.

Lemma read_members_names (call : string -> M value) (members : list lcm_member) :
  forall env s fields s',
    read_members call env members s = Done fields s' ->
    map fst fields = map lm_membername members.
Proof.
  induction members as [|lm members IH]; intros env s fields s' E; cbn [Spec.read_members] in E.
  - injection E as <- _. reflexivity.
  - unfold bind in E.
    destruct (eval call env _ s) as [v s1|]; [|discriminate].
    destruct (read_members call _ members s1) as [fields' s2|] eqn:Er; [|discriminate].
    injection E as <- _. cbn [map fst]. f_equal. eapply IH, Er.
Qed.

Lemma run_members (call : string -> M value) (fp : Z) (members : list lcm_member)
      (tail : list dstmt) :
  forall env s,
    run call fp env (map decode_member members ++ tail) s
    = (fields <- read_members call env members ;;
       run call fp (rev fields ++ env) tail) s.
Proof.
  induction members as [|lm members IH]; intros env s; [reflexivity|].
  cbn [map app Run.run Spec.read_members decode_member Run.step].
  unfold bind.
  destruct (eval call env _ s) as [v s1|e s1]; [|reflexivity].
  cbn [ret]. rewrite IH. unfold bind.
  destruct (read_members call _ members s1) as [fields s2|]; [|reflexivity].
  cbn [ret rev]. now rewrite <- app_assoc.
Qed.

(** The whole of [decode], by the incoming eight bytes. *)
Lemma decode_class_incoming (prog : list lcm_struct) (fuel : nat) (cls : string)
      (ls : lcm_struct) (incoming rest : list byte) :
  find_class prog cls = Some ls ->
  NoDup (map lm_membername (ls_members ls)) ->
  List.length incoming = 8%nat ->
  decode_class prog (S fuel) cls (incoming ++ rest)
  = if signed 8 (from_big_endian incoming) =? LCM_FINGERPRINT_of ls
    then (fields <- read_members (decode_class prog fuel)
                      [("fingerprint", VInt (signed 8 (from_big_endian incoming)))]
                      (ls_members ls) ;;
          ret (VObject (class_name_of ls) fields)) rest
    else Thrown TypeMismatch rest.
Proof.
  intros Hcls Hnd Hlen. cbn [Run.decode_class]. rewrite Hcls.
  unfold decode_body. cbn [app Run.run Run.step].
  unfold Run.get, bind. cbn [width].
  rewrite (take_exactly 8 incoming rest Hlen). cbn [ret value_of width].
  cbn [assoc String.eqb Ascii.eqb Bool.eqb].
  destruct (signed 8 (from_big_endian incoming) =? LCM_FINGERPRINT_of ls);
    [|reflexivity].
  cbn [ret]. rewrite run_members. unfold bind.
  destruct (read_members _ _ (ls_members ls) rest) as [fields s'|] eqn:Er; [|reflexivity].
  cbn [Run.run Run.step ret]. unfold bind. cbn [ret].
  rewrite collect_decoded; [reflexivity | | exact Hnd].
  eapply read_members_names, Er.
Qed.

(** [decode] on a buffer that starts with the class's fingerprint. *)
Lemma decode_class_matching (prog : list lcm_struct) (fuel : nat) (cls : string)
      (ls : lcm_struct) (rest : list byte) :
  find_class prog cls = Some ls ->
  NoDup (map lm_membername (ls_members ls)) ->
  decode_class prog (S fuel) cls (big_endian 8 (Int64.fingerprint (ls_hash ls)) ++ rest)
  = (fields <- read_members (decode_class prog fuel)
                 [("fingerprint", VInt (Int64.fingerprint (ls_hash ls)))]
                 (ls_members ls) ;;
     ret (VObject (class_name_of ls) fields)) rest.
Proof.
  intros Hcls Hnames.
  rewrite (decode_class_incoming prog fuel cls ls _ rest Hcls Hnames)
    by apply length_big_endian.
  rewrite from_big_endian_of. change (2 ^ (8 * Z.of_nat 8)) with (2 ^ 64).
  rewrite signed_unsigned_64 by apply EmitFacts.wrap_in_range.
  now rewrite LCM_FINGERPRINT_of_hash, Z.eqb_refl.
Qed.


(** C2.  [decode] starts by reading eight bytes and comparing them with the
    class's fingerprint.  With fewer than eight bytes it throws before
    anything is read; with eight other bytes it throws [TypeMismatch] with
    the buffer just behind those eight bytes, whatever the members are;
    with the fingerprint it reads the members in declared order and builds
    the instance from all of them.  A value comes back only with every
    member in it. *)
Theorem decode_checks_fingerprint_first
        (prog : list lcm_struct) (fuel : nat) (cls : string) (ls : lcm_struct)
        (Hcls : find_class prog cls = Some ls)
        (Hnames : NoDup (map lm_membername (ls_members ls))) :
  emit_decode_method ls (class_name_of ls)
  = print_decode_method (class_name_of ls)
      ([ReadFingerprint; CheckFingerprint; Blank]
       ++ map decode_member (ls_members ls)
       ++ [Blank;
           Return (class_name_of ls)
                  (map (fun lm => (lm_membername lm, lm_membername lm)) (ls_members ls))])
  /\ (forall buf : list byte,
        (List.length buf < 8)%nat ->
        decode_class prog (S fuel) cls buf = Thrown RangeError buf)
  /\ (forall incoming rest : list byte,
        List.length incoming = 8%nat ->
        incoming <> big_endian 8 (Int64.fingerprint (ls_hash ls)) ->
        decode_class prog (S fuel) cls (incoming ++ rest) = Thrown TypeMismatch rest)
  /\ (forall rest : list byte,
        decode_class prog (S fuel) cls (big_endian 8 (Int64.fingerprint (ls_hash ls)) ++ rest)
        = (fields <- read_members (decode_class prog fuel)
                       [("fingerprint", VInt (Int64.fingerprint (ls_hash ls)))]
                       (ls_members ls) ;;
           ret (VObject (class_name_of ls) fields)) rest)
  /\ (forall (buf : list byte) (v : value) (rest : list byte),
        decode_class prog (S fuel) cls buf = Done v rest ->
        exists fields,
          v = VObject (class_name_of ls) fields
          /\ map fst fields = map lm_membername (ls_members ls)).
Proof.
  pose proof (fun rest => decode_class_matching prog fuel cls ls rest Hcls Hnames)
    as Hmatch.
  assert (Hother : forall incoming rest,
             List.length incoming = 8%nat ->
             incoming <> big_endian 8 (Int64.fingerprint (ls_hash ls)) ->
             decode_class prog (S fuel) cls (incoming ++ rest) = Thrown TypeMismatch rest).
  { intros incoming rest Hlen Hne.
    rewrite (decode_class_incoming prog fuel cls ls incoming rest Hcls Hnames Hlen).
    destruct (Z.eqb_spec (signed 8 (from_big_endian incoming)) (LCM_FINGERPRINT_of ls))
      as [E|]; [|reflexivity].
    exfalso. apply Hne.
    rewrite <- LCM_FINGERPRINT_of_hash, <- E, big_endian_signed, <- Hlen.
    symmetry. apply big_endian_from. }
  split; [symmetry; apply (PrintFacts.print_decode_body ls)|].
  split.
  { intros buf Hshort. cbn [Run.decode_class]. rewrite Hcls.
    unfold decode_body. cbn [app Run.run Run.step].
    unfold Run.get, bind. cbn [width]. now rewrite take_short. }
  split; [exact Hother|]. split; [exact Hmatch|].
  intros buf v rest E.
  destruct (Nat.ltb_spec (List.length buf) 8) as [Hshort | Hlong].
  { cbn [Run.decode_class] in E. rewrite Hcls in E.
    unfold decode_body in E. cbn [app Run.run Run.step] in E.
    unfold Run.get, bind in E. cbn [width] in E.
    rewrite take_short in E by exact Hshort. discriminate. }
  destruct (split_at 8 buf Hlong) as (incoming & rest' & -> & Hlen).
  destruct (list_eq_dec Byte.byte_eq_dec incoming
                        (big_endian 8 (Int64.fingerprint (ls_hash ls)))) as [-> | Hne].
  - rewrite Hmatch in E. unfold bind in E.
    destruct (read_members _ _ (ls_members ls) rest') as [fields s'|] eqn:Er; [|discriminate].
    injection E as <- _. exists fields. split; [reflexivity|].
    eapply read_members_names, Er.
  - rewrite (Hother incoming rest' Hlen Hne) in E. discriminate.
Qed.

(** *** Strings *)

Lemma put_string_bytes (s : string) (buf : list byte) :
  put_string s buf
  = Done tt (buf ++ big_endian 4 (Z.of_nat (List.length (utf8_encode s)) + 1)
                 ++ utf8_encode s ++ [x00]).
Proof.
  unfold Run.put_string, putUint32, putUint8List, Run.put, write, bind.
  cbn [image width]. change (big_endian 1 0) with [x00].
  now rewrite <- !app_assoc.
Qed.

Lemma get_string_frame (L : Z) (bytes : list byte) (terminator : byte) (rest : list byte) :
  1 <= L < 2 ^ 32 ->
  List.length bytes = Z.to_nat (L - 1) ->
  get_string (big_endian 4 L ++ bytes ++ [terminator] ++ rest)
  = match utf8_decode bytes with
    | Some s => Done (VString s) rest
    | None => Thrown FormatException rest
    end.
Proof.
  intros HL Hlen. unfold Run.get_string, getUint32, getUint8List, Run.get, bind.
  rewrite (take_exactly 4 (big_endian 4 L)) by apply length_big_endian.
  cbn [ret]. rewrite from_big_endian_of. change (2 ^ (8 * Z.of_nat 4)) with (2 ^ 32).
  rewrite Z.mod_small by lia.
  destruct (Z.ltb_spec (L - 1) 0); [lia|].
  rewrite (take_exactly (Z.to_nat (L - 1)) bytes) by exact Hlen.
  cbn [width]. rewrite (take_exactly 1 [terminator]) by reflexivity.
  cbn [ret]. destruct (utf8_decode bytes); reflexivity.
Qed.


(** *** Arrays *)

Lemma bound_in_scope (this : value) (bound : string) (n : Z) :
  (bound =? "buf")%string = false -> loop_index bound = None ->
  (forall s, bound_value (member this) bound s = Done n s) ->
  forall env s, bound_value (scope this env) bound s = Done n s.
Proof.
  intros Hb Hl H env s. unfold bound_value in *.
  rewrite (scope_member this env bound Hb Hl). apply H.
Qed.

Lemma exec_for_nest (call : value -> M unit) (fp : Z) (this : value) (inner : stmt)
      (dims : list lcm_dimension) (ns : list Z) :
  Forall2 (fun ld n => forall env s, bound_value (scope this env) (size ld) s = Done n s)
          dims ns ->
  forall (dim : nat) (env : list (nat * Z)) (s : list byte),
    exec call fp this env (for_nest dim dims inner) s
    = for_each (row_major ns)
               (fun idx => exec call fp this (index_env dim idx env) inner) s.
Proof.
  induction 1 as [|ld n dims ns Hb _ IH]; intros dim env s.
  - cbn [for_nest row_major for_each index_env]. unfold bind.
    destruct (exec call fp this env inner s) as [[] s'|]; reflexivity.
  - cbn [for_nest Run.exec row_major]. unfold bind at 1. rewrite Hb.
    rewrite for_each_flat_map. apply for_each_ext. intros i s'.
    rewrite for_each_map. cbn [index_env]. apply IH.
Qed.

Lemma eval_generate_nest (call : string -> M value) (locals : list (string * value))
      (inner : rexpr) (dims : list lcm_dimension) (ns : list Z) :
  Forall2 (fun ld n =>
             (forall s, bound_value (fun name => assoc name locals) (size ld) s = Done n s)
             /\ 0 <= n) dims ns ->
  forall s : list byte,
    fmap (flatten (List.length dims)) (eval call locals (generate_nest dims inner)) s
    = repeat_read (product ns) (eval call locals inner) s.
Proof.
  induction 1 as [|ld n dims ns [Hb Hn] _ IH]; intros s.
  - cbn [generate_nest List.length flatten product fold_right repeat_read].
    unfold fmap, bind. destruct (eval call locals inner s); reflexivity.
  - cbn [generate_nest List.length product fold_right Run.eval].
    fold (product ns). rewrite repeat_read_mul.
    rewrite (bind_ext_l _ _ _ (repeat_read_ext _ _ _ (fun s' => eq_sym (IH s')))).
    rewrite (bind_ext_l _ _ _ (repeat_read_fmap _ _ _)).
    unfold fmap, bind. rewrite Hb.
    destruct (Z.ltb_spec n 0); [lia|].
    destruct (repeat_read (Z.to_nat n) _ s) as [vs s'|]; [|reflexivity].
    cbn [ret flatten]. now rewrite flat_map_concat_map.
Qed.


End Runtime.

(** *** The worked schemas *)

Lemma encode_is_fingerprint_then_members_witness :
  find_class [Samples] "Samples" = Some Samples
  /\ encode_object no_float ascii_encode [Samples] 1 samples_3 []
     = Done tt (big_endian 8 (Int64.fingerprint 2)
                ++ [x00; x00; x00; x03]
                ++ [x00; x00; x00; x0a; x00; x00; x00; x14; x00; x00; x00; x1e]).
Proof.
  split; [reflexivity|].
  apply (proj2 (encode_is_fingerprint_then_members
                  no_float ascii_encode [Samples] 0 "Samples"
                  [("n", VInt 3); ("data", VList [VInt 10; VInt 20; VInt 30])]
                  Samples eq_refl)).
  exists [[x00; x00; x00; x03];
          [x00; x00; x00; x0a; x00; x00; x00; x14; x00; x00; x00; x1e]].
  split; [|reflexivity].
  repeat constructor.
Defined.



Lemma decode_checks_fingerprint_first_witness :
  find_class [Answer] "Answer" = Some Answer
  /\ NoDup (map lm_membername (ls_members Answer))
  /\ decode_class no_float ascii_decode [Answer] 1 "Answer"
        (big_endian 8 (Int64.fingerprint 4) ++ [x00; x00; x00; x2a])
     = Done (VObject "Answer" [("x", VInt 42)]) []
  /\ decode_class no_float ascii_decode [Answer] 1 "Answer"
        ([x00; x00; x00; x00; x00; x00; x00; x09] ++ [x00; x00; x00; x2a])
     = Thrown TypeMismatch [x00; x00; x00; x2a].
Proof.
  assert (Hnd : NoDup (map lm_membername (ls_members Answer))).
  { cbn. constructor; [intros [] | constructor]. }
  destruct (decode_checks_fingerprint_first
              no_float ascii_decode [Answer] 0 "Answer" Answer eq_refl Hnd)
    as (_ & _ & Hother & Hmatch & _).
  split; [reflexivity|]. split; [exact Hnd|]. split.
  - etransitivity; [exact (Hmatch [x00; x00; x00; x2a]) | reflexivity].
  - apply Hother; [reflexivity | discriminate].
Defined.



(** C5 at a counter named like a loop variable.  For
    [struct Hidden { int32_t i0; int32_t data[i0]; }] the loop that
    [emit_struct] prints is [for (var i0 = 0; i0 < i0; i0++)], and its
    bound is the loop's own variable, not the member.  [encode] of an
    instance with [i0 = 3] and three elements writes the fingerprint and
    the counter and no element, twelve bytes.  [decode] reads [i0] and
    then [i0] elements: the instance is what it returns on the
    twenty-four bytes that hold the three elements, which are not the
    bytes [encode] wrote. *)
Theorem hidden_counter_writes_no_element :
  emit_encode_member hidden_data
  = (emit 2 "for (var i0 = 0; i0 < i0; i0++) {"
     ++ emit 3 "buf.putInt32(data[i0]);"
     ++ emit 2 "}")%string
  /\ emit_encode_member hidden_data = print_stmt 2 (encode_member hidden_data)
  /\ emit_decode_member hidden_data
     = emit 2 "final data = List.generate(i0, (_) => buf.getInt32());"
  /\ emit_decode_member hidden_data = print_dstmt (decode_member hidden_data)
  /\ member hidden_3 "i0" = Some (VInt 3)
  /\ member hidden_3 "data" = Some (VList [VInt 10; VInt 20; VInt 30])
  /\ encode_object no_float ascii_encode [Hidden] 1 hidden_3 []
     = Done tt (big_endian 8 (Int64.fingerprint 7) ++ [x00; x00; x00; x03])
  /\ decode_class no_float ascii_decode [Hidden] 1 "Hidden"
        (big_endian 8 (Int64.fingerprint 7)
         ++ [x00; x00; x00; x03]
         ++ [x00; x00; x00; x0a; x00; x00; x00; x14; x00; x00; x00; x1e])
     = Done hidden_3 [].
Proof. repeat split; reflexivity. Qed.

End RunFacts.

(* ================================================================== *)
(** ** Further properties of the emitter *)

Module MoreEmitFacts.
Import Text Schema Emit Dart Spec Examples Notions PrintFacts.

(** *** [dots_to_slashes] *)

(** X1.  [dots_to_slashes] changes nothing but the dots: the result is as
    long as the package name, holds no dot, has a slash where the name has
    a dot and the name's character everywhere else, and is the name itself
    when the name has no dot. *)
Theorem dots_to_slashes_only_dots (s : string) :
  String.length (dots_to_slashes s) = String.length s
  /\ contains "."%char (dots_to_slashes s) = false
  /\ (forall n c, String.get n s = Some c ->
                  String.get n (dots_to_slashes s)
                  = Some (if (c =? ".")%char then "/"%char else c))
  /\ (contains "."%char s = false -> dots_to_slashes s = s)
  /\ count_char "/"%char (dots_to_slashes s)
     = (count_char "/"%char s + count_char "."%char s)%nat.
Proof.
  repeat split.
  - induction s as [|c s IH]; cbn; [reflexivity | now rewrite IH].
  - induction s as [|c s IH]; cbn [dots_to_slashes contains]; [reflexivity|].
    rewrite IH, orb_false_r. unfold G_DIR_SEPARATOR.
    destruct (Ascii.eqb_spec c "."%char) as [->|Hc]; [reflexivity|].
    now apply Ascii.eqb_neq.
  - induction s as [|a s IH]; intros n c; [discriminate|].
    destruct n as [|n]; cbn [String.get dots_to_slashes].
    + intros E; injection E as ->. reflexivity.
    + apply IH.
  - induction s as [|c s IH]; cbn [dots_to_slashes contains]; [reflexivity|].
    intros H. apply orb_false_iff in H as [Hc Hs].
    rewrite Hc, IH by assumption. reflexivity.
  - induction s as [|c s IH]; cbn [dots_to_slashes count_char]; [reflexivity|].
    rewrite IH. unfold G_DIR_SEPARATOR.
    destruct (Ascii.eqb_spec c "."%char) as [->|Hc]; [cbn; lia|].
    destruct (c =? "/")%char; lia.
Qed.

(** *** [to_pascal_case] *)

Lemma toupper_idempotent (c : ascii) : toupper (toupper c) = toupper c.
Proof. destruct c as [[] [] [] [] [] [] [] []]; reflexivity. Qed.

Lemma toupper_not_lower (c : ascii) : is_lower (toupper c) = false.
Proof. destruct c as [[] [] [] [] [] [] [] []]; reflexivity. Qed.

Lemma toupper_underscore (c : ascii) :
  (c =? "_")%char = false -> (toupper c =? "_")%char = false.
Proof. destruct c as [[] [] [] [] [] [] [] []]; intros H; try reflexivity; discriminate H. Qed.

Lemma to_pascal_case_loop_length (b : bool) (s : string) :
  (String.length (to_pascal_case_loop b s) + count_char "_"%char s)%nat = String.length s.
Proof.
  revert b; induction s as [|c s IH]; intros b; [reflexivity|].
  cbn [to_pascal_case_loop count_char String.length].
  destruct (c =? "_")%char.
  - rewrite <- (IH true). lia.
  - destruct b; cbn [String.length]; rewrite <- (IH false); lia.
Qed.

Lemma to_pascal_case_loop_clean (s : string) :
  contains "_"%char s = false ->
  to_pascal_case_loop false s = s
  /\ to_pascal_case_loop true s = capitalize s.
Proof.
  induction s as [|c s IH]; [split; reflexivity|].
  cbn [contains]. intros H. apply orb_false_iff in H as [Hc Hs].
  destruct (IH Hs) as [IHf _].
  cbn [to_pascal_case_loop capitalize]. rewrite Hc, IHf. split; reflexivity.
Qed.

Lemma to_pascal_case_loop_capital (s : string) :
  starts_lower (to_pascal_case_loop true s) = false.
Proof.
  induction s as [|c s IH]; [reflexivity|]. cbn [to_pascal_case_loop].
  destruct (c =? "_")%char; [exact IH|]. cbn [starts_lower]. apply toupper_not_lower.
Qed.

(** X2.  [to_pascal_case] writes one character for every character of the
    name that is no underscore, so the result fits the [strlen(s) + 1]
    bytes it allocates; the result has no underscore and no lower-case
    first letter, and converting it again changes nothing. *)
Theorem to_pascal_case_fits_and_is_stable (s : string) :
  (String.length (to_pascal_case s) + count_char "_"%char s)%nat = String.length s
  /\ (String.length (to_pascal_case s) <= String.length s)%nat
  /\ contains "_"%char (to_pascal_case s) = false
  /\ starts_lower (to_pascal_case s) = false
  /\ to_pascal_case (to_pascal_case s) = to_pascal_case s.
Proof.
  pose proof (to_pascal_case_loop_length true s) as Hlen.
  pose proof (EmitFacts.to_pascal_case_no_underscore true s) as Hclean.
  fold (to_pascal_case s) in Hlen, Hclean.
  pose proof to_pascal_case_loop_capital as Hfirst.
  split; [exact Hlen|]. split; [lia|]. split; [exact Hclean|].
  split; [apply Hfirst|].
  unfold to_pascal_case at 1.
  rewrite (proj2 (to_pascal_case_loop_clean _ Hclean)).
  unfold to_pascal_case. clear Hlen Hclean.
  induction s as [|c s IH]; [reflexivity|]. cbn [to_pascal_case_loop].
  destruct (c =? "_")%char; [exact IH|].
  cbn [capitalize]. now rewrite toupper_idempotent.
Qed.

(** *** [make_dirs_for_file] *)

Lemma make_dirs_scan_entries (rest : string) :
  forall (pre : string) (skip : bool) (dir : string),
    In dir (make_dirs_scan pre rest skip) ->
    exists mid tail : string,
      dir = (pre ++ mid)%string /\ rest = (mid ++ "/" ++ tail)%string.
Proof.
  induction rest as [|c rest IH]; intros pre skip dir Hin; [contradiction|].
  cbn [make_dirs_scan] in Hin.
  assert (Hlater : In dir (make_dirs_scan (pre ++ String c EmptyString) rest false)
                   \/ In dir (make_dirs_scan (pre ++ String c EmptyString) rest true) ->
                   exists mid tail : string,
                     dir = (pre ++ mid)%string
                     /\ String c rest = (mid ++ "/" ++ tail)%string).
  { intros [H | H]; apply IH in H as (mid & tail & -> & ->);
      exists (String c mid), tail; rewrite append_assoc; split; reflexivity. }
  destruct skip; [auto|].
  destruct (Ascii.eqb_spec c "/"%char) as [->|Hc]; [|auto].
  destruct Hin as [<- | Hin]; [|auto].
  exists EmptyString, rest. now rewrite append_nil_r.
Qed.

Lemma make_dirs_scan_longer (rest : string) :
  forall (pre : string) (skip : bool) (dir : string),
    In dir (make_dirs_scan pre rest skip) ->
    (String.length pre <= String.length dir)%nat.
Proof.
  intros pre skip dir Hin.
  apply make_dirs_scan_entries in Hin as (mid & tail & -> & _).
  clear. induction pre as [|c pre IH]; cbn; lia.
Qed.

Lemma length_append (a b : string) :
  String.length (a ++ b) = (String.length a + String.length b)%nat.
Proof. induction a as [|c a IH]; cbn; [reflexivity | now rewrite IH]. Qed.

Lemma make_dirs_scan_sorted (rest : string) :
  forall (pre : string) (skip : bool),
    StronglySorted (fun a b => (String.length a < String.length b)%nat)
                   (make_dirs_scan pre rest skip).
Proof.
  induction rest as [|c rest IH]; intros pre skip; cbn [make_dirs_scan]; [constructor|].
  destruct skip; [apply IH|].
  destruct (c =? "/")%char; [|apply IH].
  constructor; [apply IH|].
  apply Forall_forall. intros dir Hin.
  apply make_dirs_scan_longer in Hin. rewrite length_append in Hin. cbn in Hin. lia.
Qed.

Lemma make_dirs_scan_complete (rest : string) :
  forall (pre : string) (skip : bool),
    no_double_slash rest = true ->
    (skip = true -> forall tail, rest <> String "/" tail) ->
    make_dirs_scan pre rest skip = slash_prefixes pre rest.
Proof.
  induction rest as [|c rest IH]; intros pre skip Hnd Hskip; [reflexivity|].
  cbn [make_dirs_scan slash_prefixes].
  assert (Hrest : no_double_slash rest = true).
  { cbn [no_double_slash] in Hnd. destruct rest; [reflexivity|].
    now apply andb_true_iff in Hnd. }
  destruct (Ascii.eqb_spec c "/"%char) as [->|Hc].
  - destruct skip; [exfalso; now apply (Hskip eq_refl rest)|].
    f_equal. apply IH; [exact Hrest|].
    intros _ tail ->. cbn in Hnd. discriminate.
  - destruct skip; apply IH; try exact Hrest; intros; discriminate.
Qed.

(** X3.  Every [mkdir] of [make_dirs_for_file] is given what stands before
    one of the path's slashes, each call a longer part than the one before
    (a directory comes after the directories above it); and when no slash
    of the path is followed at once by another slash, there is a call for
    every slash of the path.  (The character behind a slash is passed
    over unseen, so the second of two adjacent slashes gets no call.) *)
Theorem make_dirs_for_file_makes_parents_first (path : string) :
  (forall dir, In dir (make_dirs_for_file path) ->
               exists tail : string, path = (dir ++ "/" ++ tail)%string)
  /\ StronglySorted (fun a b => (String.length a < String.length b)%nat)
                    (make_dirs_for_file path)
  /\ (no_double_slash path = true ->
      make_dirs_for_file path = slash_prefixes EmptyString path)
  /\ (forall a b : string,
        contains "/"%char a = false ->
        make_dirs_for_file (a ++ "//" ++ b) = a :: make_dirs_scan (a ++ "//") b false
        /\ ~ In (a ++ "/")%string (make_dirs_for_file (a ++ "//" ++ b))).
Proof.
  split.
  { intros dir Hin. apply make_dirs_scan_entries in Hin as (mid & tail & -> & ->).
    exists tail. now rewrite append_assoc. }
  split; [apply make_dirs_scan_sorted|].
  split.
  { intros Hnd. apply make_dirs_scan_complete; [exact Hnd | discriminate]. }
  intros a b Ha. unfold make_dirs_for_file.
  assert (Hgen : forall (a pre : string),
             contains "/"%char a = false ->
             make_dirs_scan pre (a ++ "//" ++ b) false
             = (pre ++ a)%string :: make_dirs_scan (pre ++ a ++ "//") b false).
  { clear a Ha. induction a as [|c a IH]; intros pre Ha.
    - cbn [append make_dirs_scan Ascii.eqb Bool.eqb].
      now rewrite append_nil_r, append_assoc.
    - cbn [contains] in Ha. apply orb_false_iff in Ha as [Hc Ha].
      cbn [append make_dirs_scan]. rewrite Hc, (IH _ Ha).
      now rewrite !append_assoc. }
  rewrite (Hgen a EmptyString Ha). cbn [append].
  split; [reflexivity|].
  intros [E | Hin].
  - apply (f_equal String.length) in E. rewrite length_append in E. cbn in E. lia.
  - apply make_dirs_scan_longer in Hin. rewrite !length_append in Hin. cbn in Hin. lia.
Qed.

(** *** [emit_comment] *)

Lemma split_on_clean (sep : ascii) (s : string) :
  Forall (fun piece => contains sep piece = false) (split_on sep s).
Proof.
  induction s as [|c s IH]; cbn [split_on]; [repeat constructor|].
  destruct (Ascii.eqb_spec c sep) as [->|Hc]; [constructor; [reflexivity | exact IH]|].
  destruct (split_on sep s) as [|piece pieces]; [repeat constructor; cbn|].
  - apply orb_false_iff. split; [now apply Ascii.eqb_neq | reflexivity].
  - inversion IH; subst. constructor; [|assumption].
    cbn [contains]. apply orb_false_iff. split; [now apply Ascii.eqb_neq | assumption].
Qed.

Lemma join_cons (sep : ascii) (first piece : string) (pieces : list string) :
  join sep (first :: piece :: pieces)
  = (first ++ String sep (join sep (piece :: pieces)))%string.
Proof. reflexivity. Qed.

Lemma join_split_on (sep : ascii) (s : string) : join sep (split_on sep s) = s.
Proof.
  induction s as [|c s IH]; [reflexivity|]. cbn [split_on].
  destruct (EmitFacts.split_on_cons sep s) as (piece & pieces & E).
  rewrite E in *.
  destruct (Ascii.eqb_spec c sep) as [->|Hc].
  - rewrite join_cons, IH. reflexivity.
  - destruct pieces as [|piece' pieces].
    + cbn [join] in *. now rewrite IH.
    + rewrite join_cons in *. cbn [append]. now rewrite IH.
Qed.

Lemma length_split_on (sep : ascii) (s : string) :
  List.length (split_on sep s) = S (count_char sep s).
Proof.
  induction s as [|c s IH]; [reflexivity|]. cbn [split_on count_char].
  destruct (c =? sep)%char; cbn [List.length]; [now rewrite IH|].
  destruct (split_on sep s); cbn in *; lia.
Qed.

(** X4.  [emit_comment] prints nothing for a NULL or empty comment, and for
    any other one line per line of the comment: the indentation, three
    slashes and, when the line is not empty, a blank and the line.  No
    printed line holds a line feed of the comment, so each starts with the
    slashes, and the lines joined by line feeds are the comment again. *)
Theorem emit_comment_lines (indent : nat) (comment : string) :
  emit_comment indent None = EmptyString
  /\ emit_comment indent (Some EmptyString) = EmptyString
  /\ (comment <> EmptyString ->
      exists lines : list string,
        join (ascii_of_nat 10) lines = comment
        /\ List.length lines = S (count_char (ascii_of_nat 10) comment)
        /\ Forall (fun line => contains (ascii_of_nat 10) line = false) lines
        /\ emit_comment indent (Some comment)
           = cat (map (fun line =>
                         spaces (INDENT indent) ++ "///"
                         ++ (if nonempty line then " " ++ line else EmptyString) ++ nl)
                      lines))%string.
Proof.
  split; [reflexivity|]. split; [reflexivity|].
  intros Hne. exists (split_on (ascii_of_nat 10) comment).
  split; [apply join_split_on|]. split; [apply length_split_on|].
  split; [apply split_on_clean|].
  unfold emit_comment, g_strsplit_lines.
  destruct comment as [|c comment]; [contradiction|].
  f_equal. apply map_ext. intros line. unfold emit.
  destruct (nonempty line); now rewrite ?append_assoc.
Qed.

(** *** The path buffer *)

Lemma length_substring_0 (n : nat) (s : string) :
  String.length (substring 0 n s) = Nat.min n (String.length s).
Proof.
  revert n; induction s as [|c s IH]; intros [|n]; cbn; try reflexivity.
  now rewrite IH.
Qed.

Lemma substring_0_prefix (n : nat) (s : string) :
  exists tail : string, s = (substring 0 n s ++ tail)%string.
Proof.
  revert n; induction s as [|c s IH]; intros [|n]; cbn.
  - now exists EmptyString.
  - now exists EmptyString.
  - now exists (String c s).
  - destruct (IH n) as [tail E]. exists tail. now rewrite <- E.
Qed.

(** X5.  The path [emit_dart] builds never holds more than the 1023
    characters its buffer has room for, and is always the beginning of the
    text [dart_path/package_dir/shortname.g.dart]: a name that does not
    fit is cut at the end, never changed. *)
Theorem output_path_fits_the_buffer (dart_path : string) (ls : lcm_struct) :
  (String.length (output_path dart_path ls) <= 1023)%nat
  /\ String.length (output_path dart_path ls)
     = Nat.min 1023 (String.length (path_format dart_path ls))
  /\ exists tail : string,
       path_format dart_path ls = (output_path dart_path ls ++ tail)%string.
Proof.
  unfold output_path, snprintf_path.
  rewrite length_substring_0. split; [lia|]. split; [reflexivity|].
  apply substring_0_prefix.
Qed.

(** *** The batch *)

Lemma emit_dart_loop_outcome (h : host) (dart_path : string) (make_dirs : bool)
      (todo : list lcm_struct) :
  forall d : disk,
    (fst (emit_dart_loop h dart_path make_dirs todo d) = 0
     \/ fst (emit_dart_loop h dart_path make_dirs todo d) = -1)
    /\ (fst (emit_dart_loop h dart_path make_dirs todo d) = 0
        <-> Forall (opens h dart_path) todo)
    /\ (Forall (opens h dart_path) todo ->
        snd (emit_dart_loop h dart_path make_dirs todo d)
        = {| written := rev (map (file_of h dart_path) (filter (due h dart_path) todo))
                        ++ written d;
             made_dirs := made_dirs d
                          ++ (if make_dirs
                              then List.concat
                                     (map (fun ls => make_dirs_for_file (output_path dart_path ls))
                                          todo)
                              else []);
             stderr := stderr d |}).
Proof.
  induction todo as [|ls todo IH]; intros d.
  { cbn. split; [now left|]. split; [split; [constructor | reflexivity]|].
    intros _. destruct d, make_dirs; cbn; now rewrite ?app_nil_r. }
  cbn [emit_dart_loop filter map List.concat]. fold (due h dart_path ls).
  set (d1 := if make_dirs then _ else d).
  destruct (IH d1) as (IH1 & IH2 & IH3).
  assert (Hd1 : written d1 = written d /\ stderr d1 = stderr d
                /\ made_dirs d1
                   = made_dirs d ++ (if make_dirs
                                     then make_dirs_for_file (output_path dart_path ls)
                                     else [])).
  { subst d1. destruct make_dirs; cbn; now rewrite ?app_nil_r. }
  destruct Hd1 as (Hw & He & Hm).
  destruct (due h dart_path ls) eqn:Hdue; cbn [negb].
  - unfold emit_struct.
    destruct (fopen_ok h (output_path dart_path ls)) eqn:Hopen.
    + cbn [Z.eqb negb]. set (d2 := {| written := _ |}).
      destruct (IH d2) as (IH1' & IH2' & IH3').
      split; [exact IH1'|]. split.
      * rewrite IH2'. split; intros H.
        -- constructor; [intros _; exact Hopen | exact H].
        -- now inversion H.
      * intros H. inversion H; subst. rewrite IH3' by assumption.
        subst d2. cbn [written made_dirs stderr]. rewrite Hw, He, Hm.
        f_equal.
        -- cbn [map rev]. now rewrite <- app_assoc.
        -- destruct make_dirs; cbn [map List.concat]; now rewrite <- ?app_assoc, ?app_nil_r.
    + cbn [Z.eqb negb fst snd]. split; [now right|]. split.
      * split; [discriminate|]. intros H. inversion H as [|? ? Ho _]; subst.
        unfold opens in Ho. rewrite Hdue, Hopen in Ho. discriminate (Ho eq_refl).
      * intros H. inversion H as [|? ? Ho _]; subst.
        unfold opens in Ho. rewrite Hdue, Hopen in Ho. discriminate (Ho eq_refl).
  - split; [exact IH1|]. split.
    + rewrite IH2. split; intros H.
      * constructor; [unfold opens; rewrite Hdue; discriminate | exact H].
      * now inversion H.
    + intros H. inversion H; subst. rewrite IH3 by assumption.
      rewrite Hw, He, Hm. f_equal.
      destruct make_dirs; cbn [map List.concat]; now rewrite <- ?app_assoc, ?app_nil_r.
Qed.

Lemma assoc_files (h : host) (dart_path : string) (path : string)
      (todo : list lcm_struct) (before : list (string * string)) :
  Run.assoc path (map (file_of h dart_path) todo ++ before)
  = match find (fun ls => (output_path dart_path ls =? path)%string) todo with
    | Some ls => Some (snd (file_of h dart_path ls))
    | None => Run.assoc path before
    end.
Proof.
  induction todo as [|ls todo IH]; [reflexivity|].
  cbn [map app Run.assoc find file_of snd].
  now destruct (output_path dart_path ls =? path)%string.
Qed.

Lemma find_unique {A : Type} (f : A -> string) (path : string) (l : list A) (x : A) :
  NoDup (map f l) -> In x l -> f x = path ->
  find (fun y => (f y =? path)%string) l = Some x.
Proof.
  induction l as [|y l IH]; intros Hnd Hin E; [contradiction|].
  cbn [map] in Hnd. inversion Hnd as [|? ? Hy Hnd']; subst. cbn [find].
  destruct Hin as [-> | Hin]; [now rewrite String.eqb_refl|].
  destruct (String.eqb_spec (f y) (f x)) as [E|_]; [|now apply IH].
  exfalso. apply Hy. rewrite E. now apply in_map.
Qed.

(** X6.  [emit_dart] returns 0 or -1, and 0 exactly when the file of every
    struct that is due opens.  Then it has opened one file per due struct,
    in the order of the structs, and none for a struct that is not due.
    Opening truncates: the file at a path afterwards is the text of the
    last due struct that has this path, and what was there when no due
    struct has it; so two due structs whose paths coincide (as paths cut
    to the buffer can) leave one file, the later one's, and when the paths
    of the due structs differ every one of them has left its own file.
    With [--dart-mkdir] on, the directories of every struct of the batch
    are made, the ones that are not due included; with the option off
    none is made. *)
Theorem emit_dart_outcome (h : host) (lcm : lcmgen) (d : disk) :
  (fst (emit_dart h lcm d) = 0 \/ fst (emit_dart h lcm d) = -1)
  /\ (fst (emit_dart h lcm d) = 0
      <-> Forall (opens h (destination (gopt lcm))) (structs lcm))
  /\ (Forall (opens h (destination (gopt lcm))) (structs lcm) ->
      snd (emit_dart h lcm d)
      = {| written := rev (map (file_of h (destination (gopt lcm)))
                               (filter (due h (destination (gopt lcm))) (structs lcm)))
                      ++ written d;
           made_dirs := made_dirs d
                        ++ (if dart_mkdir (gopt lcm)
                            then List.concat
                                   (map (fun ls =>
                                           make_dirs_for_file
                                             (output_path (destination (gopt lcm)) ls))
                                        (structs lcm))
                            else []);
           stderr := stderr d |})
  /\ (Forall (opens h (destination (gopt lcm))) (structs lcm) ->
      (forall path : string,
          file_at path (snd (emit_dart h lcm d))
          = match last_at (destination (gopt lcm)) path
                          (filter (due h (destination (gopt lcm))) (structs lcm)) with
            | Some ls => Some (snd (file_of h (destination (gopt lcm)) ls))
            | None => file_at path d
            end)
      /\ (NoDup (map (output_path (destination (gopt lcm)))
                     (filter (due h (destination (gopt lcm))) (structs lcm))) ->
          forall ls : lcm_struct,
            In ls (structs lcm) -> due h (destination (gopt lcm)) ls = true ->
            file_at (output_path (destination (gopt lcm)) ls) (snd (emit_dart h lcm d))
            = Some (if fprintf_ok h (output_path (destination (gopt lcm)) ls)
                    then emit_struct_text ls else EmptyString))).
Proof.
  unfold emit_dart.
  destruct (emit_dart_loop_outcome h (destination (gopt lcm)) (dart_mkdir (gopt lcm))
              (structs lcm) d) as (H1 & H2 & H3).
  split; [exact H1|]. split; [exact H2|]. split; [exact H3|].
  intros Hopen.
  assert (Hat : forall path : string,
             file_at path (snd (emit_dart_loop h (destination (gopt lcm))
                                               (dart_mkdir (gopt lcm)) (structs lcm) d))
             = match last_at (destination (gopt lcm)) path
                             (filter (due h (destination (gopt lcm))) (structs lcm)) with
               | Some ls => Some (snd (file_of h (destination (gopt lcm)) ls))
               | None => file_at path d
               end).
  { intros path. unfold file_at, last_at. rewrite (H3 Hopen). cbn [written].
    rewrite <- map_rev. apply assoc_files. }
  split; [exact Hat|].
  intros Hnd ls Hin Hdue. rewrite Hat. unfold last_at.
  rewrite (find_unique (output_path (destination (gopt lcm))) _ _ ls); [reflexivity | | |reflexivity].
  - rewrite map_rev. apply NoDup_rev. exact Hnd.
  - rewrite <- in_rev. apply filter_In. now split.
Qed.

(** *** The fingerprint constant *)

Lemma rotl1_arith (h : Z) :
  Int64.in_range h ->
  Int64.unsigned (Int64.fingerprint h)
  = (2 * Int64.unsigned h) mod 2 ^ 64 + Int64.unsigned h / 2 ^ 63.
Proof.
  intros Hr. rewrite EmitFacts.fingerprint_unsigned. unfold rotl1.
  rewrite EmitFacts.lor_sign_bit, EmitFacts.sign_bit by assumption.
  rewrite Z.shiftl_mul_pow2 by lia.
  unfold Int64.in_range, Int64.unsigned in *. change (2 ^ 1) with 2.
  destruct (Z.ltb_spec h 0).
  - replace (h mod 2 ^ 64) with (h + 2 ^ 64)
      by (apply Z.mod_unique_pos with (q := -1); lia).
    replace ((h + 2 ^ 64) / 2 ^ 63) with 1
      by (apply Z.div_unique_pos with (r := h + 2 ^ 63); lia).
    replace ((2 * (h + 2 ^ 64)) mod 2 ^ 64) with (2 * h + 2 ^ 64)
      by (apply Z.mod_unique_pos with (q := 1); lia).
    symmetry. apply Z.mod_unique_pos with (q := -1); lia.
  - rewrite (Z.mod_small h) by lia. rewrite (Z.div_small h) by lia.
    rewrite !Z.add_0_r. f_equal. lia.
Qed.

(** X7.  The fingerprint transform loses nothing of the hash: rotating the
    constant back by one bit gives the hash, so two hashes with the same
    constant are the same hash. *)
Theorem fingerprint_keeps_the_hash (h : Z) (Hrange : Int64.in_range h) :
  Int64.wrap (Int64.unsigned (Int64.fingerprint h) / 2
              + (Int64.unsigned (Int64.fingerprint h) mod 2) * 2 ^ 63) = h
  /\ forall h' : Z,
       Int64.in_range h' -> Int64.fingerprint h = Int64.fingerprint h' -> h = h'.
Proof.
  assert (Hback : forall x, Int64.in_range x ->
             Int64.wrap (Int64.unsigned (Int64.fingerprint x) / 2
                         + (Int64.unsigned (Int64.fingerprint x) mod 2) * 2 ^ 63) = x).
  { intros x Hx. rewrite rotl1_arith by assumption.
    unfold Int64.in_range, Int64.unsigned, Int64.wrap in *.
    destruct (Z.ltb_spec x 0).
    - replace (x mod 2 ^ 64) with (x + 2 ^ 64)
        by (apply Z.mod_unique_pos with (q := -1); lia).
      replace ((x + 2 ^ 64) / 2 ^ 63) with 1
        by (apply Z.div_unique_pos with (r := x + 2 ^ 63); lia).
      replace ((2 * (x + 2 ^ 64)) mod 2 ^ 64) with (2 * x + 2 ^ 64)
        by (apply Z.mod_unique_pos with (q := 1); lia).
      replace ((2 * x + 2 ^ 64 + 1) / 2) with (x + 2 ^ 63)
        by (apply Z.div_unique_pos with (r := 1); lia).
      replace ((2 * x + 2 ^ 64 + 1) mod 2) with 1
        by (apply Z.mod_unique_pos with (q := x + 2 ^ 63); lia).
      replace ((x + 2 ^ 63 + 1 * 2 ^ 63 + 2 ^ 63) mod 2 ^ 64) with (x + 2 ^ 63)
        by (apply Z.mod_unique_pos with (q := 1); lia).
      lia.
    - rewrite (Z.mod_small x) by lia. rewrite (Z.div_small x) by lia.
      rewrite (Z.mod_small (2 * x)) by lia. rewrite Z.add_0_r.
      replace (2 * x / 2) with x by (apply Z.div_unique_pos with (r := 0); lia).
      replace ((2 * x) mod 2) with 0 by (apply Z.mod_unique_pos with (q := x); lia).
      rewrite Z.mod_small by lia. lia. }
  split; [now apply Hback|].
  intros h' Hr' E. rewrite <- (Hback h Hrange), <- (Hback h' Hr'). now rewrite E.
Qed.

Lemma fingerprint_keeps_the_hash_witness :
  Int64.in_range (-2)
  /\ Int64.fingerprint (-2) = -3
  /\ Int64.wrap (Int64.unsigned (-3) / 2 + (Int64.unsigned (-3) mod 2) * 2 ^ 63) = -2.
Proof.
  assert (Hr : Int64.in_range (-2)) by (unfold Int64.in_range; lia).
  split; [exact Hr|]. split; [reflexivity|].
  exact (proj1 (fingerprint_keeps_the_hash (-2) Hr)).
Defined.

Lemma hex_digit_value_of (d : Z) :
  0 <= d < 16 -> hex_digit_value (Int64.hex_digit d) = Some d.
Proof.
  intros H.
  assert (d = 0 \/ d = 1 \/ d = 2 \/ d = 3 \/ d = 4 \/ d = 5 \/ d = 6 \/ d = 7
          \/ d = 8 \/ d = 9 \/ d = 10 \/ d = 11 \/ d = 12 \/ d = 13 \/ d = 14 \/ d = 15)
    as Hd by lia.
  repeat (destruct Hd as [-> | Hd]; [reflexivity|]). subst. reflexivity.
Qed.

Lemma hex_value_from_append (s t : string) :
  forall acc : Z,
    hex_value_from acc (s ++ t)
    = match hex_value_from acc s with
      | Some a => hex_value_from a t
      | None => None
      end.
Proof.
  induction s as [|c s IH]; intros acc; cbn [append hex_value_from]; [reflexivity|].
  destruct (hex_digit_value c); [apply IH | reflexivity].
Qed.

Lemma hex_value_from_digits (k : nat) :
  forall acc z : Z,
    hex_value_from acc (Int64.hex_digits k z)
    = Some (acc * 16 ^ Z.of_nat k + z mod 16 ^ Z.of_nat k).
Proof.
  induction k as [|k IH]; intros acc z.
  - cbn. rewrite Z.mod_1_r. f_equal. lia.
  - cbn [Int64.hex_digits]. rewrite hex_value_from_append, IH.
    cbn [hex_value_from].
    rewrite hex_digit_value_of by (apply Z.mod_pos_bound; lia).
    f_equal.
    replace (Z.of_nat (S k)) with (1 + Z.of_nat k) by lia.
    rewrite Z.pow_add_r by lia. change (16 ^ 1) with 16.
    rewrite (Z.rem_mul_r z 16 (16 ^ Z.of_nat k)) by lia. lia.
Qed.

Lemma length_hex_digits (k : nat) (z : Z) : String.length (Int64.hex_digits k z) = k.
Proof.
  revert z; induction k as [|k IH]; intros z; [reflexivity|].
  cbn [Int64.hex_digits]. rewrite length_append, IH. cbn. lia.
Qed.

(** X8.  The fingerprint constant is printed with exactly sixteen
    hexadecimal digits, and read as a hexadecimal number and into a 64-bit
    signed [int] the digits are the fingerprint again: the constant of the
    emitted class is the value [emit_struct] computed. *)
Theorem fingerprint_literal_reads_back (ls : lcm_struct) :
  emit_fingerprint_constant ls
  = (emit 1 ("static const int LCM_FINGERPRINT = 0x"
             ++ Int64.PRIx64_016 (Int64.fingerprint (ls_hash ls)) ++ ";") ++ nl)%string
  /\ String.length (Int64.PRIx64_016 (Int64.fingerprint (ls_hash ls))) = 16%nat
  /\ hex_value (Int64.PRIx64_016 (Int64.fingerprint (ls_hash ls)))
     = Some (Int64.unsigned (Int64.fingerprint (ls_hash ls)))
  /\ Int64.wrap (Int64.unsigned (Int64.fingerprint (ls_hash ls)))
     = Int64.fingerprint (ls_hash ls)
  /\ Run.LCM_FINGERPRINT_of ls = Int64.fingerprint (ls_hash ls).
Proof.
  split; [reflexivity|]. split; [apply length_hex_digits|].
  split.
  { unfold hex_value, Int64.PRIx64_016. rewrite hex_value_from_digits.
    change (16 ^ Z.of_nat 16) with (2 ^ 64). f_equal.
    unfold Int64.unsigned. rewrite Z.mod_mod by lia. lia. }
  split; apply EmitFacts.wrap_unsigned_wrap.
Qed.

(** *** Field declarations *)

Lemma cat_const (piece : string) {A : Type} (l : list A) :
  cat (map (fun _ => emit_continue piece) l) = times (List.length l) piece.
Proof. induction l as [|a l IH]; cbn; [reflexivity | now rewrite IH]. Qed.

Lemma dart_type_head (s : string) :
  dart_type s -> exists c r, s = String c r /\ c <> "<"%char.
Proof.
  assert (Hname : forall name, type_name_like name ->
            exists c r, name = String c r /\ c <> "<"%char).
  { intros [|c r] (Hne & Hlt & _); [contradiction|].
    exists c, r. split; [reflexivity|]. cbn in Hlt.
    apply orb_false_iff in Hlt. destruct Hlt as [Hc _].
    now apply Ascii.eqb_neq in Hc. }
  intros [name Hn | name arg Hn _]; [now apply Hname|].
  destruct (Hname name Hn) as (c & r & -> & Hc).
  exists c. eexists. split; [reflexivity | exact Hc].
Qed.

Lemma first_angle (a : string) :
  forall a' x y : string,
    contains "<" a = false -> contains "<" a' = false ->
    (a ++ String "<" x = a' ++ String "<" y)%string -> a = a' /\ x = y.
Proof.
  induction a as [|c a IH]; intros [|c' a'] x y Ha Ha' E; cbn in *.
  - injection E as <-. now split.
  - injection E as <- _. now rewrite Ascii.eqb_refl in Ha'.
  - injection E as -> _. now rewrite Ascii.eqb_refl in Ha.
  - injection E as -> E. apply orb_false_iff in Ha, Ha'.
    destruct (IH a' x y (proj2 Ha) (proj2 Ha') E) as [-> ->]. now split.
Qed.

(** X10.  A member's field is declared with its mapped type, and an array
    member's with [List], one [<] per dimension, the element's type and
    one [>] per dimension.  For one dimension that is [List<T>]; from two
    dimensions on it is [List<<T>>] and the like, which is no type: not
    the nested [List<List<T>>] of the value that [decode] builds for the
    member, nor any name with a type argument. *)
Theorem array_field_declaration (lm : lcm_member)
        (Hname : type_name_like (map_type_dart (lctypename (lm_type lm)))) :
  emit_field lm
  = (emit_comment 1 (lm_comment lm)
     ++ emit 1 (declared_type lm ++ " " ++ lm_membername lm ++ ";"))%string
  /\ (List.length (lm_dimensions lm) <= 1 ->
      declared_type lm
      = list_of (List.length (lm_dimensions lm)) (map_type_dart (lctypename (lm_type lm)))
      /\ dart_type (declared_type lm))%nat
  /\ (2 <= List.length (lm_dimensions lm) ->
      declared_type lm
      <> list_of (List.length (lm_dimensions lm)) (map_type_dart (lctypename (lm_type lm)))
      /\ ~ dart_type (declared_type lm))%nat.
Proof.
  unfold emit_field, declared_type.
  set (T := map_type_dart (lctypename (lm_type lm))) in *.
  destruct (lm_dimensions lm) as [|ld dims] eqn:Hd.
  { split; [reflexivity|]. split; [|cbn; lia].
    intros _. split; [reflexivity | now constructor]. }
  split.
  { rewrite !cat_const. unfold emit_start, emit_continue, emit_end, emit.
    now rewrite !append_assoc. }
  split.
  - intros Hlen. destruct dims; [|cbn in Hlen; lia].
    cbn [List.length times list_of]. rewrite !append_nil_r.
    split; [reflexivity|].
    apply (dart_type_generic "List" T); [|now constructor].
    split; [discriminate | split; reflexivity].
  - intros Hlen. destruct dims as [|ld' dims]; [cbn in Hlen; lia|].
    cbn [List.length times list_of]. split; [cbn; discriminate|].
    set (rest := (times (List.length dims) "<" ++ T
                  ++ ">" ++ ">" ++ times (List.length dims) ">")%string).
    intros H.
    assert (E : forall s, dart_type s -> s = ("List" ++ String "<" (String "<" rest))%string
                          -> False).
    { intros s [name Hn | name arg Hn Ha] Es.
      - destruct Hn as (_ & Hlt & _). subst name. cbn in Hlt. discriminate.
      - destruct Hn as (_ & Hlt & _).
        apply first_angle in Es; [|exact Hlt | reflexivity].
        destruct Es as [_ Es].
        destruct (dart_type_head arg Ha) as (c & r & -> & Hc).
        cbn in Es. injection Es as Es _. contradiction. }
    apply (E _ H). subst rest. reflexivity.
Qed.

Lemma array_field_declaration_witness :
  declared_type grid_a = "List<<int>>"%string /\ ~ dart_type (declared_type grid_a).
Proof.
  split; [reflexivity|].
  assert (Hname : type_name_like (map_type_dart (lctypename (lm_type grid_a)))).
  { split; [discriminate | split; reflexivity]. }
  exact (proj2 (proj2 (proj2 (array_field_declaration grid_a Hname))
                      ltac:(cbn; lia))).
Defined.

(** *** The decode helper *)

(** X13.  [emit_decode_one], which [emit_struct] does not call, prints for
    every type but [string] the very line the scalar chain of [emit_struct]
    prints, given the [final <name> = ] that the chain starts the line
    with, and with its accessor left empty the element the array chain
    prints, followed by the semicolon.  For [string] the two differ: the
    helper prints a block of statements, the chains a closure that is
    called on the spot. *)
Theorem emit_decode_one_is_the_inline_chain (type_name name : string) :
  ((type_name =? "string")%string = false ->
   emit_decode_one type_name ("final " ++ name ++ " = ") 2
   = (emit_start 2 ("final " ++ name ++ " = ") ++ emit_decode_scalar type_name)%string
   /\ emit_decode_one type_name EmptyString 0
      = (emit_decode_element type_name ++ ";" ++ nl)%string)
  /\ emit_decode_one "string" ("final " ++ name ++ " = ") 2
     <> (emit_start 2 ("final " ++ name ++ " = ") ++ emit_decode_scalar "string")%string.
Proof.
  split.
  - intros Hs. unfold emit_decode_one, emit_decode_scalar, emit_decode_element.
    rewrite Hs.
    repeat match goal with
           | |- context [(type_name =? ?k)%string] => destruct (type_name =? k)%string
           end;
      unfold emit, emit_start, emit_end, emit_continue; cbn [INDENT Nat.mul spaces];
      rewrite ?append_assoc; split; reflexivity.
  - cbn. discriminate.
Qed.

End MoreEmitFacts.

(* ================================================================== *)
(** ** What [decode] makes of the bytes of [encode] *)

Module MoreRunFacts.
Import Text Schema Emit Dart Run Spec Examples Notions RunFacts.

Lemma signed_wraps (k : nat) (n : Z) :
  (0 < k)%nat ->
  - 2 ^ (8 * Z.of_nat k - 1) <= n < 2 ^ (8 * Z.of_nat k - 1) ->
  signed k (n mod 2 ^ (8 * Z.of_nat k)) = n.
Proof.
  intros Hk Hn. unfold signed.
  assert (2 ^ (8 * Z.of_nat k) = 2 * 2 ^ (8 * Z.of_nat k - 1)) as E.
  { rewrite <- Z.pow_succ_r by lia. f_equal. lia. }
  assert (0 < 2 ^ (8 * Z.of_nat k - 1)) by (apply Z.pow_pos_nonneg; lia).
  destruct (Z.ltb_spec n 0).
  - replace (n mod 2 ^ (8 * Z.of_nat k)) with (n + 2 ^ (8 * Z.of_nat k))
      by (apply Z.mod_unique_pos with (q := -1); lia).
    destruct (Z.ltb_spec (n + 2 ^ (8 * Z.of_nat k)) (2 ^ (8 * Z.of_nat k - 1))); lia.
  - rewrite Z.mod_small by lia.
    destruct (Z.ltb_spec n (2 ^ (8 * Z.of_nat k - 1))); lia.
Qed.

Lemma find_class_name (prog : list lcm_struct) (cls : string) (ls : lcm_struct) :
  find_class prog cls = Some ls -> class_name_of ls = cls.
Proof.
  unfold find_class. intros H. apply find_some in H. destruct H as [_ H].
  now apply String.eqb_eq in H.
Qed.

Lemma repeat_read_chunks {A : Type} (m : M A) (l : list A) (chunks : list (list byte)) :
  Forall2 (fun x c => forall rest, m (c ++ rest) = Done x rest) l chunks ->
  forall rest, repeat_read (List.length l) m (List.concat chunks ++ rest) = Done l rest.
Proof.
  induction 1 as [|x c l chunks Hx _ IH]; intros rest; [reflexivity|].
  cbn [List.length repeat_read List.concat]. rewrite <- app_assoc.
  unfold bind. rewrite Hx, IH. reflexivity.
Qed.

Lemma for_each_indexed (f : Z -> M unit) (l : list value) (chunks : list (list byte))
      (P : value -> list byte -> Prop) :
  Forall2 P l chunks ->
  forall k : nat,
    (forall j x c, nth_error l j = Some x -> P x c ->
                   forall s, f (Z.of_nat (k + j)) s = Done tt (s ++ c)) ->
    forall s, for_each (map Z.of_nat (seq k (List.length l))) f s
              = Done tt (s ++ List.concat chunks).
Proof.
  induction 1 as [|x c l chunks Hx _ IH]; intros k Hf s.
  - cbn. now rewrite app_nil_r.
  - cbn [List.length seq map for_each List.concat]. unfold bind.
    pose proof (Hf 0%nat x c eq_refl Hx s) as H0. rewrite Nat.add_0_r in H0.
    rewrite H0. rewrite (IH (S k)).
    + now rewrite <- app_assoc.
    + intros j y d Hj Hy s'. replace (S k + j)%nat with (k + S j)%nat by lia.
      now apply (Hf (S j) y d).
Qed.

Lemma shaped_laid_out (leaf : value -> Prop) (leaf' : value -> list byte -> Prop) :
  (forall x, leaf x -> exists bytes, leaf' x bytes) ->
  forall ns v, shaped leaf ns v -> exists bytes, laid_out leaf' ns v bytes.
Proof.
  intros Hleaf. induction ns as [|n ns IH]; intros v; cbn [shaped laid_out]; [apply Hleaf|].
  intros (l & -> & Hlen & Hall).
  assert (exists chunks, Forall2 (laid_out leaf' ns) l chunks) as (chunks & Hc).
  { clear Hlen. induction Hall as [|x l Hx _ IHl]; [exists []; constructor|].
    destruct IHl as (chunks & Hc). destruct (IH x Hx) as (c & Hxc).
    exists (c :: chunks). now constructor. }
  exists (List.concat chunks), l, chunks. repeat split; assumption.
Qed.

Lemma subscript_pure (env : list (nat * Z)) (idx : list nat) :
  forall (v x : value) (s s' : list byte),
    subscript env v idx s = Done x s' -> s' = s.
Proof.
  induction idx as [|k idx IH]; intros v x s s' E; cbn [subscript] in E.
  - now injection E as _ <-.
  - destruct v; try discriminate. destruct (loop_var env k); [|discriminate].
    destruct (if 0 <=? z then nth_error l (Z.to_nat z) else None); [|discriminate].
    eapply IH, E.
Qed.

Lemma read_accessor_pure (this : value) (env : list (nat * Z)) (a : accessor)
      (x : value) (s s' : list byte) :
  read_accessor this env a s = Done x s' -> s' = s.
Proof.
  unfold read_accessor. destruct (scope this env (base a)); [|discriminate].
  apply subscript_pure.
Qed.

Lemma length_row_major (ns : list Z) : List.length (row_major ns) = product ns.
Proof.
  induction ns as [|n ns IH]; [reflexivity|].
  cbn [row_major product fold_right]. fold (product ns).
  rewrite (flat_map_constant_length (c := product ns)).
  - now rewrite length_upto.
  - intros i _. now rewrite length_map.
Qed.

Lemma length_concat_chunks {I : Type} (P : I -> list byte -> Prop) (w : nat)
      (items : list I) (chunks : list (list byte)) :
  Forall2 P items chunks ->
  (forall i c, P i c -> List.length c = w) ->
  List.length (List.concat chunks) = (w * List.length items)%nat.
Proof.
  intros H Hw. induction H as [|i c items chunks Hi _ IH]; [cbn; lia|].
  cbn [List.concat List.length]. rewrite length_app, IH, (Hw i c Hi). lia.
Qed.

Lemma literal_sizes_bound (dims : list lcm_dimension) :
  forall ns,
    literal_sizes dims = Some ns ->
    Forall2 (fun ld n => forall names s, bound_value names (size ld) s = Done n s) dims ns.
Proof.
  induction dims as [|ld dims IH]; intros ns E; cbn [literal_sizes] in E.
  - injection E as <-. constructor.
  - destruct (literal (size ld)) as [n|] eqn:El; [|discriminate].
    destruct (literal_sizes dims) as [ns'|]; [|discriminate].
    injection E as <-. constructor; [|now apply IH].
    intros names s. unfold bound_value. now rewrite El.
Qed.

Lemma Forall_firstn {A : Type} (P : A -> Prop) (n : nat) (l : list A) :
  Forall P l -> Forall P (firstn n l).
Proof.
  intros H. revert n. induction H as [|x l Hx _ IH]; intros [|n]; cbn [firstn];
    constructor; auto.
Qed.

Section Runtime.
Variables float32_of_double double_of_float32 : Z -> Z.
Variable utf8_encode : string -> list byte.
Variable utf8_decode : list byte -> option string.

#[local] Abbreviation put := (Run.put float32_of_double).
#[local] Abbreviation put_string := (Run.put_string float32_of_double utf8_encode).
#[local] Abbreviation exec := (Run.exec float32_of_double utf8_encode).
#[local] Abbreviation encode_object := (Run.encode_object float32_of_double utf8_encode).
#[local] Abbreviation get := (Run.get double_of_float32).
#[local] Abbreviation get_string := (Run.get_string double_of_float32 utf8_decode).
#[local] Abbreviation eval := (Run.eval double_of_float32 utf8_decode).
#[local] Abbreviation decode_class := (Run.decode_class double_of_float32 utf8_decode).
#[local] Abbreviation read_members := (Spec.read_members double_of_float32 utf8_decode).
#[local] Abbreviation fits := (Notions.fits float32_of_double double_of_float32 utf8_encode utf8_decode).
#[local] Abbreviation leaf_ok := (Notions.leaf_ok float32_of_double double_of_float32 utf8_encode utf8_decode).
#[local] Abbreviation members_ok := (Notions.members_ok float32_of_double double_of_float32 utf8_encode utf8_decode).
#[local] Abbreviation conforms := (Notions.conforms float32_of_double double_of_float32 utf8_encode utf8_decode).
#[local] Abbreviation carried := (Notions.carried float32_of_double double_of_float32 utf8_encode utf8_decode).

(** An integer accessor carries the integers of its range. *)
Lemma integer_carried (call_e : value -> M unit) (call_d : string -> M value)
      (type_name : string) (w : wire) (n : Z) :
  (forall a, encode_one type_name a = Put w a) ->
  decode_one type_name = Get w ->
  image float32_of_double w (VInt n) = Some (big_endian (width w) n) ->
  value_of double_of_float32 w (big_endian (width w) n) = VInt n ->
  carried call_e call_d type_name (VInt n) (big_endian (width w) n).
Proof.
  intros Henc Hdec Himg Hval. split.
  - intros fp this env a s Hb Ha. rewrite Henc. cbn [Run.exec]. unfold bind.
    rewrite Ha. unfold Run.put. now rewrite Himg.
  - intros locals rest. rewrite Hdec. cbn [Run.eval]. unfold Run.get, bind.
    rewrite take_exactly by apply length_big_endian. cbn [ret]. now rewrite Hval.
Qed.

Lemma primitive_carried (call_e : value -> M unit) (call_d : string -> M value)
      (type_name : string) (v : value) :
  fits type_name v -> exists bytes, carried call_e call_d type_name v bytes.
Proof.
  unfold Notions.fits.
  destruct (String.eqb_spec type_name "byte") as [->|_].
  { intros (n & -> & Hn). eexists. apply (integer_carried _ _ _ Uint8); try reflexivity.
    cbn [value_of width]. rewrite from_big_endian_of.
    change (2 ^ (8 * Z.of_nat 1)) with (2 ^ 8). now rewrite Z.mod_small. }
  destruct (String.eqb_spec type_name "int8_t") as [->|_].
  { intros (n & -> & Hn). eexists. apply (integer_carried _ _ _ Int8); try reflexivity.
    cbn [value_of width]. rewrite from_big_endian_of.
    now rewrite signed_wraps by (cbn; lia). }
  destruct (String.eqb_spec type_name "int16_t") as [->|_].
  { intros (n & -> & Hn). eexists. apply (integer_carried _ _ _ Int16); try reflexivity.
    cbn [value_of width]. rewrite from_big_endian_of.
    now rewrite signed_wraps by (cbn; lia). }
  destruct (String.eqb_spec type_name "int32_t") as [->|_].
  { intros (n & -> & Hn). eexists. apply (integer_carried _ _ _ Int32); try reflexivity.
    cbn [value_of width]. rewrite from_big_endian_of.
    now rewrite signed_wraps by (cbn; lia). }
  destruct (String.eqb_spec type_name "int64_t") as [->|_].
  { intros (n & -> & Hn). eexists. apply (integer_carried _ _ _ Int64); try reflexivity.
    cbn [value_of width]. rewrite from_big_endian_of.
    now rewrite signed_wraps by (cbn; lia). }
  destruct (String.eqb_spec type_name "float") as [->|_].
  { intros (bits & -> & Hbits). exists (big_endian 4 (float32_of_double bits)). split.
    - intros fp this env a s Hb Ha. cbn [encode_one String.eqb Ascii.eqb Bool.eqb Run.exec].
      unfold bind. rewrite Ha. reflexivity.
    - intros locals rest. cbn [decode_one String.eqb Ascii.eqb Bool.eqb Run.eval].
      unfold Run.get, bind. cbn [width].
      rewrite take_exactly by apply length_big_endian. cbn [ret value_of].
      rewrite from_big_endian_of. change (2 ^ (8 * Z.of_nat 4)) with (2 ^ 32).
      now rewrite Hbits. }
  destruct (String.eqb_spec type_name "double") as [->|_].
  { intros (bits & -> & Hbits). exists (big_endian 8 bits). split.
    - intros fp this env a s Hb Ha. cbn [encode_one String.eqb Ascii.eqb Bool.eqb Run.exec].
      unfold bind. rewrite Ha. reflexivity.
    - intros locals rest. cbn [decode_one String.eqb Ascii.eqb Bool.eqb Run.eval].
      unfold Run.get, bind. cbn [width].
      rewrite take_exactly by apply length_big_endian. cbn [ret value_of].
      rewrite from_big_endian_of. change (2 ^ (8 * Z.of_nat 8)) with (2 ^ 64).
      now rewrite Z.mod_small. }
  destruct (String.eqb_spec type_name "string") as [->|_].
  { intros (s0 & -> & Hutf & Hlen).
    exists (big_endian 4 (Z.of_nat (List.length (utf8_encode s0)) + 1)
            ++ utf8_encode s0 ++ [x00]).
    split.
    - intros fp this env a s Hb Ha. cbn [encode_one String.eqb Ascii.eqb Bool.eqb Run.exec].
      rewrite Hb. unfold bind. rewrite Ha. apply put_string_bytes.
    - intros locals rest. cbn [decode_one String.eqb Ascii.eqb Bool.eqb Run.eval].
      rewrite <- !app_assoc.
      rewrite (get_string_frame double_of_float32 utf8_decode) by lia.
      now rewrite Hutf. }
  destruct (String.eqb_spec type_name "boolean") as [->|_].
  { intros (b & ->). exists (big_endian 1 (if b then 1 else 0)). split.
    - intros fp this env a s Hb Ha. cbn [encode_one String.eqb Ascii.eqb Bool.eqb Run.exec].
      unfold bind. rewrite Ha. reflexivity.
    - intros locals rest. cbn [decode_one String.eqb Ascii.eqb Bool.eqb Run.eval].
      unfold Run.get, bind. cbn [width].
      rewrite take_exactly by apply length_big_endian. cbn [ret value_of].
      destruct b; reflexivity. }
  contradiction.
Qed.

(** *** Arrays *)

Lemma nest_decode (call_d : string -> M value) (locals : list (string * value))
      (leaf : value -> list byte -> Prop) (inner : rexpr) :
  (forall v bytes, leaf v bytes ->
                   forall rest, eval call_d locals inner (bytes ++ rest) = Done v rest) ->
  forall dims ns,
    Forall2 (fun ld n =>
               (forall s, bound_value (fun name => assoc name locals) (size ld) s = Done n s)
               /\ 0 <= n) dims ns ->
    forall v bytes,
      laid_out leaf ns v bytes ->
      forall rest,
        eval call_d locals (generate_nest dims inner) (bytes ++ rest) = Done v rest.
Proof.
  intros Hleaf dims ns H.
  induction H as [|ld n dims ns [Hb Hn] _ IH]; intros v bytes Hv rest.
  - now apply Hleaf.
  - cbn [laid_out] in Hv. destruct Hv as (l & chunks & -> & Hlen & Hall & ->).
    cbn [generate_nest Run.eval]. unfold bind at 1. rewrite Hb.
    destruct (Z.ltb_spec n 0); [lia|].
    replace (Z.to_nat n) with (List.length l) by lia.
    unfold bind. rewrite (repeat_read_chunks _ l chunks); [reflexivity|].
    eapply Forall2_impl; [|exact Hall]. intros x c Hxc. now apply IH.
Qed.

Lemma nest_encode (call_e : value -> M unit) (fp : Z) (this : value)
      (leaf : value -> list byte -> Prop) (inner : stmt) (acc : accessor) :
  (forall v bytes, leaf v bytes ->
     forall env s, (forall s', read_accessor this env acc s' = Done v s') ->
                   exec call_e fp this env inner s = Done tt (s ++ bytes)) ->
  forall dims ns,
    Forall2 (fun ld n => forall env s, bound_value (scope this env) (size ld) s = Done n s)
            dims ns ->
    forall dim env v bytes,
      laid_out leaf ns v bytes ->
      (forall idx s', List.length idx = List.length ns ->
                      read_accessor this (index_env dim idx env) acc s' = index_path v idx s') ->
      forall s, exec call_e fp this env (for_nest dim dims inner) s = Done tt (s ++ bytes).
Proof.
  intros Hleaf dims ns H.
  induction H as [|ld n dims ns Hb _ IH]; intros dim env v bytes Hv Hacc s.
  - apply (Hleaf v bytes Hv). intros s'. exact (Hacc [] s' eq_refl).
  - cbn [laid_out] in Hv. destruct Hv as (l & chunks & -> & Hlen & Hall & ->).
    cbn [for_nest Run.exec]. unfold bind. rewrite Hb. unfold upto.
    replace (Z.to_nat n) with (List.length l) by lia.
    apply (for_each_indexed _ l chunks (laid_out leaf ns) Hall 0).
    intros j x c Hj Hxc s'. cbn [Nat.add].
    apply (IH (S dim) _ x c Hxc).
    intros idx s'' Hidx.
    pose proof (Hacc (Z.of_nat j :: idx) s'' ltac:(cbn; lia)) as Hi.
    cbn [index_env index_path] in Hi. rewrite Hi.
    destruct (Z.leb_spec 0 (Z.of_nat j)); [|lia].
    now rewrite Nat2Z.id, Hj.
Qed.

(** *** Members *)

Lemma size_of_bound (names : string -> option value) (earlier : list (string * value))
      (ld : lcm_dimension) (n : Z) :
  size_of earlier ld = Some n ->
  (forall name x, assoc name earlier = Some x -> names name = Some x) ->
  forall s, bound_value names (size ld) s = Done n s.
Proof.
  unfold size_of, bound_value. intros H Hnames s.
  destruct (literal (size ld)); [now injection H as -> |].
  destruct (assoc (size ld) earlier) as [x|] eqn:E; [|discriminate].
  rewrite (Hnames _ _ E). destruct x; try discriminate. now injection H as ->.
Qed.

Lemma assoc_some_in {A : Type} (name : string) (a : A) (l : list (string * A)) :
  assoc name l = Some a -> In (name, a) l.
Proof.
  induction l as [|[n b] l IH]; cbn [assoc]; [discriminate|].
  destruct (String.eqb_spec n name) as [->|_].
  - intros E. injection E as ->. now left.
  - intros E. right. now apply IH.
Qed.

Lemma members_ok_names (struct_ok : string -> value -> Prop) (members : list lcm_member) :
  forall earlier fields,
    members_ok struct_ok earlier members fields ->
    map fst fields = map lm_membername members.
Proof.
  induction members as [|lm members IH]; intros earlier [|[name v] fields] H;
    cbn [Notions.members_ok] in H; try contradiction; [reflexivity|].
  destruct H as (-> & _ & _ & H). cbn [map fst]. f_equal. eapply IH, H.
Qed.

Lemma members_ok_free (struct_ok : string -> value -> Prop) (members : list lcm_member) :
  forall earlier fields,
    members_ok struct_ok earlier members fields ->
    forall name x, In (name, x) fields -> free_name name = true.
Proof.
  induction members as [|lm members IH]; intros earlier [|[name v] fields] H;
    cbn [Notions.members_ok] in H; try contradiction.
  destruct H as (-> & Hfree & _ & H). intros name x [E | Hin].
  - now injection E as <- _.
  - eapply IH; eassumption.
Qed.

Lemma free_name_facts (name : string) :
  free_name name = true ->
  (name =? "buf")%string = false /\ (name =? "bytes")%string = false
  /\ (name =? "fingerprint")%string = false /\ loop_index name = None.
Proof.
  unfold free_name. rewrite !andb_true_iff, !negb_true_iff.
  intros (((H1 & H2) & H3) & H4). repeat split; try assumption.
  now destruct (loop_index name).
Qed.

Lemma members_round_trip (call_e : value -> M unit) (call_d : string -> M value)
      (struct_ok : string -> value -> Prop) (cls : string) (fp : Z) (fpv : value)
      (all : list (string * value)) :
  (forall type_name v, leaf_ok struct_ok type_name v ->
                       exists bytes, carried call_e call_d type_name v bytes) ->
  NoDup (map fst all) ->
  (forall name x, In (name, x) all -> free_name name = true) ->
  forall members earlier fields,
    all = rev earlier ++ fields ->
    members_ok struct_ok earlier members fields ->
    exists chunks,
      Forall2 (fun lm chunk =>
                 exec call_e fp (VObject cls all) [] (encode_member lm) [] = Done tt chunk)
              members chunks
      /\ forall rest,
           read_members call_d (earlier ++ [("fingerprint", fpv)]) members
                        (List.concat chunks ++ rest)
           = Done fields rest.
Proof.
  intros Hleaf Hnd Hfree.
  induction members as [|lm members IH]; intros earlier [|[name v] fields] Hall Hok;
    cbn [Notions.members_ok] in Hok; try contradiction.
  { exists []. split; [constructor | reflexivity]. }
  destruct Hok as (-> & Hname & (ns & Hdims & Hshape) & Hrest).
  assert (Hin : forall n x, In (n, x) (rev earlier ++ [(lm_membername lm, v)]) ->
                            forall env, scope (VObject cls all) env n = Some x).
  { intros n x Hnx env.
    assert (Hall' : In (n, x) all).
    { rewrite Hall. change ((lm_membername lm, v) :: fields)
        with ([(lm_membername lm, v)] ++ fields).
      rewrite app_assoc. apply in_or_app. now left. }
    destruct (free_name_facts n (Hfree n x Hall')) as (Hbuf & _ & _ & Hloop).
    rewrite (scope_member _ env n Hbuf Hloop). cbn [member].
    now apply assoc_in. }
  destruct (free_name_facts _ Hname) as (_ & Hbytes_name & _ & _).
  destruct (IH ((lm_membername lm, v) :: earlier) fields) as (chunks & Henc & Hdec);
    [cbn [rev]; now rewrite <- app_assoc | exact Hrest |].
  destruct (shaped_laid_out _ (carried call_e call_d (lctypename (lm_type lm)))
                            (Hleaf _) ns v Hshape) as (bytes & Hbytes).
  exists (bytes :: chunks). split.
  - constructor; [|exact Henc].
    unfold encode_member.
    set (acc := {| base := lm_membername lm;
                   indices := seq 0 (List.length (lm_dimensions lm)) |}).
    apply (nest_encode call_e fp (VObject cls all)
             (carried call_e call_d (lctypename (lm_type lm)))
             (encode_one (lctypename (lm_type lm)) acc) acc)
      with (ns := ns) (v := v) (bytes := bytes) (s := []).
    + intros x c [Hx _] env s Ha. now apply Hx.
    + eapply Forall2_impl; [|exact Hdims]. intros ld n [Hsize _] env.
      apply (size_of_bound _ earlier ld n Hsize).
      intros n' x Hx. apply Hin. apply in_or_app. left.
      apply in_rev. rewrite rev_involutive. now apply assoc_some_in.
    + exact Hbytes.
    + intros idx s' Hidx. subst acc.
      rewrite (Forall2_length Hdims), <- Hidx, read_accessor_by_index.
      rewrite (Hin (lm_membername lm) v); [reflexivity|].
      apply in_or_app. right. now left.
  - intros rest. cbn [Spec.read_members List.concat]. rewrite <- app_assoc.
    unfold bind.
    rewrite (nest_decode call_d (earlier ++ [("fingerprint", fpv)])
               (carried call_e call_d (lctypename (lm_type lm)))
               (decode_one (lctypename (lm_type lm))))
      with (ns := ns) (v := v); [| |  |exact Hbytes].
    + change ((lm_membername lm, v) :: earlier ++ [("fingerprint", fpv)])
        with (((lm_membername lm, v) :: earlier) ++ [("fingerprint", fpv)]).
      now rewrite Hdec.
    + intros x c [_ Hx] rest'. now apply Hx.
    + eapply Forall2_impl; [|exact Hdims]. intros ld n [Hsize Hn].
      split; [|exact Hn].
      apply (size_of_bound _ earlier ld n Hsize).
      intros n' x Hx. now rewrite assoc_app, Hx.
Qed.

(** *** Instances *)

Lemma conforming_round_trip (prog : list lcm_struct) (depth : nat) :
  forall (cls : string) (v : value),
    conforms prog depth cls v ->
    exists bytes : list byte,
      encode_object prog depth v [] = Done tt bytes
      /\ forall rest : list byte, decode_class prog depth cls (bytes ++ rest) = Done v rest.
Proof.
  induction depth as [|depth IH]; intros cls v Hv; [contradiction|].
  destruct Hv as (ls & fields & Hcls & -> & Hnd & Hok).
  assert (Hleaf : forall type_name x,
             leaf_ok (conforms prog depth) type_name x ->
             exists bytes,
               carried (encode_object prog depth) (decode_class prog depth) type_name x bytes).
  { intros type_name x. unfold Notions.leaf_ok.
    destruct (is_primitive type_name) eqn:Hprim; [apply primitive_carried|].
    intros Hx. destruct (IH type_name x Hx) as (bytes & Henc & Hdec).
    exists bytes. pose proof Hprim as Hother.
    apply EmitFacts.not_primitive in Hprim.
    destruct Hprim as (H1 & H2 & H3 & H4 & H5 & H6 & H7 & H8 & H9).
    split.
    - intros fp this env a s Hb Ha. unfold encode_one.
      rewrite H1, H2, H3, H4, H5, H6, H7, H8, H9. cbn [Run.exec].
      unfold bind. rewrite Ha.
      rewrite (appends_encode_object float32_of_double utf8_encode prog depth x s), Henc.
      reflexivity.
    - intros locals rest. unfold decode_one.
      rewrite H1, H2, H3, H4, H5, H6, H7, H8, H9. cbn [Run.eval].
      rewrite (EmitFacts.map_type_dart_other _ Hother). apply Hdec. }
  pose proof (members_ok_names _ _ _ _ Hok) as Hnames.
  destruct (members_round_trip (encode_object prog depth) (decode_class prog depth)
              (conforms prog depth) cls (LCM_FINGERPRINT_of ls)
              (VInt (Int64.fingerprint (ls_hash ls))) fields Hleaf
              ltac:(now rewrite Hnames) (members_ok_free _ _ _ _ Hok)
              (ls_members ls) [] fields eq_refl Hok)
    as (chunks & Henc & Hdec).
  exists (big_endian 8 (Int64.fingerprint (ls_hash ls)) ++ List.concat chunks). split.
  - apply (encode_object_chunks float32_of_double utf8_encode prog depth cls fields ls _ Hcls).
    exists chunks. split; [exact Henc | reflexivity].
  - intros rest. rewrite <- app_assoc.
    rewrite (decode_class_matching double_of_float32 utf8_decode prog depth cls ls _ Hcls Hnd).
    unfold bind. cbn [app] in Hdec. rewrite Hdec. cbn [ret].
    now rewrite (find_class_name prog cls ls Hcls).
Qed.

(** X11.  [decode] gives back what [encode] wrote.  The two methods that
    run are the ones [emit_struct] prints for the class.  For an instance
    of a class of the program whose members have names that no local of
    the emitted methods hides ([buf], [bytes], [fingerprint], [i0], [i1],
    ...) and whose fields hold what the members declare (integers within
    the range of their type, arrays of the sizes their dimensions have, a
    variable dimension naming an integer member declared before the array,
    nested instances of the same kind), [encode] returns, and [decode] on
    the bytes it wrote returns the instance, whatever follows those bytes,
    and leaves what follows unread. *)
Theorem decode_inverts_encode (prog : list lcm_struct) (depth : nat) (cls : string)
        (v : value) (ls : lcm_struct)
        (Hcls : find_class prog cls = Some ls)
        (Hv : conforms prog depth cls v) :
  emit_encode_method ls = print_encode_method (encode_body ls)
  /\ emit_decode_method ls (class_name_of ls)
     = print_decode_method (class_name_of ls) (decode_body ls (class_name_of ls))
  /\ (forall fuel obj,
        encode_object prog (S fuel) (VObject cls obj)
        = Run.exec_all float32_of_double utf8_encode (encode_object prog fuel)
                       (LCM_FINGERPRINT_of ls) (VObject cls obj) (encode_body ls))
  /\ (forall fuel,
        decode_class prog (S fuel) cls
        = Run.run double_of_float32 utf8_decode (decode_class prog fuel)
                  (LCM_FINGERPRINT_of ls) [] (decode_body ls (class_name_of ls)))
  /\ exists bytes : list byte,
       encode_object prog depth v [] = Done tt bytes
       /\ forall rest : list byte, decode_class prog depth cls (bytes ++ rest) = Done v rest.
Proof.
  split; [symmetry; apply PrintFacts.print_encode_body|].
  split; [symmetry; apply PrintFacts.print_decode_body|].
  split; [intros fuel obj; cbn [Run.encode_object]; now rewrite Hcls|].
  split; [intros fuel; cbn [Run.decode_class]; now rewrite Hcls|].
  now apply conforming_round_trip.
Qed.

(** *** The length of an array *)

Lemma exec_throws_at_accessor (call_e : value -> M unit) (fp : Z) (this : value)
      (env : list (nat * Z)) (type_name : string) (a : accessor) (e : failure)
      (s : list byte) :
  (base a =? "bytes")%string = false ->
  read_accessor this env a s = Thrown e s ->
  exec call_e fp this env (encode_one type_name a) s = Thrown e s.
Proof.
  intros Hb H. unfold encode_one.
  repeat match goal with
         | |- context [(type_name =? ?k)%string] => destruct (type_name =? k)%string
         end;
    cbn [Run.exec]; rewrite ?Hb; unfold bind; now rewrite H.
Qed.

Lemma one_dimension_text (lm : lcm_member) (ld : lcm_dimension) :
  lm_dimensions lm = [ld] ->
  emit_encode_member lm
  = (emit 2 ("for (var i0 = 0; i0 < " ++ size ld ++ "; i0++) {")
     ++ emit_encode_one (lctypename (lm_type lm)) (lm_membername lm ++ "[i0]") 3
     ++ emit 2 "}")%string
  /\ emit_decode_member lm
     = (emit_start 2 ("final " ++ lm_membername lm ++ " = ")
        ++ "List.generate(" ++ size ld ++ ", (_) => "
        ++ emit_decode_element (lctypename (lm_type lm)) ++ ")" ++ emit_end ";")%string.
Proof.
  intros Hdims. split.
  - unfold emit_encode_member, array_accessor. rewrite Hdims.
    cbn [indexed List.length seq map cat combine Nat.add Nat.sub emit_for_open].
    now rewrite !PrintFacts.append_nil_r.
  - unfold emit_decode_member. rewrite Hdims.
    cbn [map cat]. unfold emit_continue.
    rewrite PrintFacts.append_assoc. cbn [append]. reflexivity.
Qed.

(** X16.  The encode loop of an array runs to the size of the dimension
    and never looks at the length of the list.  For a member with one
    dimension of size n, where neither the name of the member nor the
    size is hidden by a name of the method ([buf], [bytes], [fingerprint],
    a loop variable), the emitted statement is the loop
    [for (var i0 = 0; i0 < <size>; i0++)] around the write of
    [<member>[i0]], and the emitted read is [List.generate(<size>, ...)].
    When the field is a list of fitting elements: if the list is shorter
    than n, [encode] throws a [RangeError] after having written the
    elements that are there, which stay in the buffer; if it is longer,
    [encode] returns, having written the first n elements only, and
    [decode] gives back the list cut to n elements. *)
Theorem array_length_is_not_checked
        (call_e : value -> M unit) (call_d : string -> M value) (fp : Z) (this : value)
        (locals : list (string * value)) (lm : lcm_member) (ld : lcm_dimension)
        (n : Z) (l : list value)
        (Hdims : lm_dimensions lm = [ld])
        (Hname : free_name (lm_membername lm) = true)
        (Hcounter : free_name (size ld) = true)
        (Hsize : forall s, bound_value (member this) (size ld) s = Done n s)
        (Hsize' : forall s, bound_value (fun name => assoc name locals) (size ld) s
                            = Done n s)
        (Hn : 0 <= n)
        (Hfield : member this (lm_membername lm) = Some (VList l))
        (Hfit : Forall (fits (lctypename (lm_type lm))) l) :
  (emit_encode_member lm
   = (emit 2 ("for (var i0 = 0; i0 < " ++ size ld ++ "; i0++) {")
      ++ emit_encode_one (lctypename (lm_type lm)) (lm_membername lm ++ "[i0]") 3
      ++ emit 2 "}")%string
   /\ emit_encode_member lm = print_stmt 2 (encode_member lm)
   /\ emit_decode_member lm
      = (emit_start 2 ("final " ++ lm_membername lm ++ " = ")
         ++ "List.generate(" ++ size ld ++ ", (_) => "
         ++ emit_decode_element (lctypename (lm_type lm)) ++ ")" ++ emit_end ";")%string
   /\ emit_decode_member lm = print_dstmt (decode_member lm)
   /\ decode_member lm
      = Final (lm_membername lm)
              (generate_nest (lm_dimensions lm) (decode_one (lctypename (lm_type lm)))))
  /\ (Z.of_nat (List.length l) < n ->
      exists bytes,
        forall s, exec call_e fp this [] (encode_member lm) s = Thrown RangeError (s ++ bytes))
  /\ (n <= Z.of_nat (List.length l) ->
      exists bytes,
        (forall s, exec call_e fp this [] (encode_member lm) s = Done tt (s ++ bytes))
        /\ forall rest,
             eval call_d locals
                  (generate_nest (lm_dimensions lm) (decode_one (lctypename (lm_type lm))))
                  (bytes ++ rest)
             = Done (VList (firstn (Z.to_nat n) l)) rest).
Proof.
  set (type_name := lctypename (lm_type lm)) in *.
  set (acc := {| base := lm_membername lm; indices := [0%nat] |}).
  destruct (free_name_facts _ Hname) as (Hbuf & Hbytes & _ & Hloop).
  destruct (free_name_facts _ Hcounter) as (Hbuf' & _ & _ & Hloop').
  assert (Hexec : forall s,
             exec call_e fp this [] (encode_member lm) s
             = for_each (upto n)
                 (fun i => exec call_e fp this [(0%nat, i)] (encode_one type_name acc)) s).
  { intros s. unfold encode_member. rewrite Hdims.
    rewrite (exec_for_nest float32_of_double utf8_encode call_e fp this _ [ld] [n])
      by (constructor; [exact (bound_in_scope this _ n Hbuf' Hloop' Hsize) | constructor]).
    rewrite row_major_one, for_each_map. reflexivity. }
  assert (Hacc : forall j, read_accessor this [(0%nat, Z.of_nat j)] acc
                           = match nth_error l j with
                             | Some x => ret x
                             | None => throw RangeError
                             end).
  { intros j. unfold read_accessor. cbn [acc base indices].
    rewrite (scope_member this _ _ Hbuf Hloop), Hfield.
    cbn [subscript loop_var Nat.eqb].
    destruct (Z.leb_spec 0 (Z.of_nat j)); [|lia].
    rewrite Nat2Z.id. destruct (nth_error l j); reflexivity. }
  assert (Hchunks : forall l', Forall (fits type_name) l' ->
             exists chunks, Forall2 (carried call_e call_d type_name) l' chunks).
  { intros l' H. induction H as [|x l' Hx _ (chunks & IH)]; [exists []; constructor|].
    destruct (primitive_carried call_e call_d type_name x Hx) as (c & Hc).
    exists (c :: chunks). now constructor. }
  split; [|split].
  - destruct (one_dimension_text lm ld Hdims) as (Henc & Hdec).
    split; [exact Henc|]. split; [symmetry; apply PrintFacts.print_encode_member|].
    split; [exact Hdec|]. split; [symmetry; apply PrintFacts.print_decode_member | reflexivity].
  - intros Hshort. destruct (Hchunks l Hfit) as (chunks & Hall).
    exists (List.concat chunks). intros s. rewrite Hexec. unfold upto.
    replace (Z.to_nat n) with (List.length l + S (Z.to_nat n - S (List.length l)))%nat
      by lia.
    rewrite seq_app, map_app, for_each_app. unfold bind.
    rewrite (for_each_indexed _ l chunks _ Hall 0).
    + cbn [Nat.add seq map for_each]. unfold bind.
      rewrite (exec_throws_at_accessor _ _ _ _ _ _ RangeError); [reflexivity | exact Hbytes |].
      rewrite Hacc.
      now rewrite (proj2 (nth_error_None l (List.length l)) (Nat.le_refl _)).
    + intros j x c Hj [Hc _] s'. cbn [Nat.add]. apply Hc; [exact Hbytes|].
      intros s''. now rewrite Hacc, Hj.
  - intros Hlong.
    destruct (Hchunks _ (Forall_firstn _ (Z.to_nat n) l Hfit)) as (chunks & Hall).
    assert (Hlen : List.length (firstn (Z.to_nat n) l) = Z.to_nat n)
      by (rewrite length_firstn; lia).
    exists (List.concat chunks). split.
    + intros s. rewrite Hexec. unfold upto. rewrite <- Hlen.
      apply (for_each_indexed _ _ chunks _ Hall 0).
      intros j x c Hj [Hc _] s'. cbn [Nat.add]. apply Hc; [exact Hbytes|].
      intros s''. rewrite Hacc. rewrite nth_error_firstn in Hj.
      destruct (j <? Z.to_nat n)%nat; [|discriminate]. now rewrite Hj.
    + intros rest. rewrite Hdims.
      apply (nest_decode call_d locals (carried call_e call_d type_name)
               (decode_one type_name)) with (ns := [n]).
      * intros x c [_ Hx] rest'. apply Hx.
      * constructor; [split; [exact Hsize' | exact Hn] | constructor].
      * cbn [laid_out]. exists (firstn (Z.to_nat n) l), chunks.
        split; [reflexivity|]. split; [lia|]. split; [exact Hall | reflexivity].
Qed.

(** *** A size spelled like a loop variable *)

(** X9.  The loops of an array member declare the variables [i0], [i1],
    ... by the number of their dimension, and the variable of a loop is in
    scope in the condition of that loop.  So for a member whose first
    dimension has as size a name spelled [i0], the emitted loop is
    [for (var i0 = 0; i0 < i0; i0++)]: its bound is the loop variable, not
    the field, and whatever the instance holds the statement of the member
    writes nothing and throws nothing, while the emitted [decode] builds
    the list with [List.generate(i0, ...)], where [i0] is the local read
    before. *)
Theorem loop_variable_hides_the_counter
        (call_e : value -> M unit) (fp : Z) (lm : lcm_member) (ld : lcm_dimension)
        (more : list lcm_dimension)
        (Hdims : lm_dimensions lm = ld :: more)
        (Hsize : size ld = "i0"%string) :
  emit_encode_member lm
  = (emit 2 "for (var i0 = 0; i0 < i0; i0++) {"
     ++ cat (map (fun '(dim, ld') => emit_for_open dim ld')
                 (combine (seq 1 (List.length more)) more))
     ++ emit_encode_one (lctypename (lm_type lm)) (array_accessor lm)
                        (3 + List.length more)
     ++ cat (map (fun dim => emit (2 + List.length more - dim) "}")
                 (seq 0 (S (List.length more)))))%string
  /\ emit_encode_member lm = print_stmt 2 (encode_member lm)
  /\ encode_member lm
     = For 0 "i0" (for_nest 1 more
                     (encode_one (lctypename (lm_type lm))
                        {| base := lm_membername lm;
                           indices := seq 0 (S (List.length more)) |}))
  /\ emit_decode_member lm
     = (emit_start 2 ("final " ++ lm_membername lm ++ " = ")
        ++ "List.generate(i0, (_) => "
        ++ cat (map (fun ld' => emit_continue ("List.generate(" ++ size ld' ++ ", (_) => "))
                    more)
        ++ emit_decode_element (lctypename (lm_type lm))
        ++ cat (map (fun _ => emit_continue ")") (ld :: more))
        ++ emit_end ";")%string
  /\ emit_decode_member lm = print_dstmt (decode_member lm)
  /\ forall (this : value) (s : list byte),
       exec call_e fp this [] (encode_member lm) s = Done tt s.
Proof.
  assert (Hmember : encode_member lm
                    = For 0 "i0" (for_nest 1 more
                                    (encode_one (lctypename (lm_type lm))
                                       {| base := lm_membername lm;
                                          indices := seq 0 (S (List.length more)) |}))).
  { unfold encode_member. rewrite Hdims. cbn [for_nest List.length]. now rewrite Hsize. }
  split.
  { assert (Hopen : emit_for_open 0 ld = emit 2 "for (var i0 = 0; i0 < i0; i0++) {")
      by (unfold emit_for_open; now rewrite Hsize).
    unfold emit_encode_member. rewrite Hdims.
    change (indexed (ld :: more))
      with ((0%nat, ld) :: combine (seq 1 (List.length more)) more).
    cbn [map cat List.length]. rewrite Hopen, PrintFacts.append_assoc.
    reflexivity. }
  split; [symmetry; apply PrintFacts.print_encode_member|].
  split; [exact Hmember|].
  split.
  { unfold emit_decode_member. rewrite Hdims, Hsize. unfold emit_continue.
    reflexivity. }
  split; [symmetry; apply PrintFacts.print_decode_member|].
  intros this s. rewrite Hmember. reflexivity.
Qed.

(** *** Sizes *)

Lemma fixed_width_chunk (call_e : value -> M unit) (fp : Z) (this : value)
      (env : list (nat * Z)) (type_name : string) (a : accessor) (w : nat)
      (chunk : list byte) :
  fixed_width type_name = Some w ->
  exec call_e fp this env (encode_one type_name a) [] = Done tt chunk ->
  List.length chunk = w.
Proof.
  unfold fixed_width, encode_one.
  assert (Hput : forall k,
             (v <- read_accessor this env a ;; put k v) [] = Done tt chunk ->
             List.length chunk = width k).
  { intros k. unfold bind.
    destruct (read_accessor this env a []) as [v s1|] eqn:Ea; [|discriminate].
    apply read_accessor_pure in Ea. subst s1. unfold Run.put.
    destruct (image float32_of_double k v) as [bs|] eqn:Ei; [|discriminate].
    intros E. injection E as <-.
    destruct k, v; cbn [image] in Ei; try discriminate; injection Ei as <-;
      reflexivity. }
  repeat match goal with
         | |- context [(type_name =? ?k)%string] => destruct (type_name =? k)%string
         end;
    intros Hw E; try discriminate; injection Hw as <-; cbn [Run.exec] in E;
    try exact (Hput _ E).
  unfold bind in E.
  destruct (read_accessor this env a []) as [v s1|] eqn:Ea; [|discriminate].
  apply read_accessor_pure in Ea. subst s1.
  destruct v; try discriminate. cbn in E. now injection E as <-.
Qed.

Lemma member_chunk_size (call_e : value -> M unit) (fp : Z) (this : value)
      (lm : lcm_member) (n : nat) (chunk : list byte) :
  (forall v, appends (call_e v)) ->
  member_size lm = Some n ->
  exec call_e fp this [] (encode_member lm) [] = Done tt chunk ->
  List.length chunk = n.
Proof.
  intros Hcall. unfold member_size.
  destruct (fixed_width (lctypename (lm_type lm))) as [w|] eqn:Hw; [|discriminate].
  destruct (literal_sizes (lm_dimensions lm)) as [ns|] eqn:Hns; [|discriminate].
  intros E. injection E as <-. unfold encode_member.
  rewrite (exec_for_nest float32_of_double utf8_encode call_e fp this _ _ ns)
    by (eapply Forall2_impl; [|exact (literal_sizes_bound _ ns Hns)];
        intros ld k H env s; apply H).
  rewrite for_each_chunks
    by (intros idx; apply (appends_exec float32_of_double utf8_encode); exact Hcall).
  intros (chunks & Hall & ->).
  rewrite (length_concat_chunks _ w _ _ Hall), length_row_major; [reflexivity|].
  intros idx c Hc. eapply fixed_width_chunk; eassumption.
Qed.

(** X14.  The messages of a struct whose members are all of fixed-width
    types (every primitive but [string]) with literal dimensions have all
    the same length: eight bytes of fingerprint and, for each member, the
    width of its type times the product of its dimensions.  Whatever the
    instance holds, the bytes [encode] returns are that many. *)
Theorem fixed_message_size (prog : list lcm_struct) (fuel : nat) (cls : string)
        (fields : list (string * value)) (ls : lcm_struct) (n : nat) (out : list byte)
        (Hcls : find_class prog cls = Some ls)
        (Hsize : message_size ls = Some n)
        (Hout : encode_object prog (S fuel) (VObject cls fields) [] = Done tt out) :
  List.length out = n.
Proof.
  apply (encode_object_chunks float32_of_double utf8_encode prog fuel cls fields ls out Hcls)
    in Hout.
  destruct Hout as (chunks & Hall & ->).
  unfold message_size in Hsize.
  destruct (members_size (ls_members ls)) as [k|] eqn:Hk; [|discriminate].
  injection Hsize as <-. rewrite length_app, length_big_endian.
  enough (List.length (List.concat chunks) = k) by lia.
  revert k Hk. induction Hall as [|lm chunk members chunks Hlm _ IH]; intros k Hk;
    cbn [members_size] in Hk.
  - now injection Hk as <-.
  - destruct (member_size lm) as [a|] eqn:Ha; [|discriminate].
    destruct (members_size members) as [b|]; [|discriminate].
    injection Hk as <-. cbn [List.concat]. rewrite length_app, (IH b eq_refl).
    f_equal. eapply member_chunk_size; [|exact Ha | exact Hlm].
    intros v. apply appends_encode_object.
Qed.

(** *** References to other structs *)

(** X17.  A struct is referred to by its raw type name, and declared under
    the PascalCase of its short name: a type name with an underscore or a
    lower-case first letter is the name of no emitted class, whatever the
    program, so that the [decode] the member's expression calls is found
    nowhere. *)
Theorem lower_case_reference_finds_no_class
        (prog : list lcm_struct) (fuel : nat) (locals : list (string * value))
        (type_name : string) (s : list byte)
        (Hname : contains "_"%char type_name = true \/ starts_lower type_name = true) :
  find_class prog type_name = None
  /\ (is_primitive type_name = false ->
      decode_one type_name = CallDecode type_name
      /\ eval (decode_class prog (S fuel)) locals (decode_one type_name) s
         = Thrown NoSuchMember s).
Proof.
  assert (Hnone : find_class prog type_name = None).
  { destruct (find_class prog type_name) as [ls|] eqn:E; [|reflexivity].
    apply find_class_name in E. unfold class_name_of, to_pascal_case in E.
    exfalso. destruct Hname as [Hu | Hl].
    - pose proof (EmitFacts.to_pascal_case_no_underscore true
                    (shortname (ls_structname ls))) as Hn.
      rewrite E in Hn. congruence.
    - pose proof (MoreEmitFacts.to_pascal_case_loop_capital
                    (shortname (ls_structname ls))) as Hn.
      rewrite E in Hn. congruence. }
  split; [exact Hnone|]. intros Hprim.
  assert (Hone : decode_one type_name = CallDecode type_name).
  { rewrite <- (EmitFacts.map_type_dart_other _ Hprim) at 2.
    apply EmitFacts.not_primitive in Hprim.
    destruct Hprim as (H1 & H2 & H3 & H4 & H5 & H6 & H7 & H8 & H9).
    unfold decode_one. now rewrite H1, H2, H3, H4, H5, H6, H7, H8, H9. }
  split; [exact Hone|]. rewrite Hone. cbn [Run.eval Run.decode_class].
  now rewrite Hnone.
Qed.

End Runtime.

Lemma decode_inverts_encode_witness :
  find_class [Samples] "Samples" = Some Samples
  /\ Notions.conforms no_float no_float ascii_encode ascii_decode
                      [Samples] 1 "Samples" samples_3
  /\ exists bytes : list byte,
       Run.encode_object no_float ascii_encode [Samples] 1 samples_3 [] = Done tt bytes
       /\ forall rest : list byte,
            Run.decode_class no_float ascii_decode [Samples] 1 "Samples" (bytes ++ rest)
            = Done samples_3 rest.
Proof.
  assert (H : Notions.conforms no_float no_float ascii_encode ascii_decode
                               [Samples] 1 "Samples" samples_3).
  { exists Samples, [("n", VInt 3); ("data", VList [VInt 10; VInt 20; VInt 30])].
    split; [reflexivity|]. split; [reflexivity|]. split.
    { repeat constructor; cbn; intuition discriminate. }
    cbn [Notions.members_ok Samples struct ls_members].
    split; [reflexivity|]. split; [reflexivity|]. split.
    { exists []. split; [constructor|]. exists 3. split; [reflexivity | cbn; lia]. }
    split; [reflexivity|]. split; [reflexivity|]. split; [|exact I].
    exists [3]. split.
    { constructor; [|constructor]. split; [reflexivity | lia]. }
    exists [VInt 10; VInt 20; VInt 30]. split; [reflexivity|]. split; [reflexivity|].
    repeat constructor; eexists; (split; [reflexivity | cbn; lia]). }
  split; [reflexivity|]. split; [exact H|].
  exact (proj2 (proj2 (proj2 (proj2
           (decode_inverts_encode no_float no_float ascii_encode ascii_decode
              [Samples] 1 "Samples" samples_3 Samples eq_refl H))))).
Defined.

Lemma fixed_message_size_witness :
  message_size Grid = Some 14%nat
  /\ exists out : list byte,
       Run.encode_object no_float ascii_encode [Grid] 1 grid_1_6 [] = Done tt out
       /\ List.length out = 14%nat.
Proof.
  split; [reflexivity|].
  exists (big_endian 8 (Int64.fingerprint 1) ++ map byte_of_Z [1; 2; 3; 4; 5; 6]).
  split; [reflexivity|].
  apply (fixed_message_size no_float ascii_encode [Grid] 0 "Grid"
           [("a", VList [VList [VInt 1; VInt 2; VInt 3]; VList [VInt 4; VInt 5; VInt 6]])]
           Grid);
    reflexivity.
Defined.

Lemma loop_variable_hides_the_counter_witness :
  emit_encode_member hidden_data = print_stmt 2 (encode_member hidden_data)
  /\ forall s,
       Run.exec no_float ascii_encode (fun _ => throw NoSuchMember) 0 hidden_3 []
                (encode_member hidden_data) s
       = Done tt s.
Proof.
  pose proof (loop_variable_hides_the_counter no_float ascii_encode
                (fun _ => throw NoSuchMember) 0 hidden_data (var_dim "i0") []
                eq_refl eq_refl) as H.
  split; [exact (proj1 (proj2 H)) | exact (proj2 (proj2 (proj2 (proj2 (proj2 H)))) hidden_3)].
Defined.

Lemma array_length_is_not_checked_witness :
  emit_encode_member samples_data
  = (emit 2 "for (var i0 = 0; i0 < n; i0++) {"
     ++ emit 3 "buf.putInt32(data[i0]);"
     ++ emit 2 "}")%string
  /\ exists bytes,
       forall s,
         Run.exec no_float ascii_encode (fun _ => throw NoSuchMember) 0
                  (VObject "Samples" [("n", VInt 3); ("data", VList [VInt 10; VInt 20])])
                  [] (encode_member samples_data) s
         = Thrown RangeError (s ++ bytes).
Proof.
  assert (Hfit : Forall (fits no_float no_float ascii_encode ascii_decode "int32_t")
                         [VInt 10; VInt 20])
    by (repeat constructor; eexists; (split; [reflexivity | cbn; lia])).
  pose proof (array_length_is_not_checked no_float no_float ascii_encode ascii_decode
                (fun _ => throw NoSuchMember) (fun _ => throw NoSuchMember) 0
                (VObject "Samples" [("n", VInt 3); ("data", VList [VInt 10; VInt 20])])
                [("n", VInt 3)] samples_data (var_dim "n") 3 [VInt 10; VInt 20]
                eq_refl eq_refl eq_refl (fun s => eq_refl) (fun s => eq_refl)
                ltac:(lia) eq_refl Hfit) as H.
  split; [exact (proj1 (proj1 H)) | apply (proj1 (proj2 H)); cbn; lia].
Defined.

Lemma lower_case_reference_finds_no_class_witness :
  find_class [vector3f_t] "vector3f_t" = None
  /\ class_name_of vector3f_t = "Vector3fT"%string.
Proof.
  split; [|reflexivity].
  exact (proj1 (lower_case_reference_finds_no_class no_float ascii_decode
                  [vector3f_t] 0 [] "vector3f_t" [] (or_introl eq_refl))).
Defined.

End MoreRunFacts.

(* ================================================================== *)
(** ** The brackets of the emitted file *)

Module NestingFacts.
Import Text Schema Emit Spec Examples Notions.

Lemma nesting_app (o c : ascii) (a : string) :
  forall (b : string) (d : nat),
    nesting o c d (a ++ b)
    = match nesting o c d a with
      | Some d' => nesting o c d' b
      | None => None
      end.
Proof.
  induction a as [|x a IH]; intros b d; cbn [append nesting]; [reflexivity|].
  destruct (x =? o)%char; [apply IH|].
  destruct (x =? c)%char; [destruct d; [reflexivity | apply IH] | apply IH].
Qed.

Lemma level_free (o c : ascii) (s : string) :
  contains o s = false -> contains c s = false -> level o c s.
Proof.
  induction s as [|x s IH]; cbn [contains]; intros Ho Hc d; [reflexivity|].
  apply orb_false_iff in Ho as [Ho1 Ho2]. apply orb_false_iff in Hc as [Hc1 Hc2].
  cbn [nesting]. rewrite Ho1, Hc1. now apply IH.
Qed.

Lemma nesting_free (o c : ascii) (s : string) (d : nat) :
  contains o s = false -> contains c s = false -> nesting o c d s = Some d.
Proof. intros Ho Hc. now apply level_free. Qed.

Lemma level_app (o c : ascii) (a b : string) :
  level o c a -> level o c b -> level o c (a ++ b).
Proof. intros Ha Hb d. now rewrite nesting_app, Ha. Qed.

Lemma level_cat (o c : ascii) {A : Type} (f : A -> string) (l : list A) :
  (forall x, In x l -> level o c (f x)) -> level o c (cat (map f l)).
Proof.
  induction l as [|x l IH]; intros H; [intros d; reflexivity|].
  cbn [map cat]. apply level_app; [apply H; now left|].
  apply IH. intros y Hy. apply H. now right.
Qed.

Lemma nesting_opens (o c : ascii) {A : Type} (f : A -> string) (l : list A) :
  (forall x, In x l -> forall d, nesting o c d (f x) = Some (S d)) ->
  forall d, nesting o c d (cat (map f l)) = Some (List.length l + d)%nat.
Proof.
  induction l as [|x l IH]; intros H d; [reflexivity|].
  cbn [map cat List.length]. rewrite nesting_app, (H x (or_introl eq_refl)).
  rewrite IH by (intros y Hy; apply H; now right). f_equal. lia.
Qed.

Lemma nesting_closes (o c : ascii) {A : Type} (f : A -> string) (l : list A) :
  (forall x, In x l -> forall d, nesting o c (S d) (f x) = Some d) ->
  forall d, nesting o c (List.length l + d)%nat (cat (map f l)) = Some d.
Proof.
  induction l as [|x l IH]; intros H d; [reflexivity|].
  cbn [map cat List.length Nat.add]. rewrite nesting_app, (H x (or_introl eq_refl)).
  apply IH. intros y Hy. apply H. now right.
Qed.

(** *** Texts without brackets *)

Lemma plain_free (s : string) (c : ascii) :
  plain s = true -> In c brackets -> contains c s = false.
Proof.
  unfold plain. intros H Hc. rewrite forallb_forall in H.
  apply negb_true_iff. now apply H.
Qed.

Lemma free_spaces (c : ascii) (n : nat) : In c brackets -> contains c (spaces n) = false.
Proof.
  intros Hc. induction n as [|n IH]; [reflexivity|]. cbn [spaces contains]. rewrite IH.
  destruct Hc as [<-|[<-|[<-|[<-|[]]]]]; reflexivity.
Qed.

Lemma free_cat (c : ascii) {A : Type} (f : A -> string) (l : list A) :
  (forall x, In x l -> contains c (f x) = false) -> contains c (cat (map f l)) = false.
Proof.
  induction l as [|x l IH]; intros H; [reflexivity|].
  cbn [map cat]. rewrite EmitFacts.contains_append, (H x (or_introl eq_refl)).
  apply IH. intros y Hy. apply H. now right.
Qed.

Lemma free_uint (c : ascii) (u : Decimal.uint) :
  In c brackets -> contains c (NilZero.string_of_uint u) = false.
Proof.
  intros Hc.
  assert (H : contains c (NilEmpty.string_of_uint u) = false).
  { induction u; cbn [NilEmpty.string_of_uint contains]; try rewrite IHu;
      destruct Hc as [<-|[<-|[<-|[<-|[]]]]]; reflexivity. }
  destruct u; try exact H.
  destruct Hc as [<-|[<-|[<-|[<-|[]]]]]; reflexivity.
Qed.

Lemma free_dec (c : ascii) (n : nat) : In c brackets -> contains c (dec n) = false.
Proof. apply free_uint. Qed.

Lemma free_hex (c : ascii) (k : nat) :
  In c brackets -> forall z, contains c (Int64.hex_digits k z) = false.
Proof.
  intros Hc. induction k as [|k IH]; intros z; [reflexivity|].
  cbn [Int64.hex_digits]. rewrite EmitFacts.contains_append, IH. cbn [contains orb].
  unfold Int64.hex_digit. generalize (Z.to_nat (z mod 16)) as n. intros n.
  do 16 (destruct n as [|n]; [destruct Hc as [<-|[<-|[<-|[<-|[]]]]]; reflexivity|]).
  destruct n; destruct Hc as [<-|[<-|[<-|[<-|[]]]]]; reflexivity.
Qed.

Lemma toupper_bracket (x c : ascii) :
  In c brackets -> (toupper x =? c)%char = (x =? c)%char.
Proof.
  intros [<-|[<-|[<-|[<-|[]]]]]; destruct x as [[] [] [] [] [] [] [] []]; reflexivity.
Qed.

Lemma free_pascal (c : ascii) (s : string) :
  In c brackets -> contains c s = false ->
  forall b, contains c (to_pascal_case_loop b s) = false.
Proof.
  intros Hc. induction s as [|x s IH]; cbn [contains]; intros H b; [reflexivity|].
  apply orb_false_iff in H as [Hx Hs]. cbn [to_pascal_case_loop].
  destruct (x =? "_")%char; [now apply IH|].
  destruct b; cbn [contains]; rewrite ?toupper_bracket, Hx by exact Hc; now apply IH.
Qed.

Lemma free_map_type (c : ascii) (s : string) :
  In c brackets -> contains c s = false -> contains c (map_type_dart s) = false.
Proof.
  intros Hc H. unfold map_type_dart.
  repeat match goal with
         | |- context [(?k =? s)%string] => destruct (k =? s)%string
         end;
    try exact H; destruct Hc as [<-|[<-|[<-|[<-|[]]]]]; reflexivity.
Qed.

Lemma free_split (c sep : ascii) (s : string) :
  contains c s = false -> forall piece, In piece (split_on sep s) -> contains c piece = false.
Proof.
  induction s as [|x s IH]; cbn [contains split_on].
  - intros _ piece [<-|[]]. reflexivity.
  - intros H. apply orb_false_iff in H as [Hx Hs]. specialize (IH Hs).
    destruct (x =? sep)%char.
    + intros piece [<-|Hp]; [reflexivity | now apply IH].
    + destruct (split_on sep s) as [|p ps].
      * intros piece [<-|[]]. cbn [contains]. now rewrite Hx.
      * intros piece [<-|Hp].
        -- cbn [contains]. rewrite Hx. apply IH. now left.
        -- apply IH. now right.
Qed.

Lemma free_accessor (c : ascii) (lm : lcm_member) :
  In c brackets -> contains c (lm_membername lm) = false ->
  contains c (array_accessor lm) = false.
Proof.
  intros Hc H. unfold array_accessor. rewrite EmitFacts.contains_append, H.
  apply free_cat. intros dim _. rewrite !EmitFacts.contains_append, free_dec by exact Hc.
  destruct Hc as [<-|[<-|[<-|[<-|[]]]]]; reflexivity.
Qed.

Lemma pair_brackets (o c : ascii) : In (o, c) pairs -> In o brackets /\ In c brackets.
Proof.
  intros [E|[E|[]]]; injection E as <- <-; cbn; tauto.
Qed.

(** *** The printing macros *)

Lemma nesting_emit (o c : ascii) (n : nat) (s : string) (d : nat) :
  In o brackets -> In c brackets ->
  nesting o c d (emit n s) = nesting o c d s.
Proof.
  intros Ho Hc. unfold emit.
  rewrite nesting_app, (level_free o c (spaces _)) by now apply free_spaces.
  rewrite nesting_app. destruct (nesting o c d s) as [d'|]; [|reflexivity].
  apply level_free; [destruct Ho as [<-|[<-|[<-|[<-|[]]]]] | destruct Hc as [<-|[<-|[<-|[<-|[]]]]]];
    reflexivity.
Qed.

Lemma nesting_emit_start (o c : ascii) (n : nat) (s : string) (d : nat) :
  In o brackets -> In c brackets ->
  nesting o c d (emit_start n s) = nesting o c d s.
Proof.
  intros Ho Hc. unfold emit_start.
  now rewrite nesting_app, (level_free o c (spaces _)) by now apply free_spaces.
Qed.

Lemma nesting_emit_end (o c : ascii) (s : string) (d : nat) :
  In o brackets -> In c brackets ->
  nesting o c d (emit_end s) = nesting o c d s.
Proof.
  intros Ho Hc. unfold emit_end.
  rewrite nesting_app. destruct (nesting o c d s) as [d'|]; [|reflexivity].
  apply level_free; [destruct Ho as [<-|[<-|[<-|[<-|[]]]]] | destruct Hc as [<-|[<-|[<-|[<-|[]]]]]];
    reflexivity.
Qed.

Lemma level_nl (o c : ascii) : In o brackets -> In c brackets -> level o c nl.
Proof.
  intros Ho Hc. apply level_free;
    [destruct Ho as [<-|[<-|[<-|[<-|[]]]]] | destruct Hc as [<-|[<-|[<-|[<-|[]]]]]];
    reflexivity.
Qed.

Lemma level_comment (o c : ascii) (n : nat) (comment : option string) :
  In o brackets -> In c brackets -> plain_comment comment = true ->
  level o c (emit_comment n comment).
Proof.
  intros Ho Hc. destruct comment as [s|]; [|intros _ d; reflexivity].
  cbn [plain_comment emit_comment]. intros Hs. unfold g_strsplit_lines.
  assert (Hlines : forall piece, In piece (split_on (ascii_of_nat 10) s) ->
                     contains o piece = false /\ contains c piece = false).
  { intros piece Hp. split; eapply free_split; try exact Hp; now apply plain_free. }
  destruct s as [|x s]; [intros d; reflexivity|].
  apply level_cat. intros line Hl d. destruct (Hlines line Hl) as [H1 H2].
  destruct (nonempty line); rewrite nesting_emit by assumption.
  - apply level_free; rewrite EmitFacts.contains_append, ?H1, ?H2;
      [destruct Ho as [<-|[<-|[<-|[<-|[]]]]] | destruct Hc as [<-|[<-|[<-|[<-|[]]]]]];
      reflexivity.
  - apply level_free;
      [destruct Ho as [<-|[<-|[<-|[<-|[]]]]] | destruct Hc as [<-|[<-|[<-|[<-|[]]]]]];
      reflexivity.
Qed.

(** *** The pieces of a class *)

Ltac free_goal :=
  rewrite ?EmitFacts.contains_append;
  repeat match goal with
         | |- (_ || _)%bool = false => apply orb_false_intro
         end;
  first [ assumption
        | reflexivity
        | apply free_dec; cbn; tauto
        | apply free_hex; cbn; tauto
        | apply free_pascal; [cbn; tauto | assumption]
        | apply free_map_type; [cbn; tauto | assumption]
        | apply free_accessor; [cbn; tauto | assumption] ].

Ltac nest :=
  repeat first
    [ rewrite nesting_emit by (cbn; tauto)
    | rewrite nesting_emit_start by (cbn; tauto)
    | rewrite nesting_emit_end by (cbn; tauto)
    | rewrite nesting_app
    | match goal with
      | H : level ?o ?c ?s |- context [nesting ?o ?c _ ?s] => rewrite H
      end
    | match goal with
      | |- context [nesting ?o ?c ?d ?s] => rewrite (nesting_free o c s d) by free_goal
      end
    | progress unfold emit_continue
    | progress cbn [nesting Ascii.eqb Bool.eqb andb append] ];
  try reflexivity.

Ltac each_pair H := destruct H as [H|[H|[]]]; injection H as <- <-.

Lemma level_encode_one (o c : ascii) (type_name accessor : string) (n : nat) :
  In (o, c) pairs ->
  contains o accessor = false -> contains c accessor = false ->
  level o c (emit_encode_one type_name accessor n).
Proof.
  intros Hp Ho Hc d. unfold emit_encode_one.
  repeat match goal with
         | |- context [(type_name =? ?k)%string] => destruct (type_name =? k)%string
         end;
    each_pair Hp; nest.
Qed.

Lemma level_decode_scalar (o c : ascii) (type_name : string) :
  In (o, c) pairs ->
  contains o type_name = false -> contains c type_name = false ->
  level o c (emit_decode_scalar type_name).
Proof.
  intros Hp Ho Hc d. unfold emit_decode_scalar.
  repeat match goal with
         | |- context [(type_name =? ?k)%string] => destruct (type_name =? k)%string
         end;
    each_pair Hp; nest.
Qed.

Lemma level_decode_element (o c : ascii) (type_name : string) :
  In (o, c) pairs ->
  contains o type_name = false -> contains c type_name = false ->
  level o c (emit_decode_element type_name).
Proof.
  intros Hp Ho Hc d. unfold emit_decode_element.
  repeat match goal with
         | |- context [(type_name =? ?k)%string] => destruct (type_name =? k)%string
         end;
    each_pair Hp; nest.
Qed.

Lemma plain_member_free (lm : lcm_member) (c : ascii) :
  plain_member lm = true -> In c brackets ->
  contains c (lctypename (lm_type lm)) = false
  /\ contains c (lm_membername lm) = false
  /\ (forall ld, In ld (lm_dimensions lm) -> contains c (size ld) = false)
  /\ plain_comment (lm_comment lm) = true.
Proof.
  unfold plain_member. rewrite !andb_true_iff, forallb_forall.
  intros (((Ht & Hn) & Hd) & Hcm) Hc.
  repeat split; try (now apply plain_free); [|exact Hcm].
  intros ld Hld. apply plain_free; [now apply Hd | exact Hc].
Qed.

Lemma level_field (o c : ascii) (lm : lcm_member) :
  In (o, c) pairs -> plain_member lm = true -> level o c (emit_field lm).
Proof.
  intros Hp Hlm.
  destruct (pair_brackets o c Hp) as [Ho Hc].
  destruct (plain_member_free lm o Hlm Ho) as (Hto & Hno & _ & Hcm).
  destruct (plain_member_free lm c Hlm Hc) as (Htc & Hnc & _ & _).
  pose proof (level_comment o c 1 _ Ho Hc Hcm) as Hcomment.
  assert (Hangle : forall (piece : string) (dims : list lcm_dimension),
             contains o piece = false -> contains c piece = false ->
             level o c (cat (map (fun _ => emit_continue piece) dims))).
  { intros piece dims H1 H2. apply level_cat. intros _ _. now apply level_free. }
  unfold emit_field. intros d. destruct (lm_dimensions lm) as [|ld dims].
  - each_pair Hp; nest.
  - pose proof (Hangle "<"%string (ld :: dims)) as Hlt.
    pose proof (Hangle ">"%string (ld :: dims)) as Hgt.
    each_pair Hp; specialize (Hlt eq_refl eq_refl); specialize (Hgt eq_refl eq_refl); nest.
Qed.

Lemma level_constants (o c : ascii) (ls : lcm_struct) :
  In (o, c) pairs -> forallb plain_constant (ls_constants ls) = true ->
  level o c (emit_constants ls).
Proof.
  intros Hp Hcs. destruct (pair_brackets o c Hp) as [Ho Hc].
  rewrite forallb_forall in Hcs. unfold emit_constants.
  apply level_app.
  - apply level_cat. intros lc Hlc. specialize (Hcs lc Hlc).
    unfold plain_constant in Hcs. rewrite !andb_true_iff in Hcs.
    destruct Hcs as (((Ht & Hn) & Hv) & Hcm).
    pose proof (level_comment o c 1 _ Ho Hc Hcm) as Hcomment.
    pose proof (plain_free _ o Ht Ho). pose proof (plain_free _ c Ht Hc).
    pose proof (plain_free _ o Hn Ho). pose proof (plain_free _ c Hn Hc).
    pose proof (plain_free _ o Hv Ho). pose proof (plain_free _ c Hv Hc).
    intros d. each_pair Hp; nest.
  - destruct (0 <? _)%nat; [now apply level_nl | intros d; reflexivity].
Qed.

Lemma level_constructor (o c : ascii) (ls : lcm_struct) (class_name : string) :
  In (o, c) pairs ->
  contains o class_name = false -> contains c class_name = false ->
  forallb plain_member (ls_members ls) = true ->
  level o c (emit_constructor ls class_name).
Proof.
  intros Hp Hno Hnc Hms. destruct (pair_brackets o c Hp) as [Ho Hc].
  rewrite forallb_forall in Hms.
  assert (Hargs : level o c (cat (map (fun lm => emit 2 ("required this."
                                                         ++ lm_membername lm ++ ","))
                                      (ls_members ls)))).
  { apply level_cat. intros lm Hlm d.
    destruct (plain_member_free lm o (Hms lm Hlm) Ho) as (_ & H1 & _).
    destruct (plain_member_free lm c (Hms lm Hlm) Hc) as (_ & H2 & _).
    each_pair Hp; nest. }
  unfold emit_constructor. intros d. each_pair Hp; nest.
Qed.

Lemma level_encode_member (o c : ascii) (lm : lcm_member) :
  In (o, c) pairs -> plain_member lm = true -> level o c (emit_encode_member lm).
Proof.
  intros Hp Hlm. destruct (pair_brackets o c Hp) as [Ho Hc].
  destruct (plain_member_free lm o Hlm Ho) as (_ & Hno & Hdo & _).
  destruct (plain_member_free lm c Hlm Hc) as (_ & Hnc & Hdc & _).
  unfold emit_encode_member.
  destruct (lm_dimensions lm) as [|ld dims] eqn:Hdims;
    [now apply level_encode_one|].
  rewrite <- Hdims in *. set (dims' := lm_dimensions lm) in *.
  pose proof (level_encode_one o c (lctypename (lm_type lm)) (array_accessor lm)
                (2 + List.length dims') Hp
                (free_accessor o lm Ho Hno) (free_accessor c lm Hc Hnc)) as Hone.
  assert (Hin : forall dim ld', In (dim, ld') (indexed dims') ->
                  contains o (size ld') = false /\ contains c (size ld') = false).
  { intros dim ld' H. apply in_combine_r in H. split; [now apply Hdo | now apply Hdc]. }
  assert (Hlen : List.length (indexed dims') = List.length dims').
  { unfold indexed. rewrite length_combine, length_seq. lia. }
  intros d. each_pair Hp.
  - rewrite nesting_app.
    rewrite (nesting_opens "{" "}" (fun '(dim, ld') => emit_for_open dim ld')).
    + rewrite nesting_app, Hone, Hlen, <- (length_seq (List.length dims') 0) at 1.
      apply nesting_closes. intros dim _ d'. nest.
    + intros [dim ld'] H d'. destruct (Hin dim ld' H) as [H1 H2].
      unfold emit_for_open. nest.
  - rewrite nesting_app.
    rewrite (level_cat "(" ")" (fun '(dim, ld') => emit_for_open dim ld')).
    + rewrite nesting_app, Hone.
      apply level_cat. intros dim _ d'. nest.
    + intros [dim ld'] H d'. destruct (Hin dim ld' H) as [H1 H2].
      unfold emit_for_open. nest.
Qed.

Lemma level_decode_member (o c : ascii) (lm : lcm_member) :
  In (o, c) pairs -> plain_member lm = true -> level o c (emit_decode_member lm).
Proof.
  intros Hp Hlm. destruct (pair_brackets o c Hp) as [Ho Hc].
  destruct (plain_member_free lm o Hlm Ho) as (Hto & Hno & Hdo & _).
  destruct (plain_member_free lm c Hlm Hc) as (Htc & Hnc & Hdc & _).
  unfold emit_decode_member.
  destruct (lm_dimensions lm) as [|ld dims] eqn:Hdims.
  - pose proof (level_decode_scalar o c _ Hp Hto Htc) as Hs.
    intros d. each_pair Hp; nest.
  - pose proof (level_decode_element o c _ Hp Hto Htc) as He.
    pose proof (Hdo ld (or_introl eq_refl)) as H1.
    pose proof (Hdc ld (or_introl eq_refl)) as H2.
    intros d. each_pair Hp.
    + assert (Hmore : level "{" "}"
                (cat (map (fun ld' => emit_continue ("List.generate(" ++ size ld'
                                                     ++ ", (_) => ")) dims))).
      { apply level_cat. intros ld' Hld d'.
        pose proof (Hdo ld' (or_intror Hld)). pose proof (Hdc ld' (or_intror Hld)). nest. }
      assert (Hclose : level "{" "}"
                (cat (map (fun _ : lcm_dimension => emit_continue ")") (ld :: dims)))).
      { apply level_cat. intros _ _ d'. reflexivity. }
      nest.
    + unfold emit_continue. rewrite nesting_app.
      rewrite nesting_emit_start by (cbn; tauto).
      rewrite (nesting_free "(" ")" _ d) by free_goal.
      rewrite nesting_app. cbn [nesting Ascii.eqb Bool.eqb andb append].
      rewrite nesting_app.
      assert (Hsize : nesting "(" ")" (S d) (size ld ++ ", (_) => ") = Some (S d))
        by nest.
      rewrite Hsize, nesting_app.
      rewrite (nesting_opens "(" ")"
                 (fun ld' => ("List.generate(" ++ size ld' ++ ", (_) => ")%string)).
      * rewrite nesting_app, He, nesting_app.
        replace (List.length dims + S d)%nat with (List.length (ld :: dims) + d)%nat
          by (cbn [List.length]; lia).
        rewrite (nesting_closes "(" ")" (fun _ : lcm_dimension => ")"%string)).
        -- nest.
        -- intros _ _ d'. reflexivity.
      * intros ld' Hld d'.
        pose proof (Hdo ld' (or_intror Hld)). pose proof (Hdc ld' (or_intror Hld)). nest.
Qed.

Lemma level_encode_method (o c : ascii) (ls : lcm_struct) :
  In (o, c) pairs -> forallb plain_member (ls_members ls) = true ->
  level o c (emit_encode_method ls).
Proof.
  intros Hp Hms. rewrite forallb_forall in Hms.
  assert (Hbody : level o c (cat (map emit_encode_member (ls_members ls)))).
  { apply level_cat. intros lm Hlm. apply level_encode_member; auto. }
  unfold emit_encode_method. intros d. each_pair Hp; nest.
Qed.

Lemma level_decode_method (o c : ascii) (ls : lcm_struct) (class_name : string) :
  In (o, c) pairs ->
  contains o class_name = false -> contains c class_name = false ->
  forallb plain_member (ls_members ls) = true ->
  level o c (emit_decode_method ls class_name).
Proof.
  intros Hp Hno Hnc Hms. destruct (pair_brackets o c Hp) as [Ho Hc].
  rewrite forallb_forall in Hms.
  assert (Hbody : level o c (cat (map emit_decode_member (ls_members ls)))).
  { apply level_cat. intros lm Hlm. apply level_decode_member; auto. }
  assert (Hargs : level o c (cat (map (fun lm => emit 3 (lm_membername lm ++ ": "
                                                         ++ lm_membername lm ++ ","))
                                      (ls_members ls)))).
  { apply level_cat. intros lm Hlm d.
    destruct (plain_member_free lm o (Hms lm Hlm) Ho) as (_ & H1 & _).
    destruct (plain_member_free lm c (Hms lm Hlm) Hc) as (_ & H2 & _).
    each_pair Hp; nest. }
  pose proof (level_nl o c Ho Hc) as Hnl.
  unfold emit_decode_method. intros d. each_pair Hp; nest.
Qed.

(** X18.  The braces and the parentheses of an emitted file nest and
    close: read from its start, no closing one comes with nothing open,
    and by the end of the file every one that was opened is closed.  This
    holds for every struct whose names, types, dimensions, constants and
    comments hold no brace and no parenthesis themselves. *)
Theorem emitted_brackets_nest (ls : lcm_struct) (Hplain : plain_struct ls = true) :
  nesting "{" "}" 0 (emit_struct_text ls) = Some 0%nat
  /\ nesting "(" ")" 0 (emit_struct_text ls) = Some 0%nat.
Proof.
  unfold plain_struct in Hplain. rewrite !andb_true_iff in Hplain.
  destruct Hplain as (((Hname & Hms) & Hcs) & Hcm).
  assert (Hall : forall o c, In (o, c) pairs ->
             level o c emit_prologue
             /\ level o c (emit_comment 0 (ls_comment ls))
             /\ contains o (to_pascal_case (shortname (ls_structname ls))) = false
             /\ contains c (to_pascal_case (shortname (ls_structname ls))) = false
             /\ level o c (emit_fingerprint_constant ls)
             /\ level o c (emit_constants ls)
             /\ level o c (emit_fields ls)
             /\ level o c (emit_constructor ls (to_pascal_case (shortname (ls_structname ls))))
             /\ level o c emit_fingerprint_getter
             /\ level o c (emit_encode_method ls)
             /\ level o c (emit_decode_method ls
                             (to_pascal_case (shortname (ls_structname ls))))).
  { intros o c Hp. destruct (pair_brackets o c Hp) as [Ho Hc].
    assert (Hno : contains o (to_pascal_case (shortname (ls_structname ls))) = false)
      by (apply free_pascal; [exact Ho | now apply plain_free]).
    assert (Hnc : contains c (to_pascal_case (shortname (ls_structname ls))) = false)
      by (apply free_pascal; [exact Hc | now apply plain_free]).
    split; [intros d; each_pair Hp; reflexivity|].
    split; [now apply level_comment|].
    split; [exact Hno|]. split; [exact Hnc|].
    split; [intros d; unfold emit_fingerprint_constant, Int64.PRIx64_016;
            each_pair Hp; nest|].
    split; [now apply level_constants|].
    split.
    { unfold emit_fields. apply level_app; [|now apply level_nl].
      apply level_cat. intros lm Hlm. apply level_field; [exact Hp|].
      rewrite forallb_forall in Hms. now apply Hms. }
    split; [now apply level_constructor|].
    split; [intros d; each_pair Hp; reflexivity|].
    split; [now apply level_encode_method | now apply level_decode_method]. }
  split.
  - destruct (Hall "{"%char "}"%char (or_introl eq_refl))
      as (H1 & H2 & H3 & H4 & H5 & H6 & H7 & H8 & H9 & H10 & H11).
    unfold emit_struct_text, emit_class_open. nest.
  - destruct (Hall "("%char ")"%char (or_intror (or_introl eq_refl)))
      as (H1 & H2 & H3 & H4 & H5 & H6 & H7 & H8 & H9 & H10 & H11).
    unfold emit_struct_text, emit_class_open. nest.
Qed.

Lemma emitted_brackets_nest_witness :
  plain_struct Samples = true
  /\ nesting "{" "}" 0 (emit_struct_text Samples) = Some 0%nat
  /\ nesting "(" ")" 0 (emit_struct_text Samples) = Some 0%nat.
Proof. split; [reflexivity | exact (emitted_brackets_nest Samples eq_refl)]. Defined.

End NestingFacts.
